(** * Chess puzzle trainer: the puzzle-progression core of [ChessPuzzle]

    A shallow embedding of [src/src/App.tsx]: the move-notation normalizer
    [toSanSequence], the session state kept in React hooks, and the event
    handlers [reset], [undo], [playExpectedMove], [showHint], [onDrop] and the
    two loaders.  The chess rules themselves live in the [chess.js] package;
    they enter the development through the [RulesEngine] interface, and a
    reference engine written out in [ChessRules] instantiates it. *)

From Stdlib Require Import Bool Arith Lia List String Ascii ZArith DecimalString.
Import ListNotations.

Local Open Scope string_scope.
Local Open Scope list_scope.

(** ** JavaScript strings, regular expressions, exceptions *)

Module Js.

(** Text.  A [string] holds the bytes of the UTF-8 encoding of a JavaScript
    string, as the literals of this file do.  A character of ASCII is one
    byte, and no byte of another character is a byte of ASCII: the classes
    and literals of the regular expressions of the source, the squares cut
    out of a token that has passed [uciPattern], and the comparisons with
    [===] read the same on the bytes as on the characters.  White space is
    where the encoding shows: [\s] and [trim] know characters of two and
    three bytes. *)

(** A character class [[a-h]] or [[qrbn]]. *)
Inductive cclass : Type :=
| Range (lo hi : ascii)
| OneOf (cs : string).

(** A regular-expression item: a class, or a class followed by [?]. *)
Inductive atom : Type :=
| One (c : cclass)
| Opt (c : cclass).

Fixpoint mem (a : ascii) (cs : string) : bool :=
  match cs with
  | EmptyString => false
  | String c cs' => Ascii.eqb a c || mem a cs'
  end.

Definition in_class (c : cclass) (a : ascii) : bool :=
  match c with
  | Range lo hi =>
      Nat.leb (nat_of_ascii lo) (nat_of_ascii a) && Nat.leb (nat_of_ascii a) (nat_of_ascii hi)
  | OneOf cs => mem a cs
  end.

(** [/^re$/.test(s)] for a sequence of items. *)
Fixpoint test (re : list atom) (s : string) : bool :=
  match re with
  | [] => match s with EmptyString => true | String _ _ => false end
  | One c :: re' =>
      match s with
      | EmptyString => false
      | String a s' => in_class c a && test re' s'
      end
  | Opt c :: re' =>
      match s with
      | EmptyString => test re' s
      | String a s' => (in_class c a && test re' s') || test re' s
      end
  end.

(** [s.replace(/[cs]+/g, "")]: every run of characters of the class is
    removed, that is, every character of the class. *)
Fixpoint remove_all (cs : string) (s : string) : string :=
  match s with
  | EmptyString => EmptyString
  | String a s' => if mem a cs then remove_all cs s' else String a (remove_all cs s')
  end.

(** [s.slice(i, j)] for [0 <= i <= j], on a text of ASCII. *)
Definition slice (i j : nat) (s : string) : string := substring i (j - i) s.

(** [s[i]] on a text of ASCII: [None] stands for [undefined]. *)
Definition charAt (i : nat) (s : string) : option ascii := String.get i s.

(** Truthiness of a string: only the empty string is falsy. *)
Definition truthy (s : string) : bool :=
  match s with EmptyString => false | String _ _ => true end.

(** [\d]: the ten digits of ASCII. *)
Definition isDigit (a : ascii) : bool := in_class (Range "0" "9") a.

(** White space is what [\s] matches and [trim] removes: the WhiteSpace
    and LineTerminator characters of ECMAScript.  Six of them are characters
    of ASCII, the blank and U+0009 to U+000D; *)
Definition isSpace (a : ascii) : bool :=
  let n := nat_of_ascii a in
  Nat.eqb n 32 || (Nat.leb 9 n && Nat.leb n 13).

(** the others are U+00A0, U+1680, U+2000 to U+200A, U+2028, U+2029,
    U+202F, U+205F, U+3000 and U+FEFF, *)
Definition wideSpaceCodes : list N :=
  [160; 5760; 8192; 8193; 8194; 8195; 8196; 8197; 8198; 8199; 8200; 8201; 8202;
   8232; 8233; 8239; 8287; 12288; 65279]%N.

(** of two or three bytes each: the UTF-8 of a code point from 128 to
    65535. *)
Definition utf8 (n : N) : string :=
  if (n <? 2048)%N then
    String (ascii_of_N (192 + n / 64)) (String (ascii_of_N (128 + n mod 64)) "")
  else
    String (ascii_of_N (224 + n / 4096))
      (String (ascii_of_N (128 + (n / 64) mod 64))
         (String (ascii_of_N (128 + n mod 64)) "")).

Definition wideSpaces : list string := map utf8 wideSpaceCodes.

(** [s.startsWith(w)] *)
Fixpoint startsWith (w s : string) : bool :=
  match w with
  | EmptyString => true
  | String a w' =>
      match s with
      | EmptyString => false
      | String b s' => Ascii.eqb a b && startsWith w' s'
      end
  end.

(** The number of bytes of the white-space character [s] starts with; 0
    when it starts with none. *)
Definition spaceLen (s : string) : nat :=
  match s with
  | EmptyString => 0
  | String a _ =>
      if isSpace a then 1
      else
        match find (fun w => startsWith w s) wideSpaces with
        | Some w => String.length w
        | None => 0
        end
  end.

Fixpoint dropWhile (f : ascii -> bool) (s : string) : string :=
  match s with
  | EmptyString => EmptyString
  | String a s' => if f a then dropWhile f s' else s
  end.

Fixpoint reverse (s acc : string) : string :=
  match s with
  | EmptyString => acc
  | String a s' => reverse s' (String a acc)
  end.

(** [s.trim()].  In the three functions that follow, [skip] counts the
    bytes still to pass of the white-space character being read. *)
Fixpoint trimStart (skip : nat) (s : string) : string :=
  match s with
  | EmptyString => EmptyString
  | String _ s' =>
      match skip with
      | S k => trimStart k s'
      | 0 =>
          match spaceLen s with
          | S k => trimStart k s'
          | 0 => s
          end
      end
  end.

(** [s] is made of white-space characters. *)
Fixpoint onlySpaces (skip : nat) (s : string) : bool :=
  match s with
  | EmptyString => true
  | String _ s' =>
      match skip with
      | S k => onlySpaces k s'
      | 0 =>
          match spaceLen s with
          | S k => onlySpaces k s'
          | 0 => false
          end
      end
  end.

(** The text up to the point from which only white space follows. *)
Fixpoint trimEnd (s : string) : string :=
  match s with
  | EmptyString => EmptyString
  | String a s' => if onlySpaces 0 s then EmptyString else String a (trimEnd s')
  end.

Definition trim (s : string) : string := trimEnd (trimStart 0 s).

(** [s.split(/[seps]/)]: every character of [seps] ends a piece. *)
Fixpoint splitAny (seps : string) (s : string) : list string :=
  match s with
  | EmptyString => [""]
  | String a s' =>
      if mem a seps then "" :: splitAny seps s'
      else
        match splitAny seps s' with
        | h :: t => String a h :: t
        | [] => [String a ""]
        end
  end.

(** [s.replace(/\s+/g, " ")]; [inRun] tells that the previous character
    was white space. *)
Fixpoint collapseSpaces (skip : nat) (inRun : bool) (s : string) : string :=
  match s with
  | EmptyString => EmptyString
  | String a s' =>
      match skip with
      | S k => collapseSpaces k inRun s'
      | 0 =>
          match spaceLen s with
          | S k =>
              if inRun then collapseSpaces k true s' else String " " (collapseSpaces k true s')
          | 0 => String a (collapseSpaces 0 false s')
          end
      end
  end.

(** Thrown values.  [InvalidFen] is what the [Chess] constructor throws;
    [Error msg] is [new Error(msg)]. *)
Inductive exn : Type :=
| InvalidFen (fen : string)
| Error (message : string).

(** [JSON.stringify(s)] for a string [s]: between double quotes, with the
    double quote, the backslash and the control characters escaped. *)
Definition doubleQuote : ascii := ascii_of_nat 34.
Definition backslash : ascii := ascii_of_nat 92.

Definition hexDigit (n : nat) : ascii :=
  nth n ["0"; "1"; "2"; "3"; "4"; "5"; "6"; "7"; "8"; "9"; "a"; "b"; "c"; "d"; "e"; "f"]%char
    "0"%char.

Definition escaped (a : ascii) : string :=
  let n := nat_of_ascii a in
  if Nat.eqb n 34 || Nat.eqb n 92 then String backslash (String a "")
  else if Nat.eqb n 8 then String backslash "b"
  else if Nat.eqb n 9 then String backslash "t"
  else if Nat.eqb n 10 then String backslash "n"
  else if Nat.eqb n 12 then String backslash "f"
  else if Nat.eqb n 13 then String backslash "r"
  else if Nat.ltb n 32 then
    String backslash ("u00" ++ String (hexDigit (n / 16)) (String (hexDigit (n mod 16)) ""))
  else String a "".

Fixpoint escapedAll (s : string) : string :=
  match s with
  | EmptyString => EmptyString
  | String a s' => escaped a ++ escapedAll s'
  end.

Definition quote (s : string) : string :=
  String doubleQuote (escapedAll s ++ String doubleQuote "").

Inductive result (A : Type) : Type :=
| Ok (a : A)
| Throw (e : exn).
Arguments Ok {A} a.
Arguments Throw {A} e.

Definition bind {A B : Type} (r : result A) (k : A -> result B) : result B :=
  match r with
  | Ok a => k a
  | Throw e => Throw e
  end.

End Js.

Notation "x <- r ;; k" := (Js.bind r (fun x => k))
  (at level 61, r at next level, right associativity).

(** ** The rules engine consumed by the component *)

Definition Square : Type := string.

(** The fields of a [chess.js] move object the component reads. *)
Record Move : Type := mkMove
  { from : Square;
    to : Square;
    san : string;
    promotion : option ascii }.

(** What the component needs of [chess.js]: positions, reading and writing
    FEN, and the two forms of [move].  [move_san] is
    [move(token, { sloppy: true })], [move_obj] is
    [move({ from, to, promotion })]; [None] says that the text or the object
    is no legal move of the position, [load] gives [None] for a text that is
    no position.  How [chess.js] tells its caller is written out in
    [newChess], [moveSan] and [moveObj] below: it throws. *)
Class RulesEngine : Type :=
  { Position : Type;
    load : string -> option Position;
    fen_of : Position -> string;
    move_san : Position -> string -> option (Move * Position);
    move_obj : Position -> Square -> Square -> option ascii -> option (Move * Position) }.

(** A [Chess] instance: the current position and the history that [undo]
    pops.  [new Chess(fen)] starts with an empty history. *)
Record Chess `{RulesEngine} : Type := mkChess
  { current : Position;
    history : list (Move * Position) }.

Section ChessObject.
Context `{E : RulesEngine}.

(** [new Chess(fen)]; [None] when the constructor throws
    [Js.InvalidFen fen]. *)
Definition newChess (fen : string) : option Chess :=
  match load fen with
  | Some p => Some (mkChess _ p [])
  | None => None
  end.

(** [JSON.stringify({ from, to, promotion })]: a property whose value is
    [undefined] is left out. *)
Definition moveJson (f t : Square) (promo : option ascii) : string :=
  "{" ++ Js.quote "from" ++ ":" ++ Js.quote f ++ "," ++ Js.quote "to" ++ ":" ++ Js.quote t ++
  match promo with
  | Some c => "," ++ Js.quote "promotion" ++ ":" ++ Js.quote (String c "")
  | None => ""
  end ++ "}".

(** What [move] throws for a move that is not legal: the text of the move,
    or the JSON of the move object, after [Invalid move: ]. *)
Definition invalidMove (described : string) : Js.exn :=
  Js.Error ("Invalid move: " ++ described).

(** [move] never hands back [null]: it returns the move it has played and
    recorded, or throws. *)
Definition pushMove (ch : Chess) (r : option (Move * Position)) (described : string)
  : Js.result (Move * Chess) :=
  match r with
  | Some (mv, p') => Js.Ok (mv, mkChess _ p' ((mv, current ch) :: history ch))
  | None => Js.Throw (invalidMove described)
  end.

Definition moveSan (ch : Chess) (token : string) : Js.result (Move * Chess) :=
  pushMove ch (move_san (current ch) token) token.

Definition moveObj (ch : Chess) (f t : Square) (promo : option ascii)
  : Js.result (Move * Chess) :=
  pushMove ch (move_obj (current ch) f t promo) (moveJson f t promo).

(** [ch.undo()]: [None] (JavaScript [null]) when there is nothing to take
    back. *)
Definition undoMove (ch : Chess) : option (Move * Chess) :=
  match history ch with
  | [] => None
  | (mv, before) :: rest => Some (mv, mkChess _ before rest)
  end.

Definition fenOf (ch : Chess) : string := fen_of (current ch).

End ChessObject.

(** ** Move notation normalizer *)

(** [/^[a-h][1-8][a-h][1-8][qrbn]?$/] *)
Definition uciPattern : list Js.atom :=
  [ Js.One (Js.Range "a" "h"); Js.One (Js.Range "1" "8");
    Js.One (Js.Range "a" "h"); Js.One (Js.Range "1" "8");
    Js.Opt (Js.OneOf "qrbn") ].

Definition invalidSolutionMove (token : string) : Js.exn :=
  Js.Error ("Invalid solution move: " ++ token).

Section Normalizer.
Context `{E : RulesEngine}.

(** The callback of [seq.map]: one token against the scratch [clone].  The
    first [move] stands in a [try] whose [catch] ignores what is thrown; the
    second one, for a token of the coordinate pattern, does not, so that what
    it throws leaves the callback, and the [throw] of the last line is only
    reached by a token that does not match the pattern. *)
Definition sanOfToken (clone : Chess) (token : string) : Js.result (string * Chess) :=
  match moveSan clone token with
  | Js.Ok (mv, clone') => Js.Ok (san mv, clone')
  | Js.Throw _ =>
      if Js.test uciPattern token then
        r <- moveObj clone (Js.slice 0 2 token) (Js.slice 2 4 token) (Js.charAt 4 token) ;;
        Js.Ok (san (fst r), snd r)
      else Js.Throw (invalidSolutionMove token)
  end.

Fixpoint mapTokens (clone : Chess) (seq : list string) : Js.result (list string) :=
  match seq with
  | [] => Js.Ok []
  | token :: rest =>
      r <- sanOfToken clone token ;;
      out <- mapTokens (snd r) rest ;;
      Js.Ok (fst r :: out)
  end.

Definition toSanSequence (initialFen : string) (seq : list string) : Js.result (list string) :=
  match newChess initialFen with
  | Some clone => mapTokens clone seq
  | None => Js.Throw (Js.InvalidFen initialFen)
  end.

End Normalizer.

(** ** The puzzle component: configuration and hook state *)

Inductive Orientation : Type := white | black.

Record CoachItem : Type := mkCoachItem
  { ok : bool;
    text : string }.

Module PuzzleConfig.
Record t : Type := mk
  { title : option string;
    subtitle : option string;
    orientation : option Orientation;
    fen : string;
    solution : list string;
    coachNotes : option (list string) }.

Definition withFen (v : string) (p : t) : t :=
  mk (title p) (subtitle p) (orientation p) v (solution p) (coachNotes p).

Definition withSolution (v : list string) (p : t) : t :=
  mk (title p) (subtitle p) (orientation p) (fen p) v (coachNotes p).
End PuzzleConfig.

Definition DEFAULT_PUZZLE : PuzzleConfig.t :=
  PuzzleConfig.mk
    (Some "Daily Puzzle (Demo)")
    (Some "White to move — Mate in 1")
    (Some white)
    "7k/5Q2/7K/8/8/8/8/8 w - - 0 1"
    ["Qg7#"]
    (Some ["Qg7#"]).

(** The cells of [useState], and the number of [setTimeout] callbacks
    [() => setWrong(false)] still to fire. *)
Record State : Type := mkState
  { puzzle : PuzzleConfig.t;
    fen : string;
    orientation : Orientation;
    ply : nat;
    wrong : bool;
    arrows : list (Square * Square);
    solved : bool;
    coach : list CoachItem;
    timers : nat }.

(** The setters.  A handler reads the cells of the render it was created in
    and queues its updates; [setPuzzle] and [setCoach] are always called
    with an updater function, applied to the queued value. *)
Definition setPuzzle (f : PuzzleConfig.t -> PuzzleConfig.t) (q : State) : State :=
  mkState (f (puzzle q)) (fen q) (orientation q) (ply q) (wrong q) (arrows q) (solved q) (coach q) (timers q).
Definition setFen (v : string) (q : State) : State :=
  mkState (puzzle q) v (orientation q) (ply q) (wrong q) (arrows q) (solved q) (coach q) (timers q).
Definition setPly (v : nat) (q : State) : State :=
  mkState (puzzle q) (fen q) (orientation q) v (wrong q) (arrows q) (solved q) (coach q) (timers q).
Definition setWrong (v : bool) (q : State) : State :=
  mkState (puzzle q) (fen q) (orientation q) (ply q) v (arrows q) (solved q) (coach q) (timers q).
Definition setArrows (v : list (Square * Square)) (q : State) : State :=
  mkState (puzzle q) (fen q) (orientation q) (ply q) (wrong q) v (solved q) (coach q) (timers q).
Definition setSolved (v : bool) (q : State) : State :=
  mkState (puzzle q) (fen q) (orientation q) (ply q) (wrong q) (arrows q) v (coach q) (timers q).
Definition setCoach (f : list CoachItem -> list CoachItem) (q : State) : State :=
  mkState (puzzle q) (fen q) (orientation q) (ply q) (wrong q) (arrows q) (solved q) (f (coach q)) (timers q).
(** [setTimeout(() => setWrong(false), 450)] *)
Definition setTimeout (q : State) : State :=
  mkState (puzzle q) (fen q) (orientation q) (ply q) (wrong q) (arrows q) (solved q) (coach q) (S (timers q)).

(** [s.includes(t)] *)
Fixpoint includes (t s : string) : bool :=
  prefix t s ||
  match s with
  | EmptyString => false
  | String _ s' => includes t s'
  end.

Definition initialState (initialCfg : PuzzleConfig.t) : State :=
  mkState initialCfg (PuzzleConfig.fen initialCfg)
    (match PuzzleConfig.orientation initialCfg with
     | Some o => o
     | None => if includes " w " (PuzzleConfig.fen initialCfg) then white else black
     end)
    0 false [] false [] 0.

(** [(s: string) => s.replace(/[+#!?]+/g, "")] *)
Definition clean (s : string) : string := Js.remove_all "+#!?" s.

(** [puzzle.coachNotes?.[ply] || fallback] *)
Definition coachText (p : PuzzleConfig.t) (i : nat) (fallback : string) : string :=
  match PuzzleConfig.coachNotes p with
  | Some notes =>
      match nth_error notes i with
      | Some note => if Js.truthy note then note else fallback
      | None => fallback
      end
  | None => fallback
  end.

(** [c.slice(0, -1)] *)
Definition dropLast {A : Type} (c : list A) : list A := firstn (List.length c - 1) c.

Section Component.
Context `{E : RulesEngine}.

(** [useMemo(() => toSanSequence(puzzle.fen, puzzle.solution), ...)] *)
Definition expectedSequence (s : State) : Js.result (list string) :=
  toSanSequence (PuzzleConfig.fen (puzzle s)) (PuzzleConfig.solution (puzzle s)).

(** Every handler below takes the list [es] that [expectedSequence] held in
    the render [s] that created it, the cells [s] of that render, and the
    queued state [q] its setters act on.  [reset], [undo], [playExpectedMove]
    and [showHint] return nothing: they are modelled by the queued state they
    leave, which is [q] itself when the [Chess] constructor throws in their
    first line. *)

Definition reset (s q : State) : State :=
  let q := setFen (PuzzleConfig.fen (puzzle s)) q in
  let q := setPly 0 q in
  let q := setWrong false q in
  let q := setArrows [] q in
  let q := setSolved false q in
  setCoach (fun _ => []) q.

Definition undo (s q : State) : State :=
  match newChess (fen s) with
  | None => q
  | Some ch =>
      match undoMove ch with
      | Some (undone, ch) =>
          let q := setPly (Nat.max 0 (ply q - 1)) q in
          let q := setCoach dropLast q in
          let q := setFen (fenOf ch) q in
          let q := setWrong false q in
          let q := setSolved false q in
          setArrows [] q
      | None => q
      end
  end.

Definition playExpectedMove (es : list string) (s q : State) : State :=
  if Nat.leb (List.length es) (ply s) then q
  else
    match newChess (fen s), nth_error es (ply s) with
    | Some ch, Some expected =>
        match moveSan ch expected with
        | Js.Throw _ => q
        | Js.Ok (mv, ch) =>
            let q := setFen (fenOf ch) q in
            let q := setPly (ply s + 1) q in
            let q := setCoach (fun c => c ++ [mkCoachItem true (coachText (puzzle s) (ply s) (san mv))]) q in
            if Nat.eqb (ply s + 1) (List.length es) then setSolved true q else q
        end
    | _, _ => q
    end.

Definition showHint (es : list string) (s q : State) : State :=
  match newChess (fen s), nth_error es (ply s) with
  | Some ch, Some expected =>
      match moveSan ch expected with
      | Js.Throw _ => q
      | Js.Ok (mv, ch) =>
          let _ := undoMove ch in
          setArrows [(from mv, to mv)] q
      end
  | _, _ => q
  end.

(** [onDrop] returns a boolean, or throws: neither the constructor nor
    [move] stands in a [try], and both come before the first setter, so that
    nothing is queued when they throw.  As [move] never returns [null], the
    line [if (!move) return false] lets every move through. *)
Definition onDrop (es : list string) (s q : State) (sourceSquare targetSquare : Square)
  : Js.result (State * bool) :=
  match newChess (fen s) with
  | None => Js.Throw (Js.InvalidFen (fen s))
  | Some ch =>
      r <- moveObj ch sourceSquare targetSquare (Some "q"%char) ;;
      let move := fst r in
      let ch := snd r in
      let expectedSan := nth_error es (ply s) in
      let playedSan := san move in
      let correct :=
        match expectedSan with
        | Some e => Js.truthy e && String.eqb (clean e) (clean playedSan)
        | None => false
        end in
      if negb correct then
        Js.Ok (setTimeout (setWrong true q), false)
      else
        let q := setFen (fenOf ch) q in
        let q := setPly (ply s + 1) q in
        let q := setCoach (fun c => c ++ [mkCoachItem true (coachText (puzzle s) (ply s) playedSan)]) q in
        let q := setArrows [] q in
        let q := if Nat.eqb (ply s + 1) (List.length es) then setSolved true q else q in
        Js.Ok (q, true)
  end.

(** The two callbacks handed to [PuzzleLoader].  The second component of the
    result is the text passed to [alert], if any. *)
Definition onLoad (s q : State) (p_fen : string) : State * option string :=
  match newChess p_fen with
  | None => (q, Some "Invalid FEN")
  | Some _ =>
      let q := setPuzzle (PuzzleConfig.withFen p_fen) q in
      let q := setFen p_fen q in
      let q := setPly 0 q in
      let q := setSolved false q in
      let q := setWrong false q in
      let q := setCoach (fun _ => []) q in
      (q, None)
  end.

Definition onLoadSolution (s q : State) (seq : list string) : State * option string :=
  match toSanSequence (PuzzleConfig.fen (puzzle s)) seq with
  | Js.Throw _ => (q, Some "Invalid solution list (use SAN like Qg7# or UCI like f7g7)")
  | Js.Ok _ =>
      let q := setPuzzle (PuzzleConfig.withSolution seq) q in
      let q := setPly 0 q in
      let q := setSolved false q in
      let q := setWrong false q in
      let q := setCoach (fun _ => []) q in
      let q := setArrows [] q in
      (q, None)
  end.

(** [parseMoves] of [PuzzleLoader]. *)

(** [s.replace(/\d+\.(\.\.)?/g, " ")]; [pending] holds the digits read since
    the last other character. *)
Fixpoint dropMoveNumbers (pending : string) (s : string) : string :=
  match s with
  | EmptyString => pending
  | String c r =>
      if Js.isDigit c then dropMoveNumbers (pending ++ String c "") r
      else if Ascii.eqb c "." && Js.truthy pending then
        String " "
          (match r with
           | String c1 (String c2 r2) =>
               if Ascii.eqb c1 "." && Ascii.eqb c2 "."
               then dropMoveNumbers "" r2
               else dropMoveNumbers "" r
           | _ => dropMoveNumbers "" r
           end)
      else pending ++ String c (dropMoveNumbers "" r)
  end.

Definition parseMoves (s : string) : list string :=
  filter Js.truthy
    (Js.splitAny " ," (Js.trim (Js.collapseSpaces 0 false (dropMoveNumbers "" s)))).

(** [loadDemo] of [PuzzleLoader]: both callbacks belong to the same render. *)
Definition loadDemo (s q : State) : State * list string :=
  let r1 := onLoad s q (PuzzleConfig.fen DEFAULT_PUZZLE) in
  let r2 := onLoadSolution s (fst r1) (PuzzleConfig.solution DEFAULT_PUZZLE) in
  (fst r2,
   match snd r1 with Some a => [a] | None => [] end ++
   match snd r2 with Some a => [a] | None => [] end).

(** The scheduled [() => setWrong(false)]. *)
Definition timerFires (q : State) : State :=
  match timers q with
  | 0 => q
  | S n =>
      mkState (puzzle q) (fen q) (orientation q) (ply q) false (arrows q) (solved q) (coach q) n
  end.

(** A drag on the board.  [Chessboard] is given [arePiecesDraggable={!solved}]
    and calls [onPieceDrop] only for a piece that could be dragged. *)
Definition submitMove (es : list string) (s : State) (sourceSquare targetSquare : Square)
  : Js.result (State * bool) :=
  if solved s then Js.Ok (s, false) else onDrop es s s sourceSquare targetSquare.

(** The cells after a handler that returns a value or throws before its
    first setter. *)
Definition cellsAfter {A : Type} (s : State) (r : Js.result (State * A)) : State :=
  match r with
  | Js.Ok (q, _) => q
  | Js.Throw _ => s
  end.

(** What the user and the clock can do to a mounted component. *)
Inductive Event : Type :=
| PieceDrop (sourceSquare targetSquare : Square)
| ClickHint
| ClickUndo
| ClickReset
| ClickPlayCoach
| ClickLoadFen (text : string)
| ClickLoadSolution (moves : string)
| ClickLoadDemo
| TimerFires.

(** The state after an event; [es] is the expected sequence of the render.
    The coach button carries [disabled={solved}], the FEN button runs
    [fen && onLoad({ fen })], the solution button
    [onLoadSolution(parseMoves(moves))].  What [onDrop] throws is thrown
    inside the drop callback of the board and not during a render: the
    component stays mounted with its cells as they were. *)
Definition handle (es : list string) (s : State) (ev : Event) : State :=
  match ev with
  | PieceDrop a b => cellsAfter s (submitMove es s a b)
  | ClickHint => showHint es s s
  | ClickUndo => undo s s
  | ClickReset => reset s s
  | ClickPlayCoach => if solved s then s else playExpectedMove es s s
  | ClickLoadFen text => if Js.truthy text then fst (onLoad s s text) else s
  | ClickLoadSolution moves => fst (onLoadSolution s s (parseMoves moves))
  | ClickLoadDemo => fst (loadDemo s s)
  | TimerFires => timerFires s
  end.

(** A render evaluates [expectedSequence] and [prettyResult(new Chess(fen))];
    when either throws there is no component left to receive events. *)
Definition rendered (s : State) : option (list string) :=
  match expectedSequence s, newChess (fen s) with
  | Js.Ok es, Some _ => Some es
  | _, _ => None
  end.

Definition dispatch (s : State) (ev : Event) : option State :=
  match rendered s with
  | Some es => Some (handle es s ev)
  | None => None
  end.

Fixpoint run (s : State) (evs : list Event) : option State :=
  match evs with
  | [] => Some s
  | ev :: evs' =>
      match dispatch s ev with
      | Some s' => run s' evs'
      | None => None
      end
  end.

Inductive Reachable (cfg : PuzzleConfig.t) : State -> Prop :=
| Reachable_initial : Reachable cfg (initialState cfg)
| Reachable_event s ev s' :
    Reachable cfg s -> dispatch s ev = Some s' -> Reachable cfg s'.

End Component.

(** ** A reference rules engine

    The rules of chess as the component uses them through [chess.js]: FEN
    in and out, legal moves, and Standard Algebraic Notation with its
    disambiguation and check marks. *)

Module ChessRules.

Local Open Scope Z_scope.

Inductive Color : Type := White | Black.
Inductive Kind : Type := Pawn | Knight | Bishop | Rook | Queen | King.

Definition Piece : Type := (Color * Kind)%type.

(** File and rank, both in [0, 8); [a1] is [(0, 0)]. *)
Definition Coord : Type := (Z * Z)%type.

Definition Board : Type := list (option Piece).

Definition color_eqb (a b : Color) : bool :=
  match a, b with
  | White, White | Black, Black => true
  | _, _ => false
  end.

Definition kind_eqb (a b : Kind) : bool :=
  match a, b with
  | Pawn, Pawn | Knight, Knight | Bishop, Bishop
  | Rook, Rook | Queen, Queen | King, King => true
  | _, _ => false
  end.

Definition coord_eqb (a b : Coord) : bool := (fst a =? fst b) && (snd a =? snd b).

Definition other (c : Color) : Color :=
  match c with White => Black | Black => White end.

Definition onBoard (s : Coord) : bool :=
  (0 <=? fst s) && (fst s <? 8) && (0 <=? snd s) && (snd s <? 8).

Definition index (s : Coord) : nat := Z.to_nat (snd s * 8 + fst s).

Definition get (b : Board) (s : Coord) : option Piece :=
  if onBoard s then nth (index s) b None else None.

Fixpoint update {A : Type} (l : list A) (i : nat) (v : A) : list A :=
  match l, i with
  | [], _ => []
  | _ :: l', O => v :: l'
  | x :: l', S i' => x :: update l' i' v
  end.

Definition put (b : Board) (s : Coord) (v : option Piece) : Board :=
  if onBoard s then update b (index s) v else b.

Definition isEmpty (b : Board) (s : Coord) : bool :=
  match get b s with None => true | Some _ => false end.

Record Pos : Type := mkPos
  { board : Board;
    turn : Color;
    whiteShort : bool;
    whiteLong : bool;
    blackShort : bool;
    blackLong : bool;
    epSquare : option Coord;
    halfMoves : nat;
    moveNumber : nat }.

Definition files : list Z := [0; 1; 2; 3; 4; 5; 6; 7].

(** From [a8] to [h1], rank by rank. *)
Definition allSquares : list Coord :=
  flat_map (fun r => map (fun f => (f, r)) files) (rev files).

Definition shift (s d : Coord) : Coord := (fst s + fst d, snd s + snd d).

Fixpoint ray (b : Board) (s d : Coord) (fuel : nat) : list Coord :=
  match fuel with
  | O => []
  | S n =>
      let s' := shift s d in
      if onBoard s' then
        match get b s' with
        | None => s' :: ray b s' d n
        | Some _ => [s']
        end
      else []
  end.

Definition knightSteps : list Coord :=
  [(-2, -1); (-2, 1); (-1, -2); (-1, 2); (1, -2); (1, 2); (2, -1); (2, 1)].
Definition rookDirs : list Coord := [(0, 1); (0, -1); (1, 0); (-1, 0)].
Definition bishopDirs : list Coord := [(1, 1); (1, -1); (-1, 1); (-1, -1)].

Definition steps (s : Coord) (ds : list Coord) : list Coord :=
  filter onBoard (map (shift s) ds).

Definition slides (b : Board) (s : Coord) (ds : list Coord) : list Coord :=
  flat_map (fun d => ray b s d 7) ds.

Definition forward (c : Color) : Z :=
  match c with White => 1 | Black => -1 end.

(** The squares a piece standing on [s] attacks. *)
Definition attacks (b : Board) (s : Coord) (p : Piece) : list Coord :=
  match snd p with
  | Pawn => steps s [(-1, forward (fst p)); (1, forward (fst p))]
  | Knight => steps s knightSteps
  | King => steps s (rookDirs ++ bishopDirs)
  | Bishop => slides b s bishopDirs
  | Rook => slides b s rookDirs
  | Queen => slides b s (rookDirs ++ bishopDirs)
  end.

Definition attacked (b : Board) (attacker : Color) (t : Coord) : bool :=
  existsb
    (fun s =>
       match get b s with
       | Some p => color_eqb (fst p) attacker && existsb (coord_eqb t) (attacks b s p)
       | None => false
       end)
    allSquares.

Definition kingSquare (b : Board) (c : Color) : option Coord :=
  find
    (fun s =>
       match get b s with
       | Some (c', King) => color_eqb c c'
       | _ => false
       end)
    allSquares.

Definition inCheck (b : Board) (c : Color) : bool :=
  match kingSquare b c with
  | Some k => attacked b (other c) k
  | None => false
  end.

Inductive Flag : Type :=
| Quiet | Captures | DoublePush | EnPassant | CastleShort | CastleLong.

Record RawMove : Type := mkRaw
  { src : Coord;
    dst : Coord;
    piece : Kind;
    promo : option Kind;
    flag : Flag }.

Definition lastRank (c : Color) : Z := match c with White => 7 | Black => 0 end.
Definition pawnRank (c : Color) : Z := match c with White => 1 | Black => 6 end.
Definition homeRank (c : Color) : Z := match c with White => 0 | Black => 7 end.

Definition pawnTo (c : Color) (s t : Coord) (fl : Flag) : list RawMove :=
  if snd t =? lastRank c
  then map (fun k => mkRaw s t Pawn (Some k) fl) [Queen; Rook; Bishop; Knight]
  else [mkRaw s t Pawn None fl].

Definition isEp (p : Pos) (t : Coord) : bool :=
  match epSquare p with
  | Some e => coord_eqb e t
  | None => false
  end.

Definition pawnMoves (p : Pos) (s : Coord) : list RawMove :=
  let c := turn p in
  let b := board p in
  let one := shift s (0, forward c) in
  let two := shift s (0, 2 * forward c) in
  (if onBoard one && isEmpty b one then
     pawnTo c s one Quiet ++
     (if (snd s =? pawnRank c) && isEmpty b two then [mkRaw s two Pawn None DoublePush] else [])
   else []) ++
  flat_map
    (fun t =>
       match get b t with
       | Some (c', _) => if color_eqb c' c then [] else pawnTo c s t Captures
       | None => if isEp p t then [mkRaw s t Pawn None EnPassant] else []
       end)
    (attacks b s (c, Pawn)).

Definition pieceMoves (p : Pos) (s : Coord) (k : Kind) : list RawMove :=
  flat_map
    (fun t =>
       match get (board p) t with
       | None => [mkRaw s t k None Quiet]
       | Some (c', _) => if color_eqb c' (turn p) then [] else [mkRaw s t k None Captures]
       end)
    (attacks (board p) s (turn p, k)).

Definition castleMoves (p : Pos) : list RawMove :=
  let c := turn p in
  let b := board p in
  let r := homeRank c in
  let safe := fun f => negb (attacked b (other c) (f, r)) in
  let kingHome :=
    match get b (4, r) with
    | Some (c', King) => color_eqb c c'
    | _ => false
    end in
  let short := match c with White => whiteShort p | Black => blackShort p end in
  let long := match c with White => whiteLong p | Black => blackLong p end in
  (if kingHome && short && isEmpty b (5, r) && isEmpty b (6, r)
      && safe 4 && safe 5 && safe 6
   then [mkRaw (4, r) (6, r) King None CastleShort] else []) ++
  (if kingHome && long && isEmpty b (3, r) && isEmpty b (2, r) && isEmpty b (1, r)
      && safe 4 && safe 3 && safe 2
   then [mkRaw (4, r) (2, r) King None CastleLong] else []).

Definition pseudoMoves (p : Pos) : list RawMove :=
  flat_map
    (fun s =>
       match get (board p) s with
       | Some (c', k) =>
           if color_eqb c' (turn p) then
             match k with
             | Pawn => pawnMoves p s
             | _ => pieceMoves p s k
             end
           else []
       | None => []
       end)
    allSquares ++ castleMoves p.

Definition isCapture (m : RawMove) : bool :=
  match flag m with
  | Captures | EnPassant => true
  | _ => false
  end.

Definition makeMove (p : Pos) (m : RawMove) : Pos :=
  let c := turn p in
  let r := homeRank c in
  let placed := match promo m with Some k => (c, k) | None => (c, piece m) end in
  let b1 := put (put (board p) (src m) None) (dst m) (Some placed) in
  let b2 :=
    match flag m with
    | EnPassant => put b1 (fst (dst m), snd (src m)) None
    | CastleShort => put (put b1 (7, r) None) (5, r) (Some (c, Rook))
    | CastleLong => put (put b1 (0, r) None) (3, r) (Some (c, Rook))
    | _ => b1
    end in
  let touches := fun s => coord_eqb (src m) s || coord_eqb (dst m) s in
  mkPos b2 (other c)
    (whiteShort p && negb (touches (4, 0) || touches (7, 0)))
    (whiteLong p && negb (touches (4, 0) || touches (0, 0)))
    (blackShort p && negb (touches (4, 7) || touches (7, 7)))
    (blackLong p && negb (touches (4, 7) || touches (0, 7)))
    (match flag m with
     | DoublePush => Some (shift (src m) (0, forward c))
     | _ => None
     end)
    (if kind_eqb (piece m) Pawn || isCapture m then O else S (halfMoves p))
    (match c with Black => S (moveNumber p) | White => moveNumber p end).

Definition legalMoves (p : Pos) : list RawMove :=
  filter (fun m => negb (inCheck (board (makeMove p m)) (turn p))) (pseudoMoves p).

(** *** Standard Algebraic Notation *)

Local Open Scope string_scope.

Definition fileChar (f : Z) : ascii :=
  nth (Z.to_nat f) ["a"; "b"; "c"; "d"; "e"; "f"; "g"; "h"]%char "a"%char.

Definition rankChar (r : Z) : ascii :=
  nth (Z.to_nat r) ["1"; "2"; "3"; "4"; "5"; "6"; "7"; "8"]%char "1"%char.

Definition algebraic (s : Coord) : string :=
  String (fileChar (fst s)) (String (rankChar (snd s)) "").

Definition kindUpper (k : Kind) : ascii :=
  match k with
  | Pawn => "P" | Knight => "N" | Bishop => "B" | Rook => "R" | Queen => "Q" | King => "K"
  end%char.

Definition kindLower (k : Kind) : ascii :=
  match k with
  | Pawn => "p" | Knight => "n" | Bishop => "b" | Rook => "r" | Queen => "q" | King => "k"
  end%char.

(** Origin file, rank or square, when another piece of the same kind can
    legally reach the same destination. *)
Definition disambiguator (m : RawMove) (moves : list RawMove) : string :=
  let rivals :=
    filter
      (fun o => kind_eqb (piece o) (piece m) && coord_eqb (dst o) (dst m)
                && negb (coord_eqb (src o) (src m)))
      moves in
  let sameRank := existsb (fun o => snd (src o) =? snd (src m))%Z rivals in
  let sameFile := existsb (fun o => fst (src o) =? fst (src m))%Z rivals in
  match rivals with
  | [] => ""
  | _ :: _ =>
      if sameRank && sameFile then algebraic (src m)
      else if sameFile then String (rankChar (snd (src m))) ""
      else String (fileChar (fst (src m))) ""
  end.

Definition sanHead (m : RawMove) (moves : list RawMove) : string :=
  match piece m with
  | Pawn => if isCapture m then String (fileChar (fst (src m))) "x" else ""
  | k => String (kindUpper k) (disambiguator m moves ++ (if isCapture m then "x" else ""))
  end.

Definition sanPromotion (m : RawMove) : string :=
  match promo m with
  | Some k => String "=" (String (kindUpper k) "")
  | None => ""
  end.

Definition sanBody (m : RawMove) (moves : list RawMove) : string :=
  match flag m with
  | CastleShort => "O-O"
  | CastleLong => "O-O-O"
  | _ => sanHead m moves ++ algebraic (dst m) ++ sanPromotion m
  end.

(** ["#"] for mate, ["+"] for check, in the position after the move. *)
Definition sanSuffix (after : Pos) : string :=
  if inCheck (board after) (turn after) then
    match legalMoves after with
    | [] => "#"
    | _ :: _ => "+"
    end
  else "".

Definition moveToSan (p : Pos) (moves : list RawMove) (m : RawMove) : string :=
  sanBody m moves ++ sanSuffix (makeMove p m).

(** The move object handed back to the caller, with the position reached. *)
Definition pretty (p : Pos) (moves : list RawMove) (m : RawMove) : Move * Pos :=
  (mkMove (algebraic (src m)) (algebraic (dst m)) (moveToSan p moves m)
     (option_map kindLower (promo m)),
   makeMove p m).

(** *** Reading moves *)

Fixpoint removeFirst (c : ascii) (s : string) : string :=
  match s with
  | EmptyString => EmptyString
  | String a s' => if Ascii.eqb a c then s' else String a (removeFirst c s')
  end.

(** [move.replace(/=/, "").replace(/[+#]?[?!]*$/, "")] *)
Definition strippedSan (s : string) : string :=
  let r := Js.dropWhile (fun a => Js.mem a "?!") (Js.reverse (removeFirst "=" s) "") in
  let r := match r with
           | String a r' => if Js.mem a "+#" then r' else r
           | EmptyString => r
           end in
  Js.reverse r "".

Definition parseFile (a : ascii) : option Z :=
  let n := nat_of_ascii a in
  if Nat.leb 97 n && Nat.leb n 104 then Some (Z.of_nat (n - 97)) else None.

Definition parseRank (a : ascii) : option Z :=
  let n := nat_of_ascii a in
  if Nat.leb 49 n && Nat.leb n 56 then Some (Z.of_nat (n - 49)) else None.

Definition parseKind (a : ascii) : option Kind :=
  find (fun k => Ascii.eqb a (kindUpper k) || Ascii.eqb a (kindLower k))
    [Pawn; Knight; Bishop; Rook; Queen; King].

Definition parseSquare (s : string) : option Coord :=
  match s with
  | String f (String r EmptyString) =>
      match parseFile f, parseRank r with
      | Some x, Some y => Some (x, y)
      | _, _ => None
      end
  | _ => None
  end.

(** The coordinate forms read when the notation is not the engine's own:
    [Pe2-e4], [Rc1c4], [Qf3xf7], [f7f8q], [b1c3]. *)
Definition parseSloppy (s : string) : option (option Kind * Coord * Coord * option Kind) :=
  let '(pc, s1) :=
    match s with
    | String a rest =>
        match parseKind a, parseFile a with
        | Some k, None => (Some k, rest)
        | Some k, Some _ =>
            (* [b] is a bishop only when a whole square follows it *)
            match parseSquare (Js.slice 0 2 rest) with
            | Some _ => (Some k, rest)
            | None => (None, s)
            end
        | None, _ => (None, s)
        end
    | EmptyString => (None, s)
    end in
  match parseSquare (Js.slice 0 2 s1) with
  | None => None
  | Some f =>
      let s2 := Js.slice 2 (String.length s1) s1 in
      let s3 := match s2 with String "x" r => r | _ => s2 end in
      let s4 := match s3 with String "-" r => r | _ => s3 end in
      match parseSquare (Js.slice 0 2 s4) with
      | None => None
      | Some t =>
          match Js.slice 2 (String.length s4) s4 with
          | EmptyString => Some (pc, f, t, None)
          | String a EmptyString =>
              match parseKind a with
              | Some k =>
                  if Js.mem a "qrbnQRBN" then Some (pc, f, t, Some k) else None
              | None => None
              end
          | _ => None
          end
      end
  end.

Definition optKindMatches (want : option Kind) (have : Kind) : bool :=
  match want with
  | Some k => kind_eqb k have
  | None => true
  end.

Definition optPromoMatches (want : option Kind) (have : option Kind) : bool :=
  match want, have with
  | None, _ => true
  | Some k, Some k' => kind_eqb k k'
  | Some _, None => false
  end.

(** [move(token, { sloppy: true })] *)
Definition moveSan (p : Pos) (token : string) : option (Move * Pos) :=
  let moves := legalMoves p in
  let wanted := strippedSan token in
  match find (fun m => String.eqb wanted (strippedSan (moveToSan p moves m))) moves with
  | Some m => Some (pretty p moves m)
  | None =>
      match parseSloppy wanted with
      | Some (pc, f, t, pr) =>
          option_map (pretty p moves)
            (find
               (fun m => optKindMatches pc (piece m) && coord_eqb f (src m)
                         && coord_eqb t (dst m) && optPromoMatches pr (promo m))
               moves)
      | None => None
      end
  end.

Definition promotionAgrees (given : option ascii) (m : RawMove) : bool :=
  match promo m with
  | None => true
  | Some k =>
      match given with
      | Some a => Ascii.eqb a (kindLower k)
      | None => false
      end
  end.

(** [move({ from, to, promotion })]: the first legal move between the two
    squares whose promotion piece, if it has one, is the one given. *)
Definition moveObj (p : Pos) (f t : Square) (given : option ascii) : option (Move * Pos) :=
  match parseSquare f, parseSquare t with
  | Some a, Some b =>
      let moves := legalMoves p in
      option_map (pretty p moves)
        (find (fun m => coord_eqb a (src m) && coord_eqb b (dst m) && promotionAgrees given m)
           moves)
  | _, _ => None
  end.

(** *** Forsyth-Edwards Notation *)

Definition pieceChar (p : Piece) : ascii :=
  match fst p with
  | White => kindUpper (snd p)
  | Black => kindLower (snd p)
  end.

Definition digitChar (n : nat) : ascii :=
  nth n ["0"; "1"; "2"; "3"; "4"; "5"; "6"; "7"; "8"; "9"]%char "0"%char.

Definition emptyRun (n : nat) : string :=
  match n with
  | O => ""
  | S _ => String (digitChar n) ""
  end.

Fixpoint rowText (cells : list (option Piece)) (empties : nat) : string :=
  match cells with
  | [] => emptyRun empties
  | None :: rest => rowText rest (S empties)
  | Some p :: rest => emptyRun empties ++ String (pieceChar p) (rowText rest O)
  end.

Fixpoint join (sep : string) (parts : list string) : string :=
  match parts with
  | [] => ""
  | [x] => x
  | x :: rest => x ++ sep ++ join sep rest
  end.

Definition decimal (n : nat) : string := NilZero.string_of_uint (Nat.to_uint n).

Definition castlingText (p : Pos) : string :=
  let t := (if whiteShort p then "K" else "") ++ (if whiteLong p then "Q" else "")
           ++ (if blackShort p then "k" else "") ++ (if blackLong p then "q" else "") in
  match t with
  | EmptyString => "-"
  | _ => t
  end.

Definition toFen (p : Pos) : string :=
  join " "
    [ join "/" (map (fun r => rowText (map (fun f => get (board p) (f, r)) files) O) (rev files));
      match turn p with White => "w" | Black => "b" end;
      castlingText p;
      match epSquare p with Some e => algebraic e | None => "-" end;
      decimal (halfMoves p);
      decimal (moveNumber p) ].

Definition parseDigit (a : ascii) : option nat :=
  let n := nat_of_ascii a in
  if Nat.leb 48 n && Nat.leb n 57 then Some (n - 48)%nat else None.

Fixpoint parseNumberFrom (acc : nat) (s : string) : option nat :=
  match s with
  | EmptyString => Some acc
  | String a s' =>
      match parseDigit a with
      | Some d => parseNumberFrom (10 * acc + d) s'
      | None => None
      end
  end.

Definition parseNumber (s : string) : option nat :=
  match s with
  | EmptyString => None
  | _ => parseNumberFrom O s
  end.

Definition parsePiece (a : ascii) : option Piece :=
  match parseKind a with
  | Some k => Some (if Ascii.eqb a (kindUpper k) then White else Black, k)
  | None => None
  end.

(** One rank of the placement field; two digits may not follow each other. *)
Fixpoint parseRow (s : string) (afterDigit : bool) : option (list (option Piece)) :=
  match s with
  | EmptyString => Some []
  | String a s' =>
      match parseDigit a with
      | Some d =>
          if afterDigit || Nat.eqb d 0 || Nat.ltb 8 d then None
          else option_map (app (repeat None d)) (parseRow s' true)
      | None =>
          match parsePiece a, parseRow s' false with
          | Some pc, Some rest => Some (Some pc :: rest)
          | _, _ => None
          end
      end
  end.

Fixpoint parseRows (rows : list string) : option (list (list (option Piece))) :=
  match rows with
  | [] => Some []
  | r :: rest =>
      match parseRow r false, parseRows rest with
      | Some cells, Some more =>
          if Nat.eqb (List.length cells) 8 then Some (cells :: more) else None
      | _, _ => None
      end
  end.

(** [KQkq] or a part of it in that order, or [-]. *)
Definition parseCastling (s : string) : option (bool * bool * bool * bool) :=
  if String.eqb s "-" then Some (false, false, false, false)
  else
    let take := fun (c : ascii) (s : string) =>
      match s with
      | String a r => if Ascii.eqb a c then (true, r) else (false, s)
      | EmptyString => (false, s)
      end in
    let '(wk, s1) := take "K"%char s in
    let '(wq, s2) := take "Q"%char s1 in
    let '(bk, s3) := take "k"%char s2 in
    let '(bq, s4) := take "q"%char s3 in
    match s, s4 with
    | String _ _, EmptyString => Some (wk, wq, bk, bq)
    | _, _ => None
    end.

Definition parseEp (s : string) : option (option Coord) :=
  if String.eqb s "-" then Some None
  else
    match parseSquare s with
    | Some e => if (snd e =? 2)%Z || (snd e =? 5)%Z then Some (Some e) else None
    | None => None
    end.

Definition parseTurn (s : string) : option Color :=
  if String.eqb s "w" then Some White
  else if String.eqb s "b" then Some Black
  else None.

(** [new Chess(fen)]: six fields, eight ranks of eight squares. *)
Definition loadFen (fen : string) : option Pos :=
  match Js.splitAny " " fen with
  | [placement; side; castling; ep; half; full] =>
      match parseRows (Js.splitAny "/" placement), parseTurn side, parseCastling castling,
            parseEp ep, parseNumber half, parseNumber full with
      | Some rows, Some c, Some (wk, wq, bk, bq), Some e, Some h, Some n =>
          if Nat.eqb (List.length rows) 8 && Nat.ltb 0 n
          then Some (mkPos (List.concat (rev rows)) c wk wq bk bq e h n)
          else None
      | _, _, _, _, _, _ => None
      end
  | _ => None
  end.

(** Modelled from the spec: the Rules Engine capability of section 6
    (legality, the position after a move with its canonical text, lenient
    canonical and strict coordinate reading), which the component imports
    from the [chess.js] package. *)
#[global] Instance engine : RulesEngine :=
  { Position := Pos;
    load := loadFen;
    fen_of := toFen;
    move_san := moveSan;
    move_obj := moveObj }.

End ChessRules.

(** ** Vocabulary of the specification *)

(** The piece letter that follows [=] in a move text, decorations aside. *)
Fixpoint afterEquals (s : string) : option ascii :=
  match s with
  | EmptyString => None
  | String a s' =>
      if Ascii.eqb a "="
      then match s' with String b _ => Some b | EmptyString => None end
      else afterEquals s'
  end.

Definition promotedTo (s : string) : option ascii := afterEquals (clean s).

(** A promotion to rook, bishop or knight. *)
Definition isUnderPromotion (s : string) : bool :=
  match promotedTo s with
  | Some c => Js.mem c "RBN"
  | None => false
  end.

(** What the proofs need to know of the move texts the engine hands back
    for [move({ from, to, promotion })]: they are not made of decorations
    only, and with [promotion: "q"] they promote to a queen or not at all. *)
Class EngineLaws (E : RulesEngine) : Prop :=
  { played_san_visible :
      forall p f t pr mv p',
        move_obj p f t pr = Some (mv, p') -> clean (san mv) <> "";
    queen_or_nothing :
      forall p f t mv p',
        move_obj p f t (Some "q"%char) = Some (mv, p') ->
        promotedTo (san mv) = None \/ promotedTo (san mv) = Some "Q"%char }.

(** The specification's coordinate token: two squares and an optional
    promotion letter among q, r, b, n; four or five characters. *)
Definition isFileLetter (a : ascii) : bool := Js.mem a "abcdefgh".
Definition isRankDigit (a : ascii) : bool := Js.mem a "12345678".
Definition isPromotionLetter (a : ascii) : bool := Js.mem a "qrbn".

Definition isCoordinateToken (token : string) : bool :=
  match token with
  | String f1 (String r1 (String f2 (String r2 rest))) =>
      isFileLetter f1 && isRankDigit r1 && isFileLetter f2 && isRankDigit r2 &&
      match rest with
      | EmptyString => true
      | String c EmptyString => isPromotionLetter c
      | _ => false
      end
  | _ => false
  end.

(** What the normalizer throws for a token that has no legal reading: for
    a token of the coordinate pattern the error of the engine's [move],
    which no [catch] stops, and its own error for any other token. *)
Definition thrownFor (token : string) : Js.exn :=
  if isCoordinateToken token
  then invalidMove (moveJson (substring 0 2 token) (substring 2 2 token) (String.get 4 token))
  else invalidSolutionMove token.

Section Vocabulary.
Context `{E : RulesEngine}.

(** The specification's reading of one token in a position: canonical
    notation first, coordinate notation only when that fails. *)
Definition interpret (p : Position) (token : string) : option (Move * Position) :=
  match move_san p token with
  | Some r => Some r
  | None =>
      if isCoordinateToken token
      then move_obj p (substring 0 2 token) (substring 2 2 token) (String.get 4 token)
      else None
  end.

(** Two move objects of the same move: the same squares and the same
    promotion piece. *)
Definition sameMove (m1 m2 : Move) : Prop :=
  from m1 = from m2 /\ to m1 = to m2 /\ promotion m1 = promotion m2.

(** A move the engine plays from [p], asked by text or by object, with the
    position it leads to. *)
Definition Plays (p : Position) (r : Move * Position) : Prop :=
  (exists token, move_san p token = Some r) \/
  (exists a b pr, move_obj p a b pr = Some r).

(** [Normalized p tokens out p']: read in order from [p], the tokens are all
    legal, [out] lists their canonical texts and [p'] is the position
    reached. *)
Inductive Normalized : Position -> list string -> list string -> Position -> Prop :=
| Normalized_nil p : Normalized p [] [] p
| Normalized_cons p token mv p1 rest out p' :
    interpret p token = Some (mv, p1) ->
    Normalized p1 rest out p' ->
    Normalized p (token :: rest) (san mv :: out) p'.

(** A played move [mv] from [p] to [p'] is the expected move [e]: it is the
    move the engine reads [e] as, or a dropped move whose text equals [e]
    once decorations are removed. *)
Definition PlaysExpected (p : Position) (e : string) (p' : Position) : Prop :=
  (exists mv, move_san p e = Some (mv, p')) \/
  (exists a b mv, move_obj p a b (Some "q"%char) = Some (mv, p') /\ clean (san mv) = clean e).

(** [Follows es start k cur]: the FEN [cur] is reached from the FEN [start]
    by [k] moves, the [i]-th being the expected move [es[i]]. *)
Inductive Follows (es : list string) (start : string) : nat -> string -> Prop :=
| Follows_start : Follows es start 0 start
| Follows_move k cur p e p' :
    Follows es start k cur ->
    load cur = Some p ->
    nth_error es k = Some e ->
    PlaysExpected p e p' ->
    Follows es start (S k) (fen_of p').

(** A sequence of drops that plays the expected line from the FEN [cur] on,
    starting at index [k]. *)
Fixpoint PlaysLine (es : list string) (cur : string) (k : nat)
    (drops : list (Square * Square)) : Prop :=
  match drops with
  | [] => True
  | (a, b) :: rest =>
      exists p mv p' e,
        load cur = Some p /\
        move_obj p a b (Some "q"%char) = Some (mv, p') /\
        nth_error es k = Some e /\
        clean (san mv) = clean e /\
        PlaysLine es (fen_of p') (S k) rest
  end.

Fixpoint submitAll (es : list string) (s : State) (drops : list (Square * Square)) : State :=
  match drops with
  | [] => s
  | (a, b) :: rest => submitAll es (handle es s (PieceDrop a b)) rest
  end.

(** The update of a correct move: the board shows the position after the
    move, the ply index grows by one, one entry marked correct is appended
    to the log, and the puzzle is solved when the index reaches the length
    of the expected line. *)
Definition advanced (es : list string) (s q : State) (fenAfter played : string) : State :=
  let q :=
    setCoach (fun c => c ++ [mkCoachItem true (coachText (puzzle s) (ply s) played)])
      (setPly (ply s + 1) (setFen fenAfter q)) in
  if Nat.eqb (ply s + 1) (List.length es) then setSolved true q else q.

(** The session invariant that every reachable state satisfies. *)
Definition Consistent (s : State) (es : list string) : Prop :=
  ply s = List.length (coach s) /\
  Forall (fun c => ok c = true) (coach s) /\
  ply s <= List.length es /\
  (solved s = true <-> ply s = List.length es /\ 0 < List.length es).

(** An event that cannot leave the board on a position of the old line: a
    solution loaded while the board still shows the start position, or any
    other event. *)
Definition keepsBoard (s : State) (ev : Event) : Prop :=
  match ev with
  | ClickLoadSolution _ => fen s = PuzzleConfig.fen (puzzle s)
  | _ => True
  end.

Inductive ReachableOnBoard (cfg : PuzzleConfig.t) : State -> Prop :=
| ReachableOnBoard_initial : ReachableOnBoard cfg (initialState cfg)
| ReachableOnBoard_event s ev s' :
    ReachableOnBoard cfg s -> keepsBoard s ev -> dispatch s ev = Some s' ->
    ReachableOnBoard cfg s'.

End Vocabulary.

(** What the specification's round trip asks of the engine: a move, with
    its text and the position it leads to, is determined by its squares and
    promotion piece, however the engine was asked for it; and the lenient
    reader takes a coordinate token for the move between the squares it
    names. *)
Class ReaderLaws (E : RulesEngine) : Prop :=
  { one_move :
      forall p r1 r2, Plays p r1 -> Plays p r2 -> sameMove (fst r1) (fst r2) -> r1 = r2;
    coordinates_as_written :
      forall p c m' p' mc pc,
        isCoordinateToken c = true ->
        move_san p c = Some (m', p') ->
        move_obj p (substring 0 2 c) (substring 2 2 c) (String.get 4 c) = Some (mc, pc) ->
        sameMove m' mc }.

Local Open Scope string_scope.

(** ** Positions and puzzles used as examples *)

Definition startFen : string := "rnbqkbnr/pppppppp/8/8/8/8/PPPPPPPP/RNBQKBNR w KQkq - 0 1".

(** White promotes on f8; only the knight gives check. *)
Definition underPromotionPuzzle : PuzzleConfig.t :=
  PuzzleConfig.mk None None None "8/5P1k/8/8/8/8/8/K7 w - - 0 1" ["f8=N+"] None.

(** Three plies from the start position, the third in coordinate notation. *)
Definition openingPuzzle : PuzzleConfig.t :=
  PuzzleConfig.mk None None None startFen ["e4"; "e5"; "g1f3"] None.

(** The demo session before any move. *)
Definition demoSession : State := initialState DEFAULT_PUZZLE.

(** A text between double quotes, as it stands in the JSON of an error
    message. *)
Definition inQuotes (s : string) : string :=
  String Js.doubleQuote (s ++ String Js.doubleQuote "").

(** Letters and digits: the characters of a move text outside its
    promotion and check marks. *)
Definition isAlnum (a : ascii) : bool :=
  Js.in_class (Js.Range "a" "z") a || Js.in_class (Js.Range "A" "Z") a
  || Js.in_class (Js.Range "0" "9") a.

Fixpoint plain (s : string) : bool :=
  match s with
  | EmptyString => true
  | String a s' => isAlnum a && plain s'
  end.

(** ** Vocabulary for the solution text and the cells of the session *)

Fixpoint allChars (f : ascii -> bool) (s : string) : bool :=
  match s with
  | EmptyString => true
  | String a s' => f a && allChars f s'
  end.

(** What ends a token of the solution text: white space or a comma.  The
    separators of one byte, *)
Definition isSeparator (a : ascii) : bool := Js.isSpace a || Ascii.eqb a ",".

(** and any separator, by the number of bytes of the one that [s] starts
    with: 0 when it starts with none. *)
Definition sepLen (s : string) : nat :=
  match s with
  | EmptyString => 0
  | String a _ => if Ascii.eqb a "," then 1 else Js.spaceLen s
  end.

(** A byte of a character outside ASCII. *)
Definition nonAscii (a : ascii) : bool := Nat.leb 128 (nat_of_ascii a).

(** [s] starts with a white-space character of more than one byte. *)
Definition wideAt (s : string) : bool :=
  existsb (fun w => Js.startsWith w s) Js.wideSpaces.

(** No white-space character of [s] takes more than one byte. *)
Fixpoint narrow (s : string) : bool :=
  match s with
  | EmptyString => true
  | String _ s' => negb (wideAt s) && narrow s'
  end.

(** No separator stands anywhere in [s]. *)
Fixpoint separatorFree (s : string) : bool :=
  match s with
  | EmptyString => true
  | String _ s' => Nat.eqb (sepLen s) 0 && separatorFree s'
  end.

Definition isDecoration (a : ascii) : bool := Js.mem a "+#!?".

Definition blankOrComma (a : ascii) : bool := Js.mem a " ,".

(** White space, if any, is the blank. *)
Definition onlyBlanks (a : ascii) : bool := implb (Js.isSpace a) (Ascii.eqb a " ").

Definition notDot (a : ascii) : bool := negb (Ascii.eqb a ".").

(** The pieces of [s] between the characters that satisfy [f]. *)
Fixpoint splitBy (f : ascii -> bool) (s : string) : list string :=
  match s with
  | EmptyString => [""]
  | String a s' =>
      if f a then "" :: splitBy f s'
      else
        match splitBy f s' with
        | h :: t => String a h :: t
        | [] => [String a ""]
        end
  end.

(** The pieces of [s] between its separators; [skip] counts the bytes
    still to pass of the separator being read. *)
Fixpoint pieces (skip : nat) (s : string) : list string :=
  match s with
  | EmptyString => [""]
  | String a s' =>
      match skip with
      | S k => pieces k s'
      | 0 =>
          match sepLen s with
          | S k => "" :: pieces k s'
          | 0 =>
              match pieces 0 s' with
              | h :: t => String a h :: t
              | [] => [String a ""]
              end
          end
      end
  end.

(** The maximal runs of characters that are neither white space nor
    commas. *)
Definition words (s : string) : list string := filter Js.truthy (pieces 0 s).

Definition isWord (t : string) : bool := Js.truthy t && separatorFree t.

(** A word without a period, as every move text is. *)
Definition isPlainWord (t : string) : bool := isWord t && allChars notDot t.

(** Two lists of pieces with the same first piece and the same non-empty
    pieces after it. *)
Definition sameWords (l1 l2 : list string) : Prop :=
  hd "" l1 = hd "" l2 /\ filter Js.truthy (tl l1) = filter Js.truthy (tl l2).

(** The fields of the puzzle that no setter call mentions. *)
Definition labels (p : PuzzleConfig.t)
  : option string * option string * option Orientation * option (list string) :=
  (PuzzleConfig.title p, PuzzleConfig.subtitle p, PuzzleConfig.orientation p,
   PuzzleConfig.coachNotes p).

(** The events that start the line again: reset and the three loaders. *)
Definition restartsLine (ev : Event) : bool :=
  match ev with
  | ClickReset | ClickLoadFen _ | ClickLoadSolution _ | ClickLoadDemo => true
  | _ => false
  end.

(** The session once every pending timer has fired. *)
Definition fireAll (s : State) : State := Nat.iter (timers s) timerFires s.

(** Every move the engine hands back has a text. *)
Definition MovesHaveText (E : RulesEngine) : Prop :=
  (forall p token mv p', move_san p token = Some (mv, p') -> san mv <> "") /\
  (forall p a b pr mv p', move_obj p a b pr = Some (mv, p') -> san mv <> "").

(** Sessions used as examples: the demo after the mating move, the demo
    after a legal move off the line, and a component mounted on the start
    position with an empty solution. *)
Definition afterMate : State := handle ["Qg7#"] demoSession (PieceDrop "f7" "g7").
Definition afterWrong : State := handle ["Qg7#"] demoSession (PieceDrop "f7" "f6").
Definition emptyLineSession : State :=
  initialState (PuzzleConfig.mk None None None startFen [] None).

(** The demo after a click on the hint, and after Load Solution on an empty
    box followed by Load FEN on the start position. *)
Definition afterHint : State := handle ["Qg7#"] demoSession ClickHint.
Definition afterLoads : State :=
  handle [] (handle ["Qg7#"] demoSession (ClickLoadSolution "")) (ClickLoadFen startFen).

(** * Properties *)

(** ** Vocabulary for the moves of the reference engine *)

Module ChessRulesVocabulary.
Import ChessRules.

Local Open Scope Z_scope.

(** What the generator knows of a move from its two squares. *)
Definition sameShape (m1 m2 : RawMove) : Prop :=
  piece m1 = piece m2 /\ flag m1 = flag m2 /\ (promo m1 = None <-> promo m2 = None).

(** How the generator comes to a pawn move from [s]: one step, two steps
    from the pawn's rank, or a capture, of a piece or in passing. *)
Inductive PawnCase (p : Pos) (s : Coord) (m : RawMove) : Prop :=
| Push : dst m = shift s (0, forward (turn p)) -> flag m = Quiet ->
         (promo m = None <-> (snd (dst m) =? lastRank (turn p)) = false) -> PawnCase p s m
| Double : dst m = shift s (0, 2 * forward (turn p)) -> flag m = DoublePush ->
           promo m = None -> snd s = pawnRank (turn p) -> PawnCase p s m
| Takes : (dst m = shift s (-1, forward (turn p)) \/ dst m = shift s (1, forward (turn p))) ->
          onBoard (dst m) = true ->
          (flag m = Captures /\ get (board p) (dst m) <> None /\
           (promo m = None <-> (snd (dst m) =? lastRank (turn p)) = false)) \/
          (flag m = EnPassant /\ get (board p) (dst m) = None /\ promo m = None) ->
          PawnCase p s m.

(** How the generator comes to a move: from the pawn or the piece on its
    origin square, or as a castling. *)
Inductive Generated (p : Pos) (m : RawMove) : Prop :=
| ByPawn c' : get (board p) (src m) = Some (c', Pawn) -> onBoard (src m) = true ->
              In m (pawnMoves p (src m)) -> Generated p m
| ByPiece c' k : k <> Pawn -> get (board p) (src m) = Some (c', k) ->
                 In m (pieceMoves p (src m) k) -> Generated p m
| ByCastling : In m (castleMoves p) -> Generated p m.

Local Open Scope string_scope.

(** The second step of [strippedSan]: one check mark goes. *)
Definition dropCheck (r : string) : string :=
  match r with
  | String a r' => if Js.mem a "+#" then r' else r
  | EmptyString => r
  end.

(** Every token of the coordinate pattern. *)
Definition coordinateTokens : list string :=
  let fs := list_ascii_of_string "abcdefgh" in
  let rs := list_ascii_of_string "12345678" in
  flat_map (fun f1 => flat_map (fun r1 => flat_map (fun f2 => flat_map (fun r2 =>
    let four := fun rest => String f1 (String r1 (String f2 (String r2 rest))) in
    four "" :: map (fun x => four (String x "")) (list_ascii_of_string "qrbn"))
    rs) fs) rs) fs.

Definition optKind_eqb (a b : option Kind) : bool :=
  match a, b with
  | Some x, Some y => kind_eqb x y
  | None, None => true
  | _, _ => false
  end.

(** What the lenient reader makes of a coordinate token: no piece, the two
    squares of the token and its promotion letter. *)
Definition readAsCoordinates (c : string) : bool :=
  String.eqb (strippedSan c) c &&
  match parseSquare (substring 0 2 c), parseSquare (substring 2 2 c), parseSloppy c with
  | Some f, Some t, Some (None, f', t', pr) =>
      coord_eqb f f' && coord_eqb t t' &&
      optKind_eqb pr (match String.get 4 c with Some a => parseKind a | None => None end)
  | _, _, _ => false
  end.

End ChessRulesVocabulary.

(** Closes a goal that holds by evaluation. *)
Ltac computed := vm_compute; reflexivity.

(** ** Strings *)

Lemma clean_append (a b : string) : clean (a ++ b) = clean a ++ clean b.
Proof.
  unfold clean. induction a as [|c a IH]; [reflexivity|].
  cbn [append Js.remove_all]. rewrite IH.
  now destruct (Js.mem c "+#!?").
Qed.

Lemma clean_idempotent (s : string) : clean (clean s) = clean s.
Proof.
  unfold clean. induction s as [|c s IH]; [reflexivity|].
  cbn [Js.remove_all].
  destruct (Js.mem c "+#!?") eqn:M; [assumption|].
  cbn [Js.remove_all]. now rewrite M, IH.
Qed.

Lemma alnum_not_decoration (a : ascii) :
  isAlnum a = true -> Js.mem a "+#!?" = false /\ Ascii.eqb a "=" = false.
Proof.
  destruct a as [[] [] [] [] [] [] [] []]; vm_compute; intros H;
    first [discriminate H | split; reflexivity].
Qed.

Lemma plain_append (a b : string) : plain (a ++ b) = plain a && plain b.
Proof.
  induction a as [|c a IH]; simpl; [reflexivity|].
  now rewrite IH, andb_assoc.
Qed.

Lemma plain_clean (s : string) : plain s = true -> clean s = s.
Proof.
  unfold clean. induction s as [|c s IH]; [reflexivity|].
  cbn [plain Js.remove_all].
  intros H. apply andb_prop in H. destruct H as [Hc Hs].
  destruct (alnum_not_decoration c Hc) as [-> _]. now rewrite IH.
Qed.

Lemma plain_afterEquals (s rest : string) :
  plain s = true -> afterEquals (s ++ rest) = afterEquals rest.
Proof.
  induction s as [|c s IH]; [reflexivity|].
  cbn [plain append afterEquals].
  intros H. apply andb_prop in H. destruct H as [Hc Hs].
  destruct (alnum_not_decoration c Hc) as [_ ->]. now apply IH.
Qed.

Lemma promotedTo_clean (s : string) : promotedTo (clean s) = promotedTo s.
Proof. unfold promotedTo. now rewrite clean_idempotent. Qed.

Lemma append_empty (a b : string) : a ++ b = "" -> a = "" /\ b = "".
Proof. destruct a; simpl; [auto | discriminate]. Qed.

Lemma append_assoc (a b c : string) : (a ++ b) ++ c = a ++ b ++ c.
Proof. induction a as [|x a IH]; simpl; [reflexivity | now rewrite IH]. Qed.

(** ** The reference engine obeys the laws *)

Module ChessRulesFacts.
Import ChessRules.

Lemma fileChar_alnum (f : Z) : isAlnum (fileChar f) = true.
Proof.
  unfold fileChar.
  destruct (Z.to_nat f) as [|[|[|[|[|[|[|[|n]]]]]]]]; try reflexivity.
  destruct n; reflexivity.
Qed.

Lemma rankChar_alnum (r : Z) : isAlnum (rankChar r) = true.
Proof.
  unfold rankChar.
  destruct (Z.to_nat r) as [|[|[|[|[|[|[|[|n]]]]]]]]; try reflexivity.
  destruct n; reflexivity.
Qed.

Lemma kindUpper_alnum (k : Kind) : isAlnum (kindUpper k) = true.
Proof. destruct k; reflexivity. Qed.

Lemma algebraic_plain (s : Coord) : plain (algebraic s) = true.
Proof.
  unfold algebraic. simpl. now rewrite fileChar_alnum, rankChar_alnum.
Qed.

Lemma disambiguator_plain (m : RawMove) (moves : list RawMove) :
  plain (disambiguator m moves) = true.
Proof.
  unfold disambiguator.
  destruct (filter _ moves); [reflexivity|].
  destruct (_ && _); [apply algebraic_plain|].
  destruct (existsb _ _); simpl.
  - now rewrite rankChar_alnum.
  - now rewrite fileChar_alnum.
Qed.

Lemma sanHead_plain (m : RawMove) (moves : list RawMove) :
  plain (sanHead m moves) = true.
Proof.
  assert (X : forall k, plain (String (kindUpper k)
               (disambiguator m moves ++ (if isCapture m then "x" else ""))) = true).
  { intros k. simpl. rewrite kindUpper_alnum, plain_append, disambiguator_plain.
    now destruct (isCapture m). }
  unfold sanHead. destruct (piece m); try apply X.
  destruct (isCapture m); simpl; [|reflexivity].
  now rewrite fileChar_alnum.
Qed.

Lemma sanSuffix_cases (after : Pos) :
  sanSuffix after = "" \/ sanSuffix after = "+" \/ sanSuffix after = "#".
Proof.
  unfold sanSuffix. destruct (inCheck _ _); [|now left].
  destruct (legalMoves after); auto.
Qed.

(** A move text is a castling mark, or a plain stem ending in the
    destination square and then the promotion mark; the check mark follows. *)
Lemma moveToSan_shape (p : Pos) (moves : list RawMove) (m : RawMove) :
  (exists mark, (mark = "O-O" \/ mark = "O-O-O") /\
                moveToSan p moves m = mark ++ sanSuffix (makeMove p m)) \/
  (exists stem, plain stem = true /\ stem <> "" /\
                moveToSan p moves m = stem ++ sanPromotion m ++ sanSuffix (makeMove p m)).
Proof.
  assert (R : moveToSan p moves m
              = (sanHead m moves ++ algebraic (dst m) ++ sanPromotion m)
                ++ sanSuffix (makeMove p m) ->
              exists stem, plain stem = true /\ stem <> "" /\
                moveToSan p moves m = stem ++ sanPromotion m ++ sanSuffix (makeMove p m)).
  { intros ->. exists (sanHead m moves ++ algebraic (dst m)). split; [|split].
    - now rewrite plain_append, sanHead_plain, algebraic_plain.
    - intros H. apply append_empty in H. destruct H as [_ H]. discriminate H.
    - now rewrite !append_assoc. }
  unfold moveToSan, sanBody in *.
  destruct (flag m); try (right; apply R; reflexivity); left.
  - exists "O-O". split; [now left | reflexivity].
  - exists "O-O-O". split; [now right | reflexivity].
Qed.

Lemma moveToSan_visible (p : Pos) (moves : list RawMove) (m : RawMove) :
  clean (moveToSan p moves m) <> "".
Proof.
  destruct (moveToSan_shape p moves m) as [(mark & Hm & ->)|(stem & Hp & Hne & ->)];
    rewrite clean_append; intros H; apply append_empty in H; destruct H as [H _].
  - destruct Hm as [-> | ->]; discriminate H.
  - rewrite (plain_clean _ Hp) in H. contradiction.
Qed.

Lemma moveToSan_promotion (p : Pos) (moves : list RawMove) (m : RawMove) :
  promo m = None \/ promo m = Some Queen ->
  promotedTo (moveToSan p moves m) = None \/ promotedTo (moveToSan p moves m) = Some "Q"%char.
Proof.
  intros Hq. unfold promotedTo.
  destruct (moveToSan_shape p moves m) as [(mark & Hm & ->)|(stem & Hp & _ & ->)].
  - left. destruct Hm as [-> | ->];
      destruct (sanSuffix_cases (makeMove p m)) as [-> | [-> | ->]]; reflexivity.
  - rewrite clean_append, (plain_clean _ Hp), (plain_afterEquals _ _ Hp).
    unfold sanPromotion.
    destruct Hq as [-> | ->];
      destruct (sanSuffix_cases (makeMove p m)) as [-> | [-> | ->]]; auto.
Qed.

Lemma moveObj_found (p : Pos) (f t : Square) (given : option ascii) (mv : Move) (p' : Pos) :
  moveObj p f t given = Some (mv, p') ->
  exists m, promotionAgrees given m = true /\ san mv = moveToSan p (legalMoves p) m.
Proof.
  unfold moveObj.
  destruct (parseSquare f) as [a|]; [|discriminate].
  destruct (parseSquare t) as [b|]; [|discriminate].
  destruct (find _ _) as [m|] eqn:F; [|discriminate].
  simpl. intros H. injection H as <- _.
  apply find_some in F. destruct F as [_ F].
  apply andb_prop in F. destruct F as [_ F]. now exists m.
Qed.

Lemma queen_agrees (m : RawMove) :
  promotionAgrees (Some "q"%char) m = true -> promo m = None \/ promo m = Some Queen.
Proof.
  unfold promotionAgrees. destruct (promo m) as [k|]; [|now left].
  destruct k; simpl; intros H; try discriminate H. now right.
Qed.

Lemma moveSan_pretty (p : Pos) (token : string) (r : Move * Pos) :
  ChessRules.moveSan p token = Some r ->
  exists m, In m (legalMoves p) /\ r = pretty p (legalMoves p) m.
Proof.
  unfold ChessRules.moveSan.
  destruct (find _ (legalMoves p)) as [m|] eqn:F.
  - intros H. injection H as <-. exists m. split; [|reflexivity].
    now apply find_some in F.
  - clear F. destruct (parseSloppy _) as [[[[pc f] t] pr]|]; [|discriminate].
    destruct (find _ (legalMoves p)) as [m|] eqn:G; cbn [option_map]; [|discriminate].
    intros H. injection H as <-. exists m. split; [|reflexivity].
    now apply find_some in G.
Qed.

Lemma moveObj_pretty (p : Pos) (f t : Square) (given : option ascii) (r : Move * Pos) :
  ChessRules.moveObj p f t given = Some r ->
  exists m, In m (legalMoves p) /\ r = pretty p (legalMoves p) m.
Proof.
  unfold ChessRules.moveObj.
  destruct (parseSquare f) as [a|]; [|discriminate].
  destruct (parseSquare t) as [b|]; [|discriminate].
  destruct (find _ _) as [m|] eqn:F; cbn [option_map]; [|discriminate].
  intros H. injection H as <-. exists m. split; [|reflexivity].
  now apply find_some in F.
Qed.

#[global] Instance laws : EngineLaws engine.
Proof.
  split; simpl.
  - intros p f t pr mv p' H.
    destruct (moveObj_found _ _ _ _ _ _ H) as (m & _ & ->).
    apply moveToSan_visible.
  - intros p f t mv p' H.
    destruct (moveObj_found _ _ _ _ _ _ H) as (m & A & ->).
    apply moveToSan_promotion. now apply queen_agrees.
Qed.

End ChessRulesFacts.

(** ** The normalizer *)

Lemma fileClass (a : ascii) : Js.in_class (Js.Range "a" "h") a = isFileLetter a.
Proof. destruct a as [[] [] [] [] [] [] [] []]; reflexivity. Qed.

Lemma rankClass (a : ascii) : Js.in_class (Js.Range "1" "8") a = isRankDigit a.
Proof. destruct a as [[] [] [] [] [] [] [] []]; reflexivity. Qed.

(** The regular expression of the source accepts exactly the coordinate
    tokens of the specification. *)
Lemma uciPattern_spec (token : string) :
  Js.test uciPattern token = isCoordinateToken token.
Proof.
  unfold uciPattern.
  destruct token as [|f1 [|r1 [|f2 [|r2 rest]]]]; cbn [Js.test isCoordinateToken];
    rewrite ?fileClass, ?rankClass, ?andb_false_r; try reflexivity.
  change (Js.in_class (Js.OneOf "qrbn")) with isPromotionLetter.
  destruct (isFileLetter f1), (isRankDigit r1), (isFileLetter f2), (isRankDigit r2);
    cbn [andb]; try reflexivity.
  destruct rest as [|c [|d rest]]; cbn [andb orb]; try reflexivity.
  - now rewrite andb_true_r, orb_false_r.
  - now rewrite andb_false_r.
Qed.

Lemma isCoordinateToken_length (token : string) :
  isCoordinateToken token = true -> String.length token = 4 \/ String.length token = 5.
Proof.
  destruct token as [|f1 [|r1 [|f2 [|r2 [|c [|d rest]]]]]]; cbn; auto; try discriminate.
  now rewrite andb_false_r.
Qed.

(** ** The reference engine reads and writes one move one way *)

Module ReaderFacts.
Import ChessRules ChessRulesFacts ChessRulesVocabulary.

Local Open Scope Z_scope.

Lemma coord_eqb_eq (a b : Coord) : coord_eqb a b = true <-> a = b.
Proof.
  unfold coord_eqb. destruct a as [x y], b as [x' y']. cbn [fst snd].
  rewrite andb_true_iff, !Z.eqb_eq. split; [intros [-> ->]; reflexivity | intros H; now injection H].
Qed.

Lemma ray_onBoard (b : Board) (d : Coord) (n : nat) :
  forall s t, In t (ray b s d n) -> onBoard t = true.
Proof.
  induction n as [|n IH]; intros s t; cbn [ray]; [contradiction|].
  destruct (onBoard (shift s d)) eqn:O; [|contradiction].
  destruct (get b (shift s d)).
  - intros [<- | []]. exact O.
  - intros [<- | H]; [exact O | now apply IH in H].
Qed.

Lemma attacks_onBoard (b : Board) (s : Coord) (pc : Piece) (t : Coord) :
  In t (attacks b s pc) -> onBoard t = true.
Proof.
  assert (St : forall ds, In t (steps s ds) -> onBoard t = true).
  { intros ds H. unfold steps in H. now apply filter_In in H. }
  assert (Sl : forall ds, In t (slides b s ds) -> onBoard t = true).
  { intros ds H. unfold slides in H. apply in_flat_map in H.
    destruct H as (d & _ & H). now apply ray_onBoard in H. }
  unfold attacks. destruct (snd pc); eauto.
Qed.

Lemma pawnTo_in (c : Color) (s t : Coord) (fl : Flag) (m : RawMove) :
  In m (pawnTo c s t fl) ->
  src m = s /\ dst m = t /\ piece m = Pawn /\ flag m = fl /\
  (promo m = None <-> (snd t =? lastRank c) = false).
Proof.
  unfold pawnTo. destruct (snd t =? lastRank c).
  - intros H. apply in_map_iff in H. destruct H as (k & <- & _). cbn.
    repeat split; try discriminate.
  - intros [<- | []]. cbn. repeat split.
Qed.

Lemma pawnMoves_in (p : Pos) (s : Coord) (m : RawMove) :
  In m (pawnMoves p s) ->
  src m = s /\ piece m = Pawn /\ PawnCase p s m /\
  (onBoard s = true -> onBoard (dst m) = true).
Proof.
  unfold pawnMoves. intros H. apply in_app_or in H. destruct H as [H|H].
  - destruct (onBoard (shift s (0, forward (turn p))) && isEmpty (board p) (shift s (0, forward (turn p)))) eqn:C;
      [|contradiction].
    apply andb_prop in C. destruct C as [C1 _].
    apply in_app_or in H. destruct H as [H|H].
    + apply pawnTo_in in H. destruct H as (A & B & P & F & Pr).
      split; [exact A|]. split; [exact P|]. split.
      * apply Push; [exact B | exact F | now rewrite B].
      * intros _. now rewrite B.
    + destruct ((snd s =? pawnRank (turn p)) && isEmpty (board p) (shift s (0, 2 * forward (turn p)))) eqn:D;
        [|contradiction].
      destruct H as [<- | []]. cbn [src dst piece promo flag].
      apply andb_prop in D. destruct D as [D _]. apply Z.eqb_eq in D.
      split; [reflexivity|]. split; [reflexivity|]. split.
      * now apply Double.
      * intros O. unfold onBoard, shift in *. cbn [fst snd] in *.
        unfold pawnRank, forward in *. destruct (turn p); lia.
  - apply in_flat_map in H. destruct H as (t & Ht & H).
    pose proof (attacks_onBoard _ _ _ _ Ht) as Ot.
    assert (Where : t = shift s (-1, forward (turn p)) \/ t = shift s (1, forward (turn p))).
    { unfold attacks in Ht. cbn [snd fst] in Ht. unfold steps in Ht.
      apply filter_In in Ht. destruct Ht as [Ht _]. cbn [map] in Ht.
      destruct Ht as [<- | [<- | []]]; auto. }
    destruct (get (board p) t) as [[c' k']|] eqn:G.
    + destruct (color_eqb c' (turn p)); [contradiction|].
      apply pawnTo_in in H. destruct H as (A & B & P & F & Pr).
      split; [exact A|]. split; [exact P|]. split.
      * apply Takes; [now rewrite B | now rewrite B|]. left. rewrite B.
        split; [exact F|]. split; [congruence | exact Pr].
      * intros _. now rewrite B.
    + destruct (isEp p t); [|contradiction]. destruct H as [<- | []].
      cbn [src dst piece promo flag].
      split; [reflexivity|]. split; [reflexivity|]. split.
      * apply Takes; [exact Where | exact Ot |]. right. now repeat split.
      * intros _. exact Ot.
Qed.

Lemma pieceMoves_in (p : Pos) (s : Coord) (k : Kind) (m : RawMove) :
  In m (pieceMoves p s k) ->
  src m = s /\ piece m = k /\ promo m = None /\
  In (dst m) (attacks (board p) s (turn p, k)) /\
  flag m = match get (board p) (dst m) with None => Quiet | Some _ => Captures end.
Proof.
  unfold pieceMoves. intros H. apply in_flat_map in H. destruct H as (t & Ht & H).
  destruct (get (board p) t) as [[c' k']|] eqn:G.
  - destruct (color_eqb c' (turn p)); [contradiction|]. destruct H as [<- | []].
    cbn [src dst piece promo flag]. rewrite G. now repeat split.
  - destruct H as [<- | []]. cbn [src dst piece promo flag]. rewrite G. now repeat split.
Qed.

Lemma castleMoves_in (p : Pos) (m : RawMove) :
  In m (castleMoves p) ->
  src m = (4, homeRank (turn p)) /\ piece m = King /\ promo m = None /\
  (exists c', get (board p) (4, homeRank (turn p)) = Some (c', King) /\
              color_eqb (turn p) c' = true) /\
  ((dst m = (6, homeRank (turn p)) /\ flag m = CastleShort) \/
   (dst m = (2, homeRank (turn p)) /\ flag m = CastleLong)).
Proof.
  unfold castleMoves. intros H.
  assert (Home : forall x,
             (match get (board p) (4, homeRank (turn p)) with
              | Some (c', King) => color_eqb (turn p) c'
              | _ => false
              end && x = true) ->
             exists c', get (board p) (4, homeRank (turn p)) = Some (c', King) /\
                        color_eqb (turn p) c' = true).
  { intros x Hx. apply andb_prop in Hx. destruct Hx as [Hx _].
    destruct (get (board p) (4, homeRank (turn p))) as [[c' []]|]; try discriminate Hx.
    now exists c'. }
  apply in_app_or in H. destruct H as [H|H].
  - match type of H with In _ (if ?c then _ else _) => destruct c eqn:C end; [|contradiction].
    destruct H as [<- | []]. cbn [src dst piece promo flag].
    split; [reflexivity|]. split; [reflexivity|]. split; [reflexivity|]. split; [|now left].
    rewrite <- !andb_assoc in C. exact (Home _ C).
  - match type of H with In _ (if ?c then _ else _) => destruct c eqn:C end; [|contradiction].
    destruct H as [<- | []]. cbn [src dst piece promo flag].
    split; [reflexivity|]. split; [reflexivity|]. split; [reflexivity|]. split; [|now right].
    rewrite <- !andb_assoc in C. exact (Home _ C).
Qed.

Lemma allSquares_onBoard (s : Coord) : In s allSquares -> onBoard s = true.
Proof.
  assert (H : forallb onBoard allSquares = true) by reflexivity.
  rewrite forallb_forall in H. apply H.
Qed.

Lemma pseudoMoves_in (p : Pos) (m : RawMove) : In m (pseudoMoves p) -> Generated p m.
Proof.
  unfold pseudoMoves. intros H. apply in_app_or in H. destruct H as [H|H].
  - apply in_flat_map in H. destruct H as (s & Hs & H).
    destruct (get (board p) s) as [[c' k]|] eqn:G; [|contradiction].
    destruct (color_eqb c' (turn p)); [|contradiction].
    destruct k;
      try (pose proof (pieceMoves_in _ _ _ _ H) as (S & _); rewrite <- S in G, H;
           refine (ByPiece p m c' _ _ G H); discriminate).
    pose proof (pawnMoves_in _ _ _ H) as (S & _). rewrite <- S in G, H.
    apply (ByPawn p m c' G); [|exact H]. rewrite S. now apply allSquares_onBoard.
  - now apply ByCastling.
Qed.

Lemma pseudoMoves_onBoard (p : Pos) (m : RawMove) :
  In m (pseudoMoves p) -> onBoard (src m) = true /\ onBoard (dst m) = true.
Proof.
  intros H. assert (S : onBoard (src m) = true).
  { unfold pseudoMoves in H. apply in_app_or in H. destruct H as [H|H].
    - apply in_flat_map in H. destruct H as (s & Hs & H).
      destruct (get (board p) s) as [[c' k]|] eqn:G; [|contradiction].
      destruct (color_eqb c' (turn p)); [|contradiction].
      assert (E : src m = s).
      { destruct k; try (now apply pieceMoves_in in H). now apply pawnMoves_in in H. }
      rewrite E. now apply allSquares_onBoard.
    - apply castleMoves_in in H. destruct H as (-> & _). now destruct (turn p). }
  split; [exact S|].
  destruct (pseudoMoves_in _ _ H) as [c' G O H' | c' k _ G H' | H'].
  - apply pawnMoves_in in H'. now apply H'.
  - apply pieceMoves_in in H'. destruct H' as (_ & _ & _ & A & _).
    now apply attacks_onBoard in A.
  - apply castleMoves_in in H'. destruct H' as (_ & _ & _ & _ & [[-> _] | [-> _]]);
      now destruct (turn p).
Qed.

Lemma forward_unit (c : Color) : forward c = 1 \/ forward c = -1.
Proof. destruct c; auto. Qed.

Ltac halves D :=
  let Dx := fresh "Dx" in
  let Dy := fresh "Dy" in
  pose proof (f_equal fst D) as Dx; pose proof (f_equal snd D) as Dy;
  unfold shift in Dx, Dy; cbn [fst snd] in Dx, Dy.

Lemma pawn_shape (p : Pos) (s : Coord) (m1 m2 : RawMove) :
  PawnCase p s m1 -> PawnCase p s m2 -> dst m1 = dst m2 ->
  flag m1 = flag m2 /\ (promo m1 = None <-> promo m2 = None).
Proof.
  intros C1 C2 D. pose proof (forward_unit (turn p)) as F.
  destruct s as [x y]. unfold shift in *. cbn [fst snd] in *.
  destruct C1 as [D1 F1 P1 | D1 F1 P1 R1 | D1 O1 K1];
    destruct C2 as [D2 F2 P2 | D2 F2 P2 R2 | D2 O2 K2];
    rewrite ?F1, ?F2.
  - split; [reflexivity|]. rewrite P1, P2, D. tauto.
  - exfalso. rewrite D1, D2 in D. halves D; lia.
  - exfalso. rewrite D1 in D. destruct D2 as [D2|D2]; rewrite D2 in D; halves D; lia.
  - exfalso. rewrite D1, D2 in D. halves D; lia.
  - split; [reflexivity|]. rewrite P1, P2. tauto.
  - exfalso. rewrite D1 in D. destruct D2 as [D2|D2]; rewrite D2 in D; halves D; lia.
  - exfalso. rewrite D2 in D. destruct D1 as [D1|D1]; rewrite D1 in D; halves D; lia.
  - exfalso. rewrite D2 in D. destruct D1 as [D1|D1]; rewrite D1 in D; halves D; lia.
  - rewrite D in K1.
    destruct K1 as [(Fa & Ga & Pa) | (Fa & Ga & Pa)];
      destruct K2 as [(Fb & Gb & Pb) | (Fb & Gb & Pb)];
      try contradiction; rewrite Fa, Fb; (split; [reflexivity|]).
    + rewrite Pa, Pb. tauto.
    + rewrite Pa, Pb. tauto.
Qed.

Lemma king_step (b : Board) (c : Color) (s t : Coord) :
  In t (attacks b s (c, King)) -> -1 <= fst t - fst s <= 1.
Proof.
  unfold attacks. cbn [snd]. unfold steps. intros H. apply filter_In in H.
  destruct H as [H _]. cbn in H.
  repeat (destruct H as [<- | H]; [unfold shift; cbn [fst snd]; lia|]). contradiction.
Qed.

(** Two moves of one position between the same two squares differ in the
    promotion piece at most. *)
Lemma pseudoMoves_shape (p : Pos) (m1 m2 : RawMove) :
  In m1 (pseudoMoves p) -> In m2 (pseudoMoves p) ->
  src m1 = src m2 -> dst m1 = dst m2 -> sameShape m1 m2.
Proof.
  intros H1 H2 S D. unfold sameShape.
  destruct (pseudoMoves_in _ _ H1) as [c1 G1 O1 K1 | c1 k1 N1 G1 K1 | K1];
    destruct (pseudoMoves_in _ _ H2) as [c2 G2 O2 K2 | c2 k2 N2 G2 K2 | K2].
  - apply pawnMoves_in in K1, K2.
    destruct K1 as (_ & P1 & C1 & _), K2 as (_ & P2 & C2 & _). rewrite <- S in C2.
    destruct (pawn_shape _ _ _ _ C1 C2 D) as [F Pr]. rewrite P1, P2. tauto.
  - exfalso. rewrite S in G1. congruence.
  - exfalso. apply castleMoves_in in K2. destruct K2 as (S2 & _ & _ & (c' & G & _) & _).
    rewrite S, S2 in G1. congruence.
  - exfalso. rewrite S in G1. congruence.
  - apply pieceMoves_in in K1, K2.
    destruct K1 as (_ & P1 & Pr1 & _ & F1), K2 as (_ & P2 & Pr2 & _ & F2).
    rewrite S in G1. rewrite P1, P2, Pr1, Pr2, F1, F2, D.
    split; [congruence|]. split; [reflexivity | tauto].
  - exfalso. apply pieceMoves_in in K1. apply castleMoves_in in K2.
    destruct K1 as (_ & _ & _ & A & _).
    destruct K2 as (S2 & _ & _ & (c' & G & _) & Dst).
    rewrite S, S2 in G1. assert (k1 = King) by congruence. subst k1.
    apply king_step in A. rewrite S, S2, D in A. cbn [fst] in A.
    destruct Dst as [[Dst _] | [Dst _]]; rewrite Dst in A; cbn [fst] in A; lia.
  - exfalso. apply castleMoves_in in K1. destruct K1 as (S1 & _ & _ & (c' & G & _) & _).
    rewrite <- S, S1 in G2. congruence.
  - exfalso. apply pieceMoves_in in K2. apply castleMoves_in in K1.
    destruct K2 as (_ & _ & _ & A & _).
    destruct K1 as (S1 & _ & _ & (c' & G & _) & Dst).
    rewrite <- S, S1 in G2. assert (k2 = King) by congruence. subst k2.
    apply king_step in A. rewrite <- S, S1, <- D in A. cbn [fst] in A.
    destruct Dst as [[Dst _] | [Dst _]]; rewrite Dst in A; cbn [fst] in A; lia.
  - apply castleMoves_in in K1, K2.
    destruct K1 as (_ & P1 & Pr1 & _ & D1), K2 as (_ & P2 & Pr2 & _ & D2).
    rewrite P1, P2, Pr1, Pr2. split; [reflexivity|]. split; [|tauto].
    destruct D1 as [[D1 ->] | [D1 ->]]; destruct D2 as [[D2 ->] | [D2 ->]];
      try reflexivity; exfalso; rewrite D1, D2 in D; halves D; lia.
Qed.

Lemma pseudoMoves_unique (p : Pos) (m1 m2 : RawMove) :
  In m1 (pseudoMoves p) -> In m2 (pseudoMoves p) ->
  src m1 = src m2 -> dst m1 = dst m2 -> promo m1 = promo m2 -> m1 = m2.
Proof.
  intros H1 H2 S D Pr.
  destruct (pseudoMoves_shape _ _ _ H1 H2 S D) as (P & F & _).
  destruct m1, m2. cbn in *. congruence.
Qed.

Lemma legal_pseudo (p : Pos) (m : RawMove) : In m (legalMoves p) -> In m (pseudoMoves p).
Proof. unfold legalMoves. intros H. now apply filter_In in H. Qed.

Lemma fileChar_inj (a b : Z) :
  0 <= a < 8 -> 0 <= b < 8 -> fileChar a = fileChar b -> a = b.
Proof.
  intros Ha Hb.
  assert (A : a = 0 \/ a = 1 \/ a = 2 \/ a = 3 \/ a = 4 \/ a = 5 \/ a = 6 \/ a = 7) by lia.
  assert (B : b = 0 \/ b = 1 \/ b = 2 \/ b = 3 \/ b = 4 \/ b = 5 \/ b = 6 \/ b = 7) by lia.
  repeat (destruct A as [-> | A]); try subst a;
    repeat (destruct B as [-> | B]); try subst b;
    intros H; solve [reflexivity | discriminate H].
Qed.

Lemma rankChar_inj (a b : Z) :
  0 <= a < 8 -> 0 <= b < 8 -> rankChar a = rankChar b -> a = b.
Proof.
  intros Ha Hb.
  assert (A : a = 0 \/ a = 1 \/ a = 2 \/ a = 3 \/ a = 4 \/ a = 5 \/ a = 6 \/ a = 7) by lia.
  assert (B : b = 0 \/ b = 1 \/ b = 2 \/ b = 3 \/ b = 4 \/ b = 5 \/ b = 6 \/ b = 7) by lia.
  repeat (destruct A as [-> | A]); try subst a;
    repeat (destruct B as [-> | B]); try subst b;
    intros H; solve [reflexivity | discriminate H].
Qed.

Lemma onBoard_range (s : Coord) : onBoard s = true -> 0 <= fst s < 8 /\ 0 <= snd s < 8.
Proof. unfold onBoard. intros H. lia. Qed.

Lemma algebraic_inj (s t : Coord) :
  onBoard s = true -> onBoard t = true -> algebraic s = algebraic t -> s = t.
Proof.
  intros Hs Ht. apply onBoard_range in Hs, Ht. unfold algebraic. intros H.
  injection H as F R. destruct s, t. cbn [fst snd] in *.
  f_equal; [now apply fileChar_inj | now apply rankChar_inj].
Qed.

Lemma kindLower_inj (a b : Kind) : kindLower a = kindLower b -> a = b.
Proof. destruct a, b; intros H; solve [reflexivity | discriminate H]. Qed.

(** A legal move is known by its squares and its promotion piece. *)
Lemma legalMoves_unique (p : Pos) (m1 m2 : RawMove) :
  In m1 (legalMoves p) -> In m2 (legalMoves p) ->
  sameMove (fst (pretty p (legalMoves p) m1)) (fst (pretty p (legalMoves p) m2)) -> m1 = m2.
Proof.
  intros H1 H2 (A & B & C). cbn in A, B, C.
  apply legal_pseudo in H1, H2.
  destruct (pseudoMoves_onBoard _ _ H1) as [S1 D1], (pseudoMoves_onBoard _ _ H2) as [S2 D2].
  apply pseudoMoves_unique with p; auto using algebraic_inj.
  destruct (promo m1), (promo m2); cbn in C; try congruence.
  injection C as C. now apply kindLower_inj in C; subst.
Qed.

(** In every position, a move is known by its squares and its promotion
    piece, however the engine was asked for it. *)
Lemma played_once (p : Pos) (r1 r2 : Move * Pos) :
  Plays (E := engine) p r1 -> Plays (E := engine) p r2 ->
  sameMove (fst r1) (fst r2) -> r1 = r2.
Proof.
  intros P1 P2 S.
  assert (Played : forall r, Plays (E := engine) p r ->
                     exists m, In m (legalMoves p) /\ r = pretty p (legalMoves p) m).
  { intros r [[token M] | (a & b & pr & M)];
      [now apply moveSan_pretty in M | now apply moveObj_pretty in M]. }
  destruct (Played _ P1) as (m1 & I1 & ->), (Played _ P2) as (m2 & I2 & ->).
  now rewrite (legalMoves_unique p m1 m2 I1 I2 S).
Qed.

(** ** The strict reader and the coordinate tokens *)

Lemma reverse_app (a b acc : string) : Js.reverse (a ++ b) acc = Js.reverse b (Js.reverse a acc).
Proof. revert acc. induction a as [|x a IH]; intros acc; cbn; [reflexivity | apply IH]. Qed.

Lemma reverse_acc (s acc : string) : Js.reverse s acc = Js.reverse s "" ++ acc.
Proof.
  revert acc. induction s as [|x s IH]; intros acc; cbn; [reflexivity|].
  rewrite (IH (String x "")), IH, append_assoc. reflexivity.
Qed.

Lemma reverse_reverse (s a b : string) : Js.reverse (Js.reverse s a) b = Js.reverse a (s ++ b).
Proof. revert a b. induction s as [|x s IH]; intros a b; cbn; [reflexivity | now rewrite IH]. Qed.

Lemma plain_reverse (s acc : string) : plain (Js.reverse s acc) = plain s && plain acc.
Proof.
  revert acc. induction s as [|x s IH]; intros acc; cbn [Js.reverse plain]; [reflexivity|].
  rewrite IH. cbn [plain]. destruct (isAlnum x), (plain s), (plain acc); reflexivity.
Qed.

Lemma removeFirst_plain (w s : string) :
  plain w = true -> removeFirst "=" (w ++ s) = w ++ removeFirst "=" s.
Proof.
  induction w as [|x w IH]; cbn [plain append]; intros H; [reflexivity|].
  apply andb_prop in H. destruct H as [A H]. cbn [removeFirst].
  destruct (Ascii.eqb x "=") eqn:X.
  - apply Ascii.eqb_eq in X. subst x. discriminate A.
  - now rewrite IH.
Qed.

Lemma dropWhile_plain (x v : string) :
  plain v = true ->
  Js.dropWhile (fun a => Js.mem a "?!") (x ++ v)
  = Js.dropWhile (fun a => Js.mem a "?!") x ++ v.
Proof.
  intros V. induction x as [|a x IH]; cbn [append Js.dropWhile].
  - destruct v as [|b v]; [reflexivity|]. cbn [Js.dropWhile plain] in *.
    apply andb_prop in V. destruct V as [B _].
    destruct (Js.mem b "?!") eqn:M; [|reflexivity]. exfalso. cbn in M.
    rewrite orb_false_r in M. apply orb_prop in M.
    destruct M as [M|M]; apply Ascii.eqb_eq in M; subst b; discriminate B.
  - destruct (Js.mem a "?!"); [exact IH | reflexivity].
Qed.

Lemma dropCheck_plain (y v : string) :
  plain v = true -> dropCheck (y ++ v) = dropCheck y ++ v.
Proof.
  intros V. destruct y as [|a y]; cbn [append dropCheck].
  - destruct v as [|b v]; [reflexivity|]. cbn [dropCheck plain] in *.
    apply andb_prop in V. destruct V as [B _].
    destruct (Js.mem b "+#") eqn:M; [|reflexivity]. exfalso. cbn in M.
    rewrite orb_false_r in M. apply orb_prop in M.
    destruct M as [M|M]; apply Ascii.eqb_eq in M; subst b; discriminate B.
  - destruct (Js.mem a "+#"); reflexivity.
Qed.

Lemma strippedSan_dropCheck (s : string) :
  strippedSan s
  = Js.reverse (dropCheck (Js.dropWhile (fun a => Js.mem a "?!")
                             (Js.reverse (removeFirst "=" s) ""))) "".
Proof. reflexivity. Qed.

(** The decorations are taken off behind a plain stem. *)
Lemma strippedSan_stem (w s : string) :
  plain w = true -> strippedSan (w ++ s) = w ++ strippedSan s.
Proof.
  intros W. rewrite !strippedSan_dropCheck, (removeFirst_plain _ _ W), reverse_app.
  assert (V : plain (Js.reverse w "") = true) by (rewrite plain_reverse, W; reflexivity).
  rewrite (reverse_acc (removeFirst "=" s)), (dropWhile_plain _ _ V), (dropCheck_plain _ _ V).
  rewrite reverse_app, reverse_reverse. reflexivity.
Qed.

Lemma not_coordinate_head (a : ascii) (s : string) :
  isFileLetter a = false -> isCoordinateToken (String a s) = false.
Proof.
  intros H. destruct s as [|b [|c [|d s]]]; cbn [isCoordinateToken]; try reflexivity.
  now rewrite H.
Qed.

Lemma not_coordinate_second (a b : ascii) (s : string) :
  isRankDigit b = false -> isCoordinateToken (String a (String b s)) = false.
Proof.
  intros H. destruct s as [|c [|d s]]; cbn [isCoordinateToken]; try reflexivity.
  rewrite H. now destruct (isFileLetter a).
Qed.

Lemma kindUpper_no_file (k : Kind) : isFileLetter (kindUpper k) = false.
Proof. destruct k; reflexivity. Qed.

Lemma strippedSan_marks (m : RawMove) (after : Pos) :
  (String.length (strippedSan (sanPromotion m ++ sanSuffix after)) <= 1)%nat.
Proof.
  unfold sanPromotion.
  destruct (promo m) as [[]|]; destruct (sanSuffix_cases after) as [-> | [-> | ->]];
    cbn; lia.
Qed.

(** No text of the engine is a coordinate token, with or without its
    decorations. *)
Lemma san_not_coordinate (p : Pos) (moves : list RawMove) (m : RawMove) :
  isCoordinateToken (strippedSan (moveToSan p moves m)) = false.
Proof.
  assert (Castles : forall mark, mark = "O-O" \/ mark = "O-O-O" ->
            isCoordinateToken (strippedSan (mark ++ sanSuffix (makeMove p m))) = false).
  { intros mark [-> | ->]; destruct (sanSuffix_cases (makeMove p m)) as [-> | [-> | ->]];
      reflexivity. }
  assert (Pieces : forall k body,
            isCoordinateToken (strippedSan (String (kindUpper k) body)) = false).
  { intros k body.
    change (String (kindUpper k) body) with (String (kindUpper k) "" ++ body).
    rewrite strippedSan_stem by (destruct k; reflexivity).
    apply not_coordinate_head, kindUpper_no_file. }
  assert (Rest : isCoordinateToken
                   (strippedSan ((sanHead m moves ++ algebraic (dst m) ++ sanPromotion m)
                                 ++ sanSuffix (makeMove p m))) = false).
  { unfold sanHead. destruct (piece m); try apply Pieces.
    destruct (isCapture m).
    - set (tail := sanPromotion m).
      change (isCoordinateToken
                (strippedSan (String (fileChar (fst (src m))) "x"
                              ++ ((algebraic (dst m) ++ tail) ++ sanSuffix (makeMove p m))))
              = false).
      rewrite strippedSan_stem by (cbn [plain]; now rewrite fileChar_alnum).
      now apply not_coordinate_second.
    - cbn [append]. unfold algebraic. cbn [append].
      change (isCoordinateToken
                (strippedSan (algebraic (dst m)
                              ++ (sanPromotion m ++ sanSuffix (makeMove p m)))) = false).
      rewrite strippedSan_stem by apply algebraic_plain.
      pose proof (strippedSan_marks m (makeMove p m)) as Len.
      destruct (isCoordinateToken _) eqn:C; [|reflexivity].
      apply isCoordinateToken_length in C. unfold algebraic in C.
      cbn [append String.length] in C. lia. }
  unfold moveToSan, sanBody. destruct (flag m); try exact Rest.
  - apply Castles. now left.
  - apply Castles. now right.
Qed.

Lemma mem_In (a : ascii) (s : string) : Js.mem a s = true -> In a (list_ascii_of_string s).
Proof.
  induction s as [|c s IH]; cbn; [discriminate|]. intros H. apply orb_prop in H.
  destruct H as [H|H]; [left; symmetry; now apply Ascii.eqb_eq | right; now apply IH].
Qed.

Lemma coordinateTokens_complete (c : string) :
  isCoordinateToken c = true -> In c coordinateTokens.
Proof.
  destruct c as [|f1 [|r1 [|f2 [|r2 rest]]]]; cbn [isCoordinateToken]; try discriminate.
  intros H. repeat (apply andb_prop in H; destruct H as [H ?]).
  unfold coordinateTokens.
  apply in_flat_map. exists f1. split; [now apply mem_In|].
  apply in_flat_map. exists r1. split; [now apply mem_In|].
  apply in_flat_map. exists f2. split; [now apply mem_In|].
  apply in_flat_map. exists r2. split; [now apply mem_In|].
  destruct rest as [|x [|y rest]]; try discriminate.
  - now left.
  - right. apply in_map_iff. exists x. split; [reflexivity | now apply mem_In].
Qed.

Lemma coordinateTokens_read : forallb readAsCoordinates coordinateTokens = true.
Proof. vm_compute. reflexivity. Qed.

Lemma kind_eqb_eq (a b : Kind) : kind_eqb a b = true -> a = b.
Proof. destruct a, b; intros H; solve [reflexivity | discriminate H]. Qed.

Lemma parseKind_lower (k : Kind) : parseKind (kindLower k) = Some k.
Proof. destruct k; reflexivity. Qed.

(** The lenient reader takes a coordinate token for the move between its
    two squares, with its promotion piece. *)
Lemma coordinates_read_as_written (p : Pos) (c : string) (m' mc : Move) (p' pc : Pos) :
  isCoordinateToken c = true ->
  ChessRules.moveSan p c = Some (m', p') ->
  ChessRules.moveObj p (substring 0 2 c) (substring 2 2 c) (String.get 4 c) = Some (mc, pc) ->
  sameMove m' mc.
Proof.
  intros C Ms Mo.
  pose proof coordinateTokens_read as R. rewrite forallb_forall in R.
  specialize (R c (coordinateTokens_complete c C)). unfold readAsCoordinates in R.
  apply andb_prop in R. destruct R as [Str R]. apply String.eqb_eq in Str.
  unfold ChessRules.moveObj in Mo.
  destruct (parseSquare (substring 0 2 c)) as [f|]; [|discriminate].
  destruct (parseSquare (substring 2 2 c)) as [t|]; [|discriminate].
  destruct (parseSloppy c) as [[[[[k|] f'] t'] pr]|] eqn:Sl; try discriminate.
  apply andb_prop in R. destruct R as [R Pr].
  apply andb_prop in R. destruct R as [Ff Tt].
  apply coord_eqb_eq in Ff, Tt. subst f' t'.
  destruct (find _ (legalMoves p)) as [m2|] eqn:F2; cbn [option_map] in Mo; [|discriminate].
  injection Mo as <- _.
  unfold ChessRules.moveSan in Ms. rewrite Str in Ms.
  destruct (find _ (legalMoves p)) as [m0|] eqn:F0.
  { exfalso. apply find_some in F0. destruct F0 as [_ F0]. apply String.eqb_eq in F0.
    pose proof (san_not_coordinate p (legalMoves p) m0) as N. rewrite <- F0 in N. congruence. }
  clear F0. rewrite Sl in Ms.
  destruct (find _ (legalMoves p)) as [m1|] eqn:F1; cbn [option_map] in Ms; [|discriminate].
  injection Ms as <- _.
  apply find_some in F1, F2. destruct F1 as [I1 F1], F2 as [I2 F2].
  apply andb_prop in F1. destruct F1 as [F1 Pm1].
  apply andb_prop in F1. destruct F1 as [F1 D1].
  apply andb_prop in F1. destruct F1 as [_ S1].
  apply andb_prop in F2. destruct F2 as [F2 Pm2].
  apply andb_prop in F2. destruct F2 as [S2 D2].
  apply coord_eqb_eq in S1, D1, S2, D2.
  assert (S : src m1 = src m2) by congruence.
  assert (D : dst m1 = dst m2) by congruence.
  destruct (pseudoMoves_shape p m1 m2 (legal_pseudo _ _ I1) (legal_pseudo _ _ I2) S D)
    as (_ & _ & Shape).
  unfold sameMove. cbn [pretty fst from to promotion]. rewrite S, D.
  split; [reflexivity|]. split; [reflexivity|].
  unfold promotionAgrees in *.
  destruct (promo m2) as [k2|] eqn:P2.
  - destruct (promo m1) as [k1|] eqn:P1; [|exfalso; destruct Shape as [Sh _]; now discriminate Sh].
    destruct (String.get 4 c) as [a|]; [|discriminate].
    apply Ascii.eqb_eq in Pm2. subst a.
    rewrite parseKind_lower in Pr. destruct pr as [k|]; [|discriminate Pr].
    cbn in Pr, Pm1. apply kind_eqb_eq in Pr, Pm1. now subst.
  - destruct Shape as [_ Sh]. now rewrite (Sh eq_refl).
Qed.

#[global] Instance reader : ReaderLaws engine.
Proof.
  split.
  - exact played_once.
  - intros p c m' p' mc pc. apply coordinates_read_as_written.
Qed.

End ReaderFacts.

Section NormalizerFacts.
Context `{E : RulesEngine}.

Lemma sanOfToken_interpret (clone : Chess) (token : string) :
  sanOfToken clone token =
  match interpret (current clone) token with
  | Some (mv, p') => Js.Ok (san mv, mkChess _ p' ((mv, current clone) :: history clone))
  | None => Js.Throw (thrownFor token)
  end.
Proof.
  unfold sanOfToken, interpret, thrownFor, moveSan, moveObj, pushMove.
  destruct (move_san (current clone) token) as [[mv p']|]; [reflexivity|].
  rewrite uciPattern_spec. destruct (isCoordinateToken token); [|reflexivity].
  change (Js.slice 0 2 token) with (substring 0 2 token).
  change (Js.slice 2 4 token) with (substring 2 2 token).
  change (Js.charAt 4 token) with (String.get 4 token).
  now destruct (move_obj _ _ _ _) as [[mv p']|].
Qed.

Lemma Normalized_length p seq out p' :
  Normalized p seq out p' -> List.length out = List.length seq.
Proof. induction 1; simpl; congruence. Qed.

Lemma Normalized_nil_inv p out p' :
  Normalized p [] out p' -> out = [] /\ p' = p.
Proof. intros H. inversion H. now split. Qed.

Lemma Normalized_cons_inv p token rest out p' :
  Normalized p (token :: rest) out p' ->
  exists mv p1 out',
    interpret p token = Some (mv, p1) /\ out = san mv :: out' /\ Normalized p1 rest out' p'.
Proof. intros H. inversion H; subst. now exists mv, p1, out0. Qed.

Lemma mapTokens_ok (seq : list string) :
  forall (clone : Chess) (out : list string),
    mapTokens clone seq = Js.Ok out <-> exists p', Normalized (current clone) seq out p'.
Proof.
  induction seq as [|token rest IH]; intros clone out; cbn [mapTokens].
  - split.
    + intros H. injection H as <-. eexists. constructor.
    + intros [p' H]. apply Normalized_nil_inv in H. now destruct H as [-> _].
  - rewrite sanOfToken_interpret.
    destruct (interpret (current clone) token) as [[mv p1]|] eqn:I; cbn [Js.bind fst snd].
    + specialize (IH (mkChess _ p1 ((mv, current clone) :: history clone))).
      cbn [current] in IH.
      destruct (mapTokens _ rest) as [out'|e] eqn:M; cbn [Js.bind].
      * split.
        -- intros H. injection H as <-.
           destruct (proj1 (IH out') eq_refl) as [p' N].
           exists p'. econstructor; eassumption.
        -- intros [p' H]. apply Normalized_cons_inv in H.
           destruct H as (mv' & p1' & out1 & I' & -> & N).
           rewrite I in I'. injection I' as <- <-.
           assert (X : Js.Ok out' = Js.Ok out1) by (apply IH; eauto).
           now injection X as ->.
      * split; [discriminate|].
        intros [p' H]. apply Normalized_cons_inv in H.
        destruct H as (mv' & p1' & out1 & I' & -> & N).
        rewrite I in I'. injection I' as <- <-.
        assert (X : Js.Throw e = Js.Ok out1) by (apply IH; eauto).
        discriminate X.
    + split; [discriminate|].
      intros [p' H]. apply Normalized_cons_inv in H.
      destruct H as (mv' & p1' & out1 & I' & _). congruence.
Qed.

Lemma mapTokens_throw (seq : list string) :
  forall (clone : Chess) (e : Js.exn),
    mapTokens clone seq = Js.Throw e <->
    exists pre token post out p',
      seq = (pre ++ token :: post)%list /\
      Normalized (current clone) pre out p' /\
      interpret p' token = None /\
      e = thrownFor token.
Proof.
  induction seq as [|token rest IH]; intros clone e; cbn [mapTokens].
  - split; [discriminate|].
    intros (pre & t & post & out & p' & H & _). now destruct pre.
  - rewrite sanOfToken_interpret.
    destruct (interpret (current clone) token) as [[mv p1]|] eqn:I; cbn [Js.bind fst snd].
    + specialize (IH (mkChess _ p1 ((mv, current clone) :: history clone))).
      cbn [current] in IH.
      assert (Tail : forall e0,
                 (exists pre t post out p',
                     token :: rest = (pre ++ t :: post)%list /\
                     Normalized (current clone) pre out p' /\
                     interpret p' t = None /\ e0 = thrownFor t) <->
                 mapTokens (mkChess _ p1 ((mv, current clone) :: history clone)) rest
                 = Js.Throw e0).
      { intros e0. rewrite IH. split.
        - intros (pre & t & post & out & p' & Hs & N & Hi & He).
          destruct pre as [|x pre]; cbn in Hs; injection Hs as -> ->.
          + apply Normalized_nil_inv in N. destruct N as [_ ->]. congruence.
          + apply Normalized_cons_inv in N.
            destruct N as (mv' & p1' & out1 & I' & -> & N).
            rewrite I in I'. injection I' as <- <-.
            now exists pre, t, post, out1, p'.
        - intros (pre & t & post & out & p' & -> & N & Hi & He).
          exists (token :: pre), t, post, (san mv :: out), p'.
          repeat split; auto. econstructor; eassumption. }
      rewrite Tail.
      destruct (mapTokens _ rest) as [out'|e'] eqn:M; cbn [Js.bind]; [|reflexivity].
      split; discriminate.
    + split.
      * intros H. injection H as <-.
        exists [], token, rest, [], (current clone).
        repeat split; auto. constructor.
      * intros (pre & t & post & out & p' & Hs & N & Hi & He).
        destruct pre as [|x pre]; cbn in Hs; injection Hs as -> ->.
        -- apply Normalized_nil_inv in N. destruct N as [_ ->]. now subst.
        -- apply Normalized_cons_inv in N.
           destruct N as (mv' & p1' & out1 & I' & _). congruence.
Qed.

Lemma toSanSequence_ok (initialFen : string) (p : Position) (seq out : list string) :
  load initialFen = Some p ->
  (toSanSequence initialFen seq = Js.Ok out <-> exists p', Normalized p seq out p').
Proof.
  intros L. unfold toSanSequence, newChess. rewrite L. apply mapTokens_ok.
Qed.

Lemma toSanSequence_throw (initialFen : string) (p : Position) (seq : list string) (e : Js.exn) :
  load initialFen = Some p ->
  (toSanSequence initialFen seq = Js.Throw e <->
   exists pre token post out p',
     seq = (pre ++ token :: post)%list /\
     Normalized p pre out p' /\
     interpret p' token = None /\
     e = thrownFor token).
Proof.
  intros L. unfold toSanSequence, newChess. rewrite L. apply mapTokens_throw.
Qed.

Lemma toSanSequence_length (initialFen : string) (seq out : list string) :
  toSanSequence initialFen seq = Js.Ok out -> List.length out = List.length seq.
Proof.
  unfold toSanSequence, newChess.
  destruct (load initialFen) as [p|]; [|discriminate].
  intros H. apply mapTokens_ok in H. destruct H as [p' N].
  now apply Normalized_length in N.
Qed.

(** The error of the engine is not the error of the normalizer. *)
Lemma invalidMove_is_not_invalidSolutionMove (described token : string) :
  invalidMove described <> invalidSolutionMove token.
Proof. unfold invalidMove, invalidSolutionMove. cbn. discriminate. Qed.

(** X21.  From any position the normalizer reads each token as canonical
    notation first and as a coordinate token (four or five characters) only
    when that fails; it returns the canonical texts in input order, as many as there
    are tokens, or throws for the first token that has no legal reading in
    the position reached by the tokens before it: the error of the engine's
    [move] for a token of the coordinate pattern, its own error, which names
    the token, for any other. *)
Theorem toSanSequence_reads_tokens (initialFen : string) (p : Position) (seq : list string) :
  load initialFen = Some p ->
  (forall out, toSanSequence initialFen seq = Js.Ok out <-> exists p', Normalized p seq out p') /\
  (forall e, toSanSequence initialFen seq = Js.Throw e <->
             exists pre token post out p',
               seq = (pre ++ token :: post)%list /\
               Normalized p pre out p' /\
               interpret p' token = None /\
               e = thrownFor token) /\
  (forall out, toSanSequence initialFen seq = Js.Ok out -> List.length out = List.length seq) /\
  (forall token, isCoordinateToken token = false ->
                 thrownFor token = Js.Error ("Invalid solution move: " ++ token)) /\
  (forall token, isCoordinateToken token = true ->
                 thrownFor token
                 = Js.Error ("Invalid move: " ++ moveJson (substring 0 2 token)
                                                   (substring 2 2 token) (String.get 4 token))) /\
  (forall q token, isCoordinateToken token = true ->
                   (String.length token = 4 \/ String.length token = 5) /\
                   interpret q token =
                   match move_san q token with
                   | Some r => Some r
                   | None => move_obj q (substring 0 2 token) (substring 2 2 token)
                               (String.get 4 token)
                   end) /\
  (forall q token, isCoordinateToken token = false -> interpret q token = move_san q token).
Proof.
  intros L. split; [|split; [|split; [|split; [|split; [|split]]]]].
  - intros out. now apply toSanSequence_ok.
  - intros e. now apply toSanSequence_throw.
  - intros out. apply toSanSequence_length.
  - intros token H. unfold thrownFor. now rewrite H.
  - intros token H. unfold thrownFor. now rewrite H.
  - intros q token H. split; [now apply isCoordinateToken_length|].
    unfold interpret. now rewrite H.
  - intros q token H. unfold interpret. rewrite H. now destruct (move_san q token).
Qed.

Lemma sameMove_trans (m1 m2 m3 : Move) : sameMove m1 m2 -> sameMove m2 m3 -> sameMove m1 m3.
Proof. unfold sameMove. intros (A & B & C) (A' & B' & C'). repeat split; congruence. Qed.

(** A coordinate token and a canonical token for the same move have the
    same normal form. *)
Lemma same_move_same_text `{!ReaderLaws E} (initialFen : string) (p : Position)
    (c t : string) (mc mt : Move) (pc pt : Position) :
  load initialFen = Some p ->
  isCoordinateToken c = true ->
  move_obj p (substring 0 2 c) (substring 2 2 c) (String.get 4 c) = Some (mc, pc) ->
  move_san p t = Some (mt, pt) ->
  sameMove mc mt ->
  toSanSequence initialFen [c] = Js.Ok [san mt] /\
  toSanSequence initialFen [t] = Js.Ok [san mt].
Proof.
  intros L C Mo Ms Same.
  pose proof (fun r1 r2 P1 P2 S =>
                f_equal (fun r => san (fst r)) (one_move p r1 r2 P1 P2 S)) as Text.
  cbn beta in Text.
  pose proof (fun m' p' (H : move_san p c = Some (m', p')) =>
                coordinates_as_written p c m' p' mc pc C H Mo) as First.
  assert (One : forall token mv p', interpret p token = Some (mv, p') ->
                  toSanSequence initialFen [token] = Js.Ok [san mv]).
  { intros token mv p' I. apply (toSanSequence_ok _ _ _ _ L).
    exists p'. econstructor; [eassumption | constructor]. }
  split.
  - destruct (move_san p c) as [[m' p']|] eqn:Mc.
    + rewrite (One c m' p') by (unfold interpret; now rewrite Mc).
      do 2 f_equal. apply (Text (m', p') (mt, pt)).
      * left. now exists c.
      * left. now exists t.
      * cbn [fst]. apply sameMove_trans with (m2 := mc); [now apply (First m' p') | exact Same].
    + rewrite (One c mc pc) by (unfold interpret; now rewrite Mc, C).
      do 2 f_equal. apply (Text (mc, pc) (mt, pt)).
      * right. exists (substring 0 2 c), (substring 2 2 c), (String.get 4 c). exact Mo.
      * left. now exists t.
      * exact Same.
  - apply (One t mt pt). unfold interpret. now rewrite Ms.
Qed.

End NormalizerFacts.

(** ** The handlers *)

Section ComponentFacts.
Context `{E : RulesEngine}.

Lemma newChess_load (f : string) (p : Position) :
  load f = Some p -> newChess f = Some (mkChess _ p []).
Proof. unfold newChess. now intros ->. Qed.

(** A freshly built [Chess] has no move to take back, so the body of
    [if (undone)] never runs. *)
Lemma undo_unchanged (s q : State) : undo s q = q.
Proof.
  unfold undo, newChess. destruct (load (fen s)); reflexivity.
Qed.

(** What [onDrop] does with a legal move [mv] leading to [p']. *)
Lemma onDrop_legal (es : list string) (s q : State) (a b : Square)
    (p : Position) (mv : Move) (p' : Position) :
  load (fen s) = Some p ->
  move_obj p a b (Some "q"%char) = Some (mv, p') ->
  onDrop es s q a b =
  Js.Ok (if match nth_error es (ply s) with
            | Some e => Js.truthy e && String.eqb (clean e) (clean (san mv))
            | None => false
            end
         then (setArrows [] (advanced es s q (fen_of p') (san mv)), true)
         else (setTimeout (setWrong true q), false)).
Proof.
  intros L M. unfold onDrop, advanced. rewrite (newChess_load _ _ L).
  unfold moveObj, pushMove. cbn [current]. rewrite M. cbn [Js.bind fst snd].
  destruct (match nth_error es (ply s) with Some _ => _ | None => _ end); [|reflexivity].
  cbn [negb fenOf current]. now destruct (Nat.eqb _ _).
Qed.

(** With a move that is not legal [onDrop] does not come to its first
    test: [move] throws. *)
Lemma onDrop_illegal (es : list string) (s q : State) (a b : Square) (p : Position) :
  load (fen s) = Some p ->
  move_obj p a b (Some "q"%char) = None ->
  onDrop es s q a b = Js.Throw (invalidMove (moveJson a b (Some "q"%char))).
Proof.
  intros L M. unfold onDrop. rewrite (newChess_load _ _ L).
  unfold moveObj, pushMove. cbn [current]. now rewrite M.
Qed.

(** The test [expectedSan && clean(expectedSan) === clean(playedSan)], for a
    played text that is not made of decorations only. *)
Lemma correct_iff (es : list string) (k : nat) (played : string) :
  clean played <> "" ->
  (match nth_error es k with
   | Some e => Js.truthy e && String.eqb (clean e) (clean played)
   | None => false
   end = true
   <-> exists e, nth_error es k = Some e /\ clean e = clean played).
Proof.
  intros V. destruct (nth_error es k) as [e|].
  - rewrite andb_true_iff, String.eqb_eq. split.
    + intros [_ H]. now exists e.
    + intros (e' & He & H). injection He as <-. split; [|assumption].
      destruct e; [|reflexivity]. now rewrite <- H in V.
  - split; [discriminate|]. now intros (e & He & _).
Qed.

(** C2.  A legal move dropped on the board is answered, and it is accepted
    exactly when its text and the expected text at the current ply are the
    same string once the characters [+#!?] are removed from both; nothing
    else is normalized.  The same holds of a drag on the board of an
    unsolved puzzle. *)
Theorem onDrop_accepts_iff_clean_equal `{!EngineLaws E}
    (es : list string) (s q : State) (a b : Square)
    (p : Position) (mv : Move) (p' : Position) :
  load (fen s) = Some p ->
  move_obj p a b (Some "q"%char) = Some (mv, p') ->
  (exists q' answer,
      onDrop es s q a b = Js.Ok (q', answer) /\
      (answer = true
       <-> exists e, nth_error es (ply s) = Some e /\
                     Js.remove_all "+#!?" e = Js.remove_all "+#!?" (san mv))) /\
  (solved s = false ->
   exists q' answer,
     submitMove es s a b = Js.Ok (q', answer) /\
     (answer = true
      <-> exists e, nth_error es (ply s) = Some e /\
                    Js.remove_all "+#!?" e = Js.remove_all "+#!?" (san mv))).
Proof.
  intros L M.
  assert (X : forall q0,
             exists q' answer,
               onDrop es s q0 a b = Js.Ok (q', answer) /\
               (answer = true
                <-> exists e, nth_error es (ply s) = Some e /\ clean e = clean (san mv))).
  { intros q0. rewrite (onDrop_legal es s q0 a b p mv p' L M).
    pose proof (correct_iff es (ply s) (san mv) (played_san_visible _ _ _ _ _ _ M)) as CI.
    destruct (match nth_error es (ply s) with Some _ => _ | None => _ end);
      eexists; eexists; (split; [reflexivity|]).
    - split; [intros _; now apply CI | reflexivity].
    - split; [discriminate | intros H; apply CI in H; discriminate H]. }
  split; [exact (X q)|].
  intros Hs. unfold submitMove. rewrite Hs. exact (X s).
Qed.

(** X22.  A legal drop that is not the expected move leaves position, ply
    and log alone, raises [wrong], schedules its clearing, and is answered
    [false].  A drag on the board of an unsolved puzzle is such a drop. *)
Theorem wrong_move_is_rejected (es : list string) (s q : State) (a b : Square)
    (p : Position) (mv : Move) (p' : Position) :
  load (fen s) = Some p ->
  move_obj p a b (Some "q"%char) = Some (mv, p') ->
  (forall e, nth_error es (ply s) = Some e -> clean e <> clean (san mv)) ->
  exists r,
    onDrop es s q a b = Js.Ok (r, false) /\
    fen r = fen q /\ ply r = ply q /\ coach r = coach q /\
    puzzle r = puzzle q /\ solved r = solved q /\ arrows r = arrows q /\
    wrong r = true /\ timers r = S (timers q) /\
    wrong (timerFires r) = false /\
    (solved s = false -> submitMove es s a b = onDrop es s s a b).
Proof.
  intros L M Hne. rewrite (onDrop_legal es s q a b p mv p' L M).
  assert (X : match nth_error es (ply s) with
              | Some e => Js.truthy e && String.eqb (clean e) (clean (san mv))
              | None => false
              end = false).
  { destruct (nth_error es (ply s)) as [e|] eqn:Ne; [|reflexivity].
    specialize (Hne e eq_refl). apply String.eqb_neq in Hne. now rewrite Hne, andb_false_r. }
  rewrite X. eexists. split; [reflexivity|]. cbn. repeat split.
  intros Hs. unfold submitMove. now rewrite Hs.
Qed.

(** *** The update of a correct move *)

Lemma advanced_cells (es : list string) (s q : State) (f played : string) :
  let r := advanced es s q f played in
  puzzle r = puzzle q /\ fen r = f /\ ply r = S (ply s) /\
  coach r = (coach q ++ [mkCoachItem true (coachText (puzzle s) (ply s) played)])%list /\
  solved r = (Nat.eqb (S (ply s)) (List.length es) || solved q) /\
  wrong r = wrong q /\ timers r = timers q /\ arrows r = arrows q.
Proof.
  unfold advanced. rewrite Nat.add_1_r.
  destruct (Nat.eqb (S (ply s)) (List.length es)); cbn; repeat split.
Qed.

Lemma playExpectedMove_finished (es : list string) (s q : State) :
  List.length es <= ply s -> playExpectedMove es s q = q.
Proof.
  intros H. unfold playExpectedMove. apply Nat.leb_le in H. now rewrite H.
Qed.

Lemma playExpectedMove_plays (es : list string) (s q : State)
    (p : Position) (e : string) (mv : Move) (p' : Position) :
  load (fen s) = Some p ->
  nth_error es (ply s) = Some e ->
  move_san p e = Some (mv, p') ->
  playExpectedMove es s q = advanced es s q (fen_of p') (san mv).
Proof.
  intros L Ne M. unfold playExpectedMove, advanced.
  assert (Lt : ply s < List.length es) by (apply nth_error_Some; congruence).
  apply Nat.leb_gt in Lt. rewrite Lt, (newChess_load _ _ L), Ne.
  unfold moveSan, pushMove. cbn [current]. now rewrite M.
Qed.

(** What [move] throws for an expected text that is not legal on the board
    is caught: nothing is queued. *)
Lemma playExpectedMove_caught (es : list string) (s q : State) (p : Position) (e : string) :
  load (fen s) = Some p ->
  nth_error es (ply s) = Some e ->
  move_san p e = None ->
  playExpectedMove es s q = q.
Proof.
  intros L Ne M. unfold playExpectedMove. rewrite (newChess_load _ _ L), Ne.
  unfold moveSan, pushMove. cbn [current]. rewrite M.
  now destruct (Nat.leb _ _).
Qed.

Lemma playExpectedMove_cases (es : list string) (s q : State) :
  playExpectedMove es s q = q \/
  exists p e mv p',
    load (fen s) = Some p /\ nth_error es (ply s) = Some e /\
    move_san p e = Some (mv, p') /\
    playExpectedMove es s q = advanced es s q (fen_of p') (san mv).
Proof.
  destruct (load (fen s)) as [p|] eqn:L.
  - destruct (nth_error es (ply s)) as [e|] eqn:Ne.
    + destruct (move_san p e) as [[mv p']|] eqn:M.
      * right. exists p, e, mv, p'. repeat split; auto.
        now apply playExpectedMove_plays with (p := p) (e := e).
      * left. now apply playExpectedMove_caught with (p := p) (e := e).
    + left. apply playExpectedMove_finished. now apply nth_error_None.
  - left. unfold playExpectedMove, newChess. rewrite L.
    now destruct (Nat.leb _ _).
Qed.

Lemma onDrop_cases (es : list string) (s q : State) (a b : Square) :
  (exists e, onDrop es s q a b = Js.Throw e) \/
  (exists p mv p',
      load (fen s) = Some p /\ move_obj p a b (Some "q"%char) = Some (mv, p') /\
      onDrop es s q a b = Js.Ok (setTimeout (setWrong true q), false)) \/
  exists p e mv p',
    load (fen s) = Some p /\ nth_error es (ply s) = Some e /\
    move_obj p a b (Some "q"%char) = Some (mv, p') /\
    clean (san mv) = clean e /\
    onDrop es s q a b = Js.Ok (setArrows [] (advanced es s q (fen_of p') (san mv)), true).
Proof.
  destruct (load (fen s)) as [p|] eqn:L.
  - destruct (move_obj p a b (Some "q"%char)) as [[mv p']|] eqn:M.
    + rewrite (onDrop_legal es s q a b p mv p' L M).
      destruct (nth_error es (ply s)) as [e|] eqn:Ne;
        [|right; left; now exists p, mv, p'].
      destruct (Js.truthy e && String.eqb (clean e) (clean (san mv))) eqn:C;
        [|right; left; now exists p, mv, p'].
      right; right. apply andb_prop in C. destruct C as [_ C].
      apply String.eqb_eq in C. now exists p, e, mv, p'.
    + left. eexists. now apply onDrop_illegal with (p := p).
  - left. unfold onDrop, newChess. rewrite L. now eexists.
Qed.

(** The cells after a drag on the board. *)
Lemma drop_cases (es : list string) (s : State) (a b : Square) :
  cellsAfter s (submitMove es s a b) = s \/
  cellsAfter s (submitMove es s a b) = setTimeout (setWrong true s) \/
  exists p e mv p',
    load (fen s) = Some p /\ nth_error es (ply s) = Some e /\
    move_obj p a b (Some "q"%char) = Some (mv, p') /\
    clean (san mv) = clean e /\
    cellsAfter s (submitMove es s a b) = setArrows [] (advanced es s s (fen_of p') (san mv)).
Proof.
  unfold submitMove. destruct (solved s); [now left|].
  destruct (onDrop_cases es s s a b)
    as [[e ->] | [(p & mv & p' & _ & _ & ->) | (p & e & mv & p' & L & Ne & M & C & ->)]];
    cbn [cellsAfter]; [now left | right; now left |].
  right; right. now exists p, e, mv, p'.
Qed.

Lemma showHint_cases (es : list string) (s q : State) :
  showHint es s q = q \/ exists ar, showHint es s q = setArrows ar q.
Proof.
  unfold showHint.
  destruct (newChess (fen s)) as [ch|]; [|now left].
  destruct (nth_error es (ply s)) as [e|]; [|now left].
  destruct (moveSan ch e) as [[mv ch']|]; [|now left].
  right. now eexists.
Qed.

(** *** The session invariant *)

Lemma Consistent_cells (s s' : State) (es : list string) :
  ply s' = ply s -> coach s' = coach s -> solved s' = solved s ->
  Consistent s es -> Consistent s' es.
Proof. unfold Consistent. now intros -> -> ->. Qed.

Lemma Consistent_fresh (s : State) (es : list string) :
  ply s = 0 -> solved s = false -> coach s = [] -> Consistent s es.
Proof.
  unfold Consistent. intros -> -> ->. cbn [List.length].
  split; [reflexivity|]. split; [constructor|]. split; [lia|].
  split; [discriminate | lia].
Qed.

Lemma Consistent_advanced (es : list string) (s q : State) (e f played : string) :
  ply q = ply s -> coach q = coach s -> solved q = solved s ->
  nth_error es (ply s) = Some e ->
  Consistent s es -> Consistent (advanced es s q f played) es.
Proof.
  intros Hp Hc Hs Ne (C1 & C2 & C3 & C4).
  assert (Lt : ply s < List.length es) by (apply nth_error_Some; congruence).
  destruct (advanced_cells es s q f played) as (_ & _ & Ap & Ac & Av & _).
  cbn zeta in *. unfold Consistent. rewrite Ap, Ac, Av, Hc, Hs.
  rewrite length_app. cbn [List.length].
  split; [lia|]. split; [|split; [lia|split]].
  - apply Forall_app. split; [assumption|]. now repeat constructor.
  - intros Hv. apply orb_prop in Hv. destruct Hv as [Hv|Hv].
    + apply Nat.eqb_eq in Hv. lia.
    + apply C4 in Hv. lia.
  - intros [Hv _]. apply Nat.eqb_eq in Hv. now rewrite Hv.
Qed.

(** An event keeps the puzzle and the invariant, or starts a fresh line. *)
Lemma handle_consistent (es : list string) (s : State) (ev : Event) :
  Consistent s es ->
  (puzzle (handle es s ev) = puzzle s /\ Consistent (handle es s ev) es) \/
  (ply (handle es s ev) = 0 /\ solved (handle es s ev) = false /\ coach (handle es s ev) = []).
Proof.
  intros C. destruct ev as [a b| | | | |text|moves| |]; cbn [handle].
  - left.
    destruct (drop_cases es s a b) as [-> | [-> | (p & e & mv & p' & _ & Ne & _ & _ & ->)]].
    + now split.
    + split; [reflexivity|]. now apply (Consistent_cells s).
    + split; [apply (advanced_cells es s s)|].
      apply (Consistent_cells (advanced es s s (fen_of p') (san mv))); try reflexivity.
      now apply Consistent_advanced with (e := e).
  - left. destruct (showHint_cases es s s) as [-> | [ar ->]]; [now split|].
    split; [reflexivity|]. now apply (Consistent_cells s).
  - left. now rewrite undo_unchanged.
  - right. now cbn.
  - left. destruct (solved s); [now split|].
    destruct (playExpectedMove_cases es s s) as [-> | (p & e & mv & p' & _ & Ne & _ & ->)];
      [now split|].
    split; [apply (advanced_cells es s s)|].
    now apply Consistent_advanced with (e := e).
  - destruct (Js.truthy text); [|now left].
    unfold onLoad. destruct (newChess text); [right | left]; now cbn.
  - unfold onLoadSolution. destruct (toSanSequence _ _); [right | left]; now cbn.
  - unfold loadDemo, onLoad, onLoadSolution. cbn [fst].
    destruct (newChess (PuzzleConfig.fen DEFAULT_PUZZLE));
      destruct (toSanSequence _ _); cbn [fst]; try (right; now cbn).
    now left.
  - left. unfold timerFires. destruct (timers s); [now split|].
    split; [reflexivity|]. now apply (Consistent_cells s).
Qed.

Lemma dispatch_inv (s : State) (ev : Event) (s' : State) :
  dispatch s ev = Some s' ->
  exists es p, expectedSequence s = Js.Ok es /\ load (fen s) = Some p /\ s' = handle es s ev.
Proof.
  unfold dispatch, rendered, newChess.
  destruct (expectedSequence s) as [es|]; [|discriminate].
  destruct (load (fen s)) as [p|]; [|discriminate].
  intros H. injection H as <-. now exists es, p.
Qed.

Lemma reachable_consistent (cfg : PuzzleConfig.t) (s : State) :
  Reachable cfg s -> forall es, expectedSequence s = Js.Ok es -> Consistent s es.
Proof.
  induction 1 as [|s ev s' R IH D]; intros es He.
  - now apply Consistent_fresh.
  - destruct (dispatch_inv _ _ _ D) as (es0 & p & He0 & _ & ->).
    destruct (handle_consistent es0 s ev (IH es0 He0)) as [[Hp C] | (Hp & Hs & Hc)].
    + unfold expectedSequence in He, He0. rewrite Hp, He0 in He.
      now injection He as <-.
    + now apply Consistent_fresh.
Qed.

(** *** Promotions *)

Lemma underPromotion_not_queen (e played : string) :
  isUnderPromotion e = true ->
  clean played = clean e ->
  promotedTo played = None \/ promotedTo played = Some "Q"%char ->
  False.
Proof.
  unfold isUnderPromotion, promotedTo. intros U C Q. rewrite C in Q.
  destruct Q as [Q|Q]; rewrite Q in U; discriminate U.
Qed.

(** Where an under-promotion is expected no drop is accepted. *)
Lemma underPromotion_no_drop `{!EngineLaws E} (es : list string) (s : State) (e : string) :
  nth_error es (ply s) = Some e ->
  isUnderPromotion e = true ->
  forall q a b,
    (forall q', onDrop es s q a b <> Js.Ok (q', true)) /\
    (forall r, onDrop es s q a b = Js.Ok r ->
               snd r = false /\ fen (fst r) = fen q /\ ply (fst r) = ply q /\
               coach (fst r) = coach q /\ solved (fst r) = solved q).
Proof.
  intros Ne U q a b.
  destruct (onDrop_cases es s q a b)
    as [[x ->] | [(p & mv & p' & _ & _ & ->) | (p & e' & mv & p' & L & Ne' & M & C & _)]].
  - split; [discriminate | discriminate].
  - split; [discriminate|]. intros r H. injection H as <-. now cbn.
  - exfalso. rewrite Ne in Ne'. injection Ne' as <-.
    exact (underPromotion_not_queen e (san mv) U C (queen_or_nothing _ _ _ _ _ M)).
Qed.

(** C8 as the code has it.  The coach button does nothing once the puzzle
    is solved, nor when the expected text is no legal move on the board.
    Otherwise it plays the expected move with the update [advanced], the very
    update an accepted drop makes for the move it plays (a drop also clears
    the hint arrows).  When the drop of two squares plays the move the coach
    plays, the same by squares and promotion piece for an engine that knows
    a move by these, and the expected text is the text of that move up to
    decorations, the drop is accepted and leaves the same position, ply
    index, log and solved flag.
    When the expected move is an under-promotion the coach move advances and
    no drop is accepted. *)
Theorem playExpectedMove_as_submitMove `{!EngineLaws E}
    (es : list string) (s : State) :
  (forall cfg,
      Reachable cfg s -> expectedSequence s = Js.Ok es -> solved s = true ->
      playExpectedMove es s s = s /\ handle es s ClickPlayCoach = s) /\
  (forall p e,
      load (fen s) = Some p ->
      nth_error es (ply s) = Some e ->
      move_san p e = None ->
      playExpectedMove es s s = s) /\
  (forall p e mv p',
      load (fen s) = Some p ->
      nth_error es (ply s) = Some e ->
      move_san p e = Some (mv, p') ->
      playExpectedMove es s s = advanced es s s (fen_of p') (san mv)) /\
  (forall a b q',
      submitMove es s a b = Js.Ok (q', true) ->
      exists p mv p',
        load (fen s) = Some p /\
        move_obj p a b (Some "q"%char) = Some (mv, p') /\
        q' = setArrows [] (advanced es s s (fen_of p') (san mv))) /\
  (forall a b p e mv p' dropped q',
      ReaderLaws E ->
      solved s = false ->
      load (fen s) = Some p ->
      nth_error es (ply s) = Some e ->
      move_san p e = Some (mv, p') ->
      move_obj p a b (Some "q"%char) = Some (dropped, q') ->
      sameMove mv dropped ->
      clean (san mv) = clean e ->
      exists h,
        submitMove es s a b = Js.Ok (h, true) /\
        let c := playExpectedMove es s s in
        fen c = fen h /\ ply c = ply h /\
        coach c = coach h /\ solved c = solved h /\
        fen c = fen_of p' /\ ply c = S (ply s) /\
        coach c = (coach s ++ [mkCoachItem true (coachText (puzzle s) (ply s) (san mv))])%list /\
        (solved c = true <-> S (ply s) = List.length es)) /\
  (forall p e mv p',
      solved s = false ->
      load (fen s) = Some p ->
      nth_error es (ply s) = Some e ->
      isUnderPromotion e = true ->
      move_san p e = Some (mv, p') ->
      ply (handle es s ClickPlayCoach) = S (ply s) /\
      forall a b q', submitMove es s a b <> Js.Ok (q', true)).
Proof.
  split; [|split; [|split; [|split; [|split]]]].
  - intros cfg R He Hs. split; [|cbn [handle]; now rewrite Hs].
    apply playExpectedMove_finished.
    destruct (reachable_consistent cfg s R es He) as (_ & _ & _ & H).
    apply H in Hs. lia.
  - intros p e. apply playExpectedMove_caught.
  - intros p e mv p'. apply playExpectedMove_plays.
  - intros a b q'. unfold submitMove. destruct (solved s); [discriminate|].
    destruct (onDrop_cases es s s a b)
      as [[x ->] | [(p & mv & p' & _ & _ & ->) | (p & e & mv & p' & L & _ & M & _ & ->)]];
      try discriminate.
    intros H. injection H as <-. now exists p, mv, p'.
  - intros a b p e mv p' dropped q' Laws Hs L Ne Ms Mo Same C.
    assert (One : (mv, p') = (dropped, q')).
    { apply (one_move p); [left; now exists e | right; now exists a, b, (Some "q"%char) |].
      exact Same. }
    rewrite <- One in Mo. clear One Same dropped q'.
    unfold submitMove. rewrite Hs.
    rewrite (playExpectedMove_plays es s s p e mv p' L Ne Ms).
    rewrite (onDrop_legal es s s a b p mv p' L Mo).
    assert (X : match nth_error es (ply s) with
                | Some e => Js.truthy e && String.eqb (clean e) (clean (san mv))
                | None => false
                end = true).
    { apply correct_iff; [exact (played_san_visible _ _ _ _ _ _ Mo)|]. now exists e. }
    rewrite X. eexists. split; [reflexivity|].
    destruct (advanced_cells es s s (fen_of p') (san mv)) as (_ & Hf & Hp & Hc & Hv & _).
    cbn zeta in *. cbn [fen ply coach solved setArrows].
    repeat split; auto.
    + rewrite Hv, Hs, orb_false_r. apply Nat.eqb_eq.
    + rewrite Hv, Hs, orb_false_r. apply Nat.eqb_eq.
  - intros p e mv p' Hs L Ne U M. split.
    + cbn [handle]. rewrite Hs.
      rewrite (playExpectedMove_plays es s s p e mv p' L Ne M).
      apply (advanced_cells es s s).
    + intros a b q'. unfold submitMove. rewrite Hs.
      apply (underPromotion_no_drop es s e Ne U s a b).
Qed.

(** *** The board follows the expected line *)

Lemma Follows_advanced (es : list string) (s q : State) (start : string)
    (p : Position) (e : string) (p' : Position) (played : string) :
  Follows es start (ply s) (fen s) ->
  load (fen s) = Some p ->
  nth_error es (ply s) = Some e ->
  PlaysExpected p e p' ->
  Follows es start (ply (advanced es s q (fen_of p') played))
    (fen (advanced es s q (fen_of p') played)).
Proof.
  intros F L Ne P.
  destruct (advanced_cells es s q (fen_of p') played) as (_ & -> & -> & _).
  now apply Follows_move with (cur := fen s) (p := p) (e := e).
Qed.

(** An event keeps the puzzle and the board on its line, or puts the board
    on the start position of the puzzle with the ply index at zero. *)
Lemma handle_follows (es : list string) (s : State) (ev : Event) :
  load (PuzzleConfig.fen DEFAULT_PUZZLE) <> None ->
  keepsBoard s ev ->
  Follows es (PuzzleConfig.fen (puzzle s)) (ply s) (fen s) ->
  (puzzle (handle es s ev) = puzzle s /\
   Follows es (PuzzleConfig.fen (puzzle s)) (ply (handle es s ev)) (fen (handle es s ev))) \/
  (ply (handle es s ev) = 0 /\
   fen (handle es s ev) = PuzzleConfig.fen (puzzle (handle es s ev))).
Proof.
  intros Demo K F. destruct ev as [a b| | | | |text|moves| |]; cbn [handle].
  - left.
    destruct (drop_cases es s a b) as [-> | [-> | (p & e & mv & p' & L & Ne & M & C & ->)]].
    + now split.
    + now split.
    + split; [apply (advanced_cells es s s)|].
      change (Follows es (PuzzleConfig.fen (puzzle s))
                (ply (advanced es s s (fen_of p') (san mv)))
                (fen (advanced es s s (fen_of p') (san mv)))).
      apply Follows_advanced with (p := p) (e := e); auto.
      right. now exists a, b, mv.
  - left. destruct (showHint_cases es s s) as [-> | [ar ->]]; now split.
  - left. now rewrite undo_unchanged.
  - right. now cbn.
  - left. destruct (solved s); [now split|].
    destruct (playExpectedMove_cases es s s) as [-> | (p & e & mv & p' & L & Ne & M & ->)];
      [now split|].
    split; [apply (advanced_cells es s s)|].
    apply Follows_advanced with (p := p) (e := e); auto.
    left. now exists mv.
  - destruct (Js.truthy text); [|now left].
    unfold onLoad. destruct (newChess text); [right | left]; now cbn.
  - cbn in K. unfold onLoadSolution. destruct (toSanSequence _ _); [|now left].
    right. cbn. split; [reflexivity | exact K].
  - right. unfold loadDemo, onLoad, onLoadSolution, newChess. cbn [fst].
    destruct (load (PuzzleConfig.fen DEFAULT_PUZZLE)); [|contradiction].
    destruct (toSanSequence _ _); now cbn.
  - left. unfold timerFires. destruct (timers s); now split.
Qed.

Lemma reachable_follows (cfg : PuzzleConfig.t) (s : State) :
  load (PuzzleConfig.fen DEFAULT_PUZZLE) <> None ->
  ReachableOnBoard cfg s ->
  forall es, expectedSequence s = Js.Ok es ->
             Follows es (PuzzleConfig.fen (puzzle s)) (ply s) (fen s).
Proof.
  intros Demo. induction 1 as [|s ev s' R IH K D]; intros es He.
  - constructor.
  - destruct (dispatch_inv _ _ _ D) as (es0 & p & He0 & _ & ->).
    destruct (handle_follows es0 s ev Demo K (IH es0 He0)) as [[Hp F] | [Hp Hf]].
    + unfold expectedSequence in He, He0. rewrite Hp, He0 in He.
      injection He as <-. now rewrite Hp.
    + rewrite Hp, Hf. constructor.
Qed.

(** C9 as the code has it.  In every reachable state the ply index is the
    length of the move log, whose entries are all marked correct, it does not
    exceed the length of the expected line, and [solved] holds exactly when
    the index has reached the end of a non-empty line.  When a solution list
    is only loaded while the board shows the start position, the board is
    the start position advanced by the first [ply] expected moves. *)
Theorem session_invariant (cfg : PuzzleConfig.t) (s : State) (es : list string) :
  expectedSequence s = Js.Ok es ->
  (Reachable cfg s ->
   ply s = List.length (coach s) /\
   Forall (fun c => ok c = true) (coach s) /\
   ply s <= List.length es /\
   (solved s = true <-> ply s = List.length es /\ 0 < List.length es)) /\
  (load (PuzzleConfig.fen DEFAULT_PUZZLE) <> None ->
   ReachableOnBoard cfg s ->
   Follows es (PuzzleConfig.fen (puzzle s)) (ply s) (fen s)).
Proof.
  intros He. split.
  - intros R. exact (reachable_consistent cfg s R es He).
  - intros Demo R. exact (reachable_follows cfg s Demo R es He).
Qed.

(** *** Playing the whole line *)

Lemma PlaysLine_firstn (es : list string) (drops : list (Square * Square)) :
  forall cur k j, PlaysLine es cur k drops -> PlaysLine es cur k (firstn j drops).
Proof.
  induction drops as [|[a b] rest IH]; intros cur k j H.
  - now destruct j.
  - destruct j as [|j]; [exact I|].
    cbn [firstn PlaysLine] in *.
    destruct H as (p & mv & p' & e & L & M & Ne & C & H).
    exists p, mv, p', e. repeat split; auto.
Qed.

Lemma submitMove_expected `{!EngineLaws E} (es : list string) (s : State) (a b : Square)
    (p : Position) (mv : Move) (p' : Position) (e : string) :
  solved s = false ->
  load (fen s) = Some p ->
  move_obj p a b (Some "q"%char) = Some (mv, p') ->
  nth_error es (ply s) = Some e ->
  clean (san mv) = clean e ->
  submitMove es s a b = Js.Ok (setArrows [] (advanced es s s (fen_of p') (san mv)), true).
Proof.
  intros Hs L M Ne C. unfold submitMove. rewrite Hs.
  rewrite (onDrop_legal es s s a b p mv p' L M).
  assert (X : match nth_error es (ply s) with
              | Some e => Js.truthy e && String.eqb (clean e) (clean (san mv))
              | None => false
              end = true).
  { apply correct_iff; [exact (played_san_visible _ _ _ _ _ _ M)|]. now exists e. }
  now rewrite X.
Qed.

Lemma submitAll_line `{!EngineLaws E} (es : list string) (drops : list (Square * Square)) :
  forall s,
    (drops <> [] -> solved s = false) ->
    PlaysLine es (fen s) (ply s) drops ->
    ply (submitAll es s drops) = ply s + List.length drops /\
    (drops <> [] ->
     (solved (submitAll es s drops) = true <-> ply s + List.length drops = List.length es)).
Proof.
  induction drops as [|[a b] rest IH]; intros s Hs H.
  - cbn. split; [lia | congruence].
  - cbn [PlaysLine] in H. destruct H as (p & mv & p' & e & L & M & Ne & C & H).
    assert (Hs' : solved s = false) by (apply Hs; discriminate).
    cbn [submitAll handle]. rewrite (submitMove_expected es s a b p mv p' e Hs' L M Ne C).
    cbn [cellsAfter].
    destruct (advanced_cells es s s (fen_of p') (san mv)) as (_ & Af & Ap & _ & Av & _).
    cbn zeta in *.
    set (s1 := setArrows [] (advanced es s s (fen_of p') (san mv))) in *.
    assert (F1 : fen s1 = fen_of p') by exact Af.
    assert (P1 : ply s1 = S (ply s)) by exact Ap.
    assert (V1 : solved s1 = Nat.eqb (S (ply s)) (List.length es)).
    { change (solved s1) with (solved (advanced es s s (fen_of p') (san mv))).
      now rewrite Av, Hs', orb_false_r. }
    rewrite <- F1, <- P1 in H.
    destruct (IH s1) as [IHp IHs]; [|exact H|].
    + intros Hr. rewrite V1. apply Nat.eqb_neq.
      destruct rest as [|[a' b'] rest']; [congruence|].
      cbn [PlaysLine] in H. destruct H as (_ & _ & _ & e' & _ & _ & Ne' & _).
      assert (ply s1 < List.length es) by (apply nth_error_Some; congruence).
      lia.
    + cbn [List.length]. split; [lia|]. intros _.
      destruct rest as [|d rest'].
      * cbn [submitAll List.length]. rewrite V1, Nat.eqb_eq. lia.
      * rewrite IHs by discriminate. lia.
Qed.

(** C5.  Dropping the moves of the expected line in order takes the ply
    index from 0 to the length of the line, and [solved] is raised by the
    last move and by no earlier one.  Once solved, a drop changes nothing,
    raises no flag, throws nothing and is answered [false], and only a reset
    or a load lowers [solved] again. *)
Theorem solving_the_line `{!EngineLaws E}
    (es : list string) (s : State) (drops : list (Square * Square)) :
  ply s = 0 ->
  solved s = false ->
  List.length drops = List.length es ->
  PlaysLine es (fen s) 0 drops ->
  (forall j, j <= List.length es ->
             ply (submitAll es s (firstn j drops)) = j /\
             (solved (submitAll es s (firstn j drops)) = true
              <-> j = List.length es /\ 0 < j)) /\
  (forall t a b, solved t = true ->
                 submitMove es t a b = Js.Ok (t, false) /\ handle es t (PieceDrop a b) = t) /\
  (forall t ev, solved t = true -> solved (handle es t ev) = false ->
                ev = ClickReset \/ ev = ClickLoadDemo \/
                (exists text, ev = ClickLoadFen text) \/
                (exists moves, ev = ClickLoadSolution moves)) /\
  (forall t, solved (reset t t) = false).
Proof.
  intros P0 S0 Len Line. split; [|split; [|split]].
  - intros j Hj.
    assert (Lj : List.length (firstn j drops) = j) by (rewrite length_firstn; lia).
    destruct (submitAll_line es (firstn j drops) s) as [Hp Hv].
    + now intros _.
    + rewrite P0. now apply PlaysLine_firstn.
    + rewrite Hp, Lj, P0. split; [reflexivity|].
      destruct j as [|j].
      * cbn [firstn submitAll]. rewrite S0. split; [discriminate | lia].
      * rewrite Hv, Lj, P0; [cbn; lia|].
        intros Hn. rewrite Hn in Lj. discriminate Lj.
  - intros t a b Ht. cbn [handle]. unfold submitMove. now rewrite Ht.
  - intros t ev Ht. destruct ev as [a b| | | | |text|moves| |]; cbn [handle]; eauto.
    + unfold submitMove. rewrite Ht. cbn [cellsAfter]. congruence.
    + destruct (showHint_cases es t t) as [-> | [ar ->]]; cbn [solved setArrows]; congruence.
    + rewrite undo_unchanged. congruence.
    + rewrite Ht. congruence.
    + unfold timerFires. destruct (timers t); cbn [solved]; congruence.
  - reflexivity.
Qed.

(** C10.  A drop is always played as [promotion: "q"], so its text never
    names a rook, bishop or knight after [=]; when the expected move at the
    current ply is such an under-promotion, no drop is accepted there, and
    the coach button is the only event that raises the ply index. *)
Theorem underpromotion_only_by_coach `{!EngineLaws E}
    (es : list string) (s : State) (e : string) :
  nth_error es (ply s) = Some e ->
  isUnderPromotion e = true ->
  (forall q a b,
      (forall q', onDrop es s q a b <> Js.Ok (q', true)) /\
      (forall r, onDrop es s q a b = Js.Ok r ->
                 snd r = false /\ fen (fst r) = fen q /\ ply (fst r) = ply q /\
                 coach (fst r) = coach q /\ solved (fst r) = solved q) /\
      fen (handle es s (PieceDrop a b)) = fen s /\
      ply (handle es s (PieceDrop a b)) = ply s /\
      coach (handle es s (PieceDrop a b)) = coach s /\
      solved (handle es s (PieceDrop a b)) = solved s) /\
  (forall a b p mv p',
      load (fen s) = Some p ->
      move_obj p a b (Some "q"%char) = Some (mv, p') ->
      isUnderPromotion (san mv) = false) /\
  (forall ev, ply s < ply (handle es s ev) -> ev = ClickPlayCoach) /\
  (forall p mv p',
      solved s = false ->
      load (fen s) = Some p ->
      move_san p e = Some (mv, p') ->
      ply (handle es s ClickPlayCoach) = S (ply s)).
Proof.
  intros Ne U.
  assert (Cells : forall a b,
             fen (handle es s (PieceDrop a b)) = fen s /\
             ply (handle es s (PieceDrop a b)) = ply s /\
             coach (handle es s (PieceDrop a b)) = coach s /\
             solved (handle es s (PieceDrop a b)) = solved s).
  { intros a b. cbn [handle].
    destruct (drop_cases es s a b) as [-> | [-> | (p & e' & mv & p' & L & Ne' & M & C & _)]];
      [now cbn | now cbn |].
    exfalso. rewrite Ne in Ne'. injection Ne' as <-.
    exact (underPromotion_not_queen e (san mv) U C (queen_or_nothing _ _ _ _ _ M)). }
  split; [|split; [|split]].
  - intros q a b. destruct (underPromotion_no_drop es s e Ne U q a b) as [D1 D2].
    split; [exact D1|]. split; [exact D2 | apply Cells].
  - intros a b p mv p' L M. unfold isUnderPromotion.
    destruct (queen_or_nothing _ _ _ _ _ M) as [-> | ->]; reflexivity.
  - intros ev. destruct ev as [a b| | | | |text|moves| |]; auto.
    + destruct (Cells a b) as (_ & -> & _). lia.
    + cbn [handle].
      destruct (showHint_cases es s s) as [-> | [ar ->]]; cbn [ply setArrows]; lia.
    + cbn [handle]. rewrite undo_unchanged. lia.
    + cbn. lia.
    + cbn [handle]. destruct (Js.truthy text); [|lia].
      unfold onLoad. destruct (newChess text); cbn; lia.
    + cbn [handle]. unfold onLoadSolution. destruct (toSanSequence _ _); cbn; lia.
    + cbn [handle]. unfold loadDemo, onLoad, onLoadSolution. cbn [fst].
      destruct (newChess _); destruct (toSanSequence _ _); cbn; lia.
    + cbn [handle]. unfold timerFires. destruct (timers s); cbn; lia.
  - intros p mv p' Hs L M. cbn [handle]. rewrite Hs.
    rewrite (playExpectedMove_plays es s s p e mv p' L Ne M).
    apply (advanced_cells es s s).
Qed.

(** *** Loading *)

(** X20.  Each loader checks its own input and nothing else before it
    commits: [onLoad] that the text is a position the engine reads,
    [onLoadSolution] that the list normalizes from the start position of the
    active puzzle.  When that check fails nothing is queued and an alert is
    raised; when it passes the new field is queued and the line is
    restarted. *)
Theorem loaders_check_their_input (s q : State) :
  (forall f, load f = None -> onLoad s q f = (q, Some "Invalid FEN")) /\
  (forall f p, load f = Some p ->
     let r := onLoad s q f in
     snd r = None /\
     puzzle (fst r) = PuzzleConfig.withFen f (puzzle q) /\
     fen (fst r) = f /\ ply (fst r) = 0 /\ solved (fst r) = false /\
     wrong (fst r) = false /\ coach (fst r) = []) /\
  (forall seq e, toSanSequence (PuzzleConfig.fen (puzzle s)) seq = Js.Throw e ->
     onLoadSolution s q seq
     = (q, Some "Invalid solution list (use SAN like Qg7# or UCI like f7g7)")) /\
  (forall seq out, toSanSequence (PuzzleConfig.fen (puzzle s)) seq = Js.Ok out ->
     let r := onLoadSolution s q seq in
     snd r = None /\
     puzzle (fst r) = PuzzleConfig.withSolution seq (puzzle q) /\
     fen (fst r) = fen q /\ ply (fst r) = 0 /\ solved (fst r) = false /\
     wrong (fst r) = false /\ coach (fst r) = [] /\ arrows (fst r) = []).
Proof.
  split; [|split; [|split]].
  - intros f L. unfold onLoad, newChess. now rewrite L.
  - intros f p L r. subst r. unfold onLoad, newChess. rewrite L. now cbn.
  - intros seq e T. unfold onLoadSolution. now rewrite T.
  - intros seq out T r. subst r. unfold onLoadSolution. rewrite T. now cbn.
Qed.

(** [onLoad] does not look at the solution the puzzle keeps: a position the
    engine reads is committed without alert also when that solution does not
    normalize from it, and the next render then throws what
    [toSanSequence] throws. *)
Lemma onLoad_unchecked (s q : State) (f : string) (p : Position) (e : Js.exn) :
  load f = Some p ->
  toSanSequence f (PuzzleConfig.solution (puzzle q)) = Js.Throw e ->
  snd (onLoad s q f) = None /\
  puzzle (fst (onLoad s q f)) = PuzzleConfig.withFen f (puzzle q) /\
  expectedSequence (fst (onLoad s q f)) = Js.Throw e /\
  rendered (fst (onLoad s q f)) = None.
Proof.
  intros L T. unfold onLoad, newChess. rewrite L. cbn [fst snd].
  split; [reflexivity|]. split; [reflexivity|].
  unfold rendered, expectedSequence. cbn. now rewrite T.
Qed.

End ComponentFacts.

(** ** The demo puzzle and other sessions, on the reference engine *)

Module Sessions.
Import ChessRules ChessRulesFacts.

(** C1.  [undo] never changes anything: it builds its [Chess] from the FEN
    of the board, and a [Chess] built from a FEN has no history to pop.  In
    the demo puzzle, after the mating move has been dropped, the undo button
    leaves the ply index at 1, the log entry in place and [solved] raised. *)
Theorem undo_takes_nothing_back :
  (forall (E : RulesEngine) (s q : State), undo s q = q) /\
  run demoSession [PieceDrop "f7" "g7"; ClickUndo]
  = run demoSession [PieceDrop "f7" "g7"] /\
  option_map (fun t => (fen t, ply t, solved t, coach t))
    (run demoSession [PieceDrop "f7" "g7"; ClickUndo])
  = Some ("7k/6Q1/7K/8/8/8/8/8 b - - 1 1", 1, true, [mkCoachItem true "Qg7#"]).
Proof.
  split; [|split].
  - intros E s q. apply undo_unchanged.
  - vm_compute. reflexivity.
  - vm_compute. reflexivity.
Qed.

Lemma onDrop_accepts_iff_clean_equal_witness :
  exists p mv p',
    load (fen demoSession) = Some p /\
    move_obj p "f7" "g7" (Some "q"%char) = Some (mv, p') /\
    san mv = "Qg7#" /\
    exists q' answer,
      onDrop ["Qg7#"] demoSession demoSession "f7" "g7" = Js.Ok (q', answer) /\
      (answer = true
       <-> exists e, nth_error ["Qg7#"] (ply demoSession) = Some e /\
                     Js.remove_all "+#!?" e = Js.remove_all "+#!?" (san mv)).
Proof.
  evar (p : Position). evar (mv : Move). evar (p' : Position).
  assert (L : load (fen demoSession) = Some p) by computed.
  assert (M : move_obj p "f7" "g7" (Some "q"%char) = Some (mv, p')) by computed.
  exists p, mv, p'. split; [exact L|]. split; [exact M|]. split; [reflexivity|].
  exact (proj1 (onDrop_accepts_iff_clean_equal ["Qg7#"] demoSession demoSession
                  "f7" "g7" p mv p' L M)).
Defined.

(** C3, where the code fails it.  A drop that is not a legal move is not
    answered: [move] throws and nothing catches it, whatever the engine, the
    session and the squares.  In the demo session the drop of the empty
    square a1 on a8 throws the error of the engine: the cells stay as they
    were, and nothing is returned. *)
Theorem illegal_drop_throws :
  (forall (E : RulesEngine) (es : list string) (s q : State) (a b : Square) (p : Position),
      load (fen s) = Some p ->
      move_obj p a b (Some "q"%char) = None ->
      onDrop es s q a b = Js.Throw (invalidMove (moveJson a b (Some "q"%char))) /\
      (forall r, onDrop es s q a b <> Js.Ok r) /\
      (solved s = false ->
       submitMove es s a b = Js.Throw (invalidMove (moveJson a b (Some "q"%char))))) /\
  load (fen demoSession) <> None /\
  option_map (fun p => move_obj p "a1" "a8" (Some "q"%char)) (load (fen demoSession))
  = Some None /\
  onDrop ["Qg7#"] demoSession demoSession "a1" "a8"
  = Js.Throw
      (Js.Error
         ("Invalid move: {" ++ inQuotes "from" ++ ":" ++ inQuotes "a1" ++ "," ++
          inQuotes "to" ++ ":" ++ inQuotes "a8" ++ "," ++
          inQuotes "promotion" ++ ":" ++ inQuotes "q" ++ "}")) /\
  submitMove ["Qg7#"] demoSession "a1" "a8"
  = onDrop ["Qg7#"] demoSession demoSession "a1" "a8" /\
  handle ["Qg7#"] demoSession (PieceDrop "a1" "a8") = demoSession.
Proof.
  split; [|split; [vm_compute; discriminate|split; [computed|split; [computed|split; computed]]]].
  intros E es s q a b p L M.
  pose proof (onDrop_illegal es s q a b p L M) as H.
  split; [exact H|]. split; [intros r; rewrite H; discriminate|].
  intros Hs. unfold submitMove. rewrite Hs. now apply onDrop_illegal with (p := p).
Qed.

Lemma wrong_move_is_rejected_witness :
  exists p mv p' r,
    load (fen demoSession) = Some p /\
    move_obj p "f7" "f6" (Some "q"%char) = Some (mv, p') /\
    (forall e, nth_error ["Qg7#"] (ply demoSession) = Some e -> clean e <> clean (san mv)) /\
    onDrop ["Qg7#"] demoSession demoSession "f7" "f6" = Js.Ok (r, false) /\
    wrong r = true /\ ply r = 0 /\ fen r = fen demoSession.
Proof.
  evar (p : Position). evar (mv : Move). evar (p' : Position).
  assert (L : load (fen demoSession) = Some p) by computed.
  assert (M1 : move_obj p "f7" "f6" (Some "q"%char) = Some (mv, p')) by computed.
  assert (Ne : forall e, nth_error ["Qg7#"] (ply demoSession) = Some e ->
                         clean e <> clean (san mv)).
  { intros e He. vm_compute in He. injection He as <-. vm_compute. discriminate. }
  destruct (wrong_move_is_rejected ["Qg7#"] demoSession demoSession "f7" "f6" p mv p' L M1 Ne)
    as (r & R0 & R1 & R2 & _ & _ & _ & _ & R3 & _).
  exists p, mv, p', r.
  split; [exact L|]. split; [exact M1|]. split; [exact Ne|]. split; [exact R0|].
  split; [exact R3|]. split; [exact R2 | exact R1].
Defined.

(** C4, where the code fails it.  [onLoad] validates the position and
    nothing else: from the demo session, loading the start position is
    committed without alert although the expected line of the puzzle, still
    [Qg7#], does not normalize from it.  The next render throws in
    [useMemo], and no event is handled any more. *)
Theorem onLoad_commits_unchecked_line :
  (forall (E : RulesEngine) (s q : State) (f : string) (p : Position) (e : Js.exn),
      load f = Some p ->
      toSanSequence f (PuzzleConfig.solution (puzzle q)) = Js.Throw e ->
      snd (onLoad s q f) = None /\
      puzzle (fst (onLoad s q f)) = PuzzleConfig.withFen f (puzzle q) /\
      expectedSequence (fst (onLoad s q f)) = Js.Throw e /\
      rendered (fst (onLoad s q f)) = None) /\
  snd (onLoad demoSession demoSession startFen) = None /\
  fst (onLoad demoSession demoSession startFen) <> demoSession /\
  PuzzleConfig.fen (puzzle (fst (onLoad demoSession demoSession startFen))) = startFen /\
  PuzzleConfig.solution (puzzle (fst (onLoad demoSession demoSession startFen))) = ["Qg7#"] /\
  expectedSequence (fst (onLoad demoSession demoSession startFen))
  = Js.Throw (Js.Error "Invalid solution move: Qg7#") /\
  run demoSession [ClickLoadFen startFen] <> None /\
  run demoSession [ClickLoadFen startFen; ClickReset] = None /\
  run demoSession [ClickLoadFen startFen; ClickLoadDemo] = None.
Proof.
  split; [intros E s q f p e; apply onLoad_unchecked|].
  split; [computed|]. split; [vm_compute; discriminate|].
  split; [computed|]. split; [computed|]. split; [computed|].
  split; [vm_compute; discriminate|]. split; computed.
Qed.

Lemma loaders_check_their_input_witness :
  load "not a position" = None /\
  onLoad demoSession demoSession "not a position" = (demoSession, Some "Invalid FEN") /\
  toSanSequence (PuzzleConfig.fen (puzzle demoSession)) ["Qg7#"; "Qh9"]
  = Js.Throw (Js.Error "Invalid solution move: Qh9") /\
  onLoadSolution demoSession demoSession ["Qg7#"; "Qh9"]
  = (demoSession, Some "Invalid solution list (use SAN like Qg7# or UCI like f7g7)").
Proof.
  assert (L : load "not a position" = None) by computed.
  assert (T : toSanSequence (PuzzleConfig.fen (puzzle demoSession)) ["Qg7#"; "Qh9"]
              = Js.Throw (Js.Error "Invalid solution move: Qh9")) by computed.
  split; [exact L|].
  split; [exact (proj1 (loaders_check_their_input demoSession demoSession) _ L)|].
  split; [exact T|].
  exact (proj1 (proj2 (proj2 (loaders_check_their_input demoSession demoSession))) _ _ T).
Defined.

Lemma solving_the_line_witness :
  let es := ["e4"; "e5"; "Nf3"] in
  let s := initialState openingPuzzle in
  let drops := [("e2", "e4"); ("e7", "e5"); ("g1", "f3")] in
  expectedSequence s = Js.Ok es /\
  ply s = 0 /\ solved s = false /\ List.length drops = List.length es /\
  PlaysLine es (fen s) 0 drops /\
  ply (submitAll es s (firstn 2 drops)) = 2 /\
  solved (submitAll es s (firstn 2 drops)) = false /\
  ply (submitAll es s (firstn 3 drops)) = 3 /\
  solved (submitAll es s (firstn 3 drops)) = true.
Proof.
  intros es s drops.
  assert (P0 : ply s = 0) by reflexivity.
  assert (S0 : solved s = false) by reflexivity.
  assert (Len : List.length drops = List.length es) by reflexivity.
  assert (Line : PlaysLine es (fen s) 0 drops).
  { cbn [PlaysLine drops].
    do 3 (do 4 eexists;
          (split; [computed|]); (split; [computed|]);
          (split; [computed|]); (split; [computed|])).
    exact I. }
  pose proof (proj1 (solving_the_line es s drops P0 S0 Len Line)) as R.
  destruct (R 2 (le_S 2 2 (le_n 2))) as [R2p R2s].
  destruct (R 3 (le_n 3)) as [R3p R3s].
  split; [computed|]. split; [exact P0|]. split; [exact S0|]. split; [exact Len|].
  split; [exact Line|]. split; [exact R2p|]. split; [|split; [exact R3p|]].
  - destruct (solved (submitAll es s (firstn 2 drops))) eqn:V; [|reflexivity].
    destruct (proj1 R2s V) as [X _]. discriminate X.
  - apply R3s. split; [reflexivity | exact (le_S 1 2 (le_S 1 1 (le_n 1)))].
Defined.

(** C6, where the code fails it.  A token of the coordinate pattern with no
    legal reading does not make the normalizer throw its own error, the one
    that names the token: the second [move] stands outside the [try], and
    what it throws, the engine's [Invalid move] with the JSON of the move
    object, is what [toSanSequence] throws.  So it is with [a1a8] in the demo
    position, alone or after [Qg7#]; a token off the pattern, such as [Qh9],
    gets the error meant for both. *)
Theorem coordinate_token_error_escapes :
  (forall (E : RulesEngine) (initialFen : string) (p : Position)
          (pre : list string) (token : string) (post out : list string) (p' : Position),
      load initialFen = Some p ->
      Normalized p pre out p' ->
      isCoordinateToken token = true ->
      interpret p' token = None ->
      toSanSequence initialFen (pre ++ token :: post)%list
      = Js.Throw (invalidMove (moveJson (substring 0 2 token) (substring 2 2 token)
                                 (String.get 4 token))) /\
      toSanSequence initialFen (pre ++ token :: post)%list
      <> Js.Throw (Js.Error ("Invalid solution move: " ++ token))) /\
  toSanSequence (E := engine) "7k/5Q2/7K/8/8/8/8/8 w - - 0 1" ["a1a8"]
  = Js.Throw (Js.Error ("Invalid move: {" ++ inQuotes "from" ++ ":" ++ inQuotes "a1" ++ "," ++
                        inQuotes "to" ++ ":" ++ inQuotes "a8" ++ "}")) /\
  toSanSequence (E := engine) "7k/5Q2/7K/8/8/8/8/8 w - - 0 1" ["Qg7#"; "a1a8"]
  = Js.Throw (Js.Error ("Invalid move: {" ++ inQuotes "from" ++ ":" ++ inQuotes "a1" ++ "," ++
                        inQuotes "to" ++ ":" ++ inQuotes "a8" ++ "}")) /\
  toSanSequence (E := engine) "7k/5Q2/7K/8/8/8/8/8 w - - 0 1" ["Qh9"]
  = Js.Throw (Js.Error "Invalid solution move: Qh9").
Proof.
  split; [|split; [computed|split; computed]].
  intros E fen0 p pre token post out p' L N C I.
  assert (T : toSanSequence fen0 (pre ++ token :: post)%list = Js.Throw (thrownFor token)).
  { apply (toSanSequence_throw _ p _ _ L). now exists pre, token, post, out, p'. }
  rewrite T. unfold thrownFor. rewrite C. split; [reflexivity|].
  intros H.
  apply (invalidMove_is_not_invalidSolutionMove
           (moveJson (substring 0 2 token) (substring 2 2 token) (String.get 4 token)) token).
  unfold invalidSolutionMove. congruence.
Qed.

Lemma toSanSequence_reads_tokens_witness :
  exists p,
    load (PuzzleConfig.fen DEFAULT_PUZZLE) = Some p /\
    (forall out,
        toSanSequence (PuzzleConfig.fen DEFAULT_PUZZLE) ["f7g7"] = Js.Ok out
        <-> exists p', Normalized p ["f7g7"] out p') /\
    (forall e,
        toSanSequence (PuzzleConfig.fen DEFAULT_PUZZLE) ["Qh9"] = Js.Throw e
        <-> exists pre token post out p',
              ["Qh9"] = (pre ++ token :: post)%list /\
              Normalized p pre out p' /\
              interpret p' token = None /\
              e = thrownFor token) /\
    toSanSequence (PuzzleConfig.fen DEFAULT_PUZZLE) ["f7g7"] = Js.Ok ["Qg7#"] /\
    toSanSequence (PuzzleConfig.fen DEFAULT_PUZZLE) ["Qh9"] = Js.Throw (thrownFor "Qh9").
Proof.
  evar (p : Position).
  assert (L : load (PuzzleConfig.fen DEFAULT_PUZZLE) = Some p) by computed.
  exists p. split; [exact L|]. split; [|split; [|split; computed]].
  - exact (proj1 (toSanSequence_reads_tokens _ p ["f7g7"] L)).
  - exact (proj1 (proj2 (toSanSequence_reads_tokens _ p ["Qh9"] L))).
Defined.

(** C7.  A coordinate token and a canonical token that the engine reads as
    the same move, by squares and promotion piece, normalize to the same
    text, that of the move.  The engine has to give one text to one move and
    to read a coordinate token as the move between its squares; the
    reference engine does both, in every position.  In the demo position
    [Qg7#] and [f7g7] both give [Qg7#], which is [Qg7] without its
    decoration. *)
Theorem coordinate_and_canonical_agree :
  (forall (E : RulesEngine), ReaderLaws E ->
   forall (initialFen : string) (p : Position) (c t : string)
          (mc mt : Move) (pc pt : Position),
      load initialFen = Some p ->
      isCoordinateToken c = true ->
      move_obj p (substring 0 2 c) (substring 2 2 c) (String.get 4 c) = Some (mc, pc) ->
      move_san p t = Some (mt, pt) ->
      sameMove mc mt ->
      toSanSequence initialFen [c] = Js.Ok [san mt] /\
      toSanSequence initialFen [t] = Js.Ok [san mt]) /\
  ReaderLaws engine /\
  toSanSequence (E := engine) "7k/5Q2/7K/8/8/8/8/8 w - - 0 1" ["Qg7#"] = Js.Ok ["Qg7#"] /\
  toSanSequence (E := engine) "7k/5Q2/7K/8/8/8/8/8 w - - 0 1" ["f7g7"] = Js.Ok ["Qg7#"] /\
  clean "Qg7#" = "Qg7".
Proof.
  split; [|split; [exact ReaderFacts.reader|split; [computed|split; computed]]].
  intros E Laws fen0 p c t mc mt pc pt. apply same_move_same_text.
Qed.

Lemma coordinate_and_canonical_agree_witness :
  exists p mc pc mt pt,
    load "7k/5Q2/7K/8/8/8/8/8 w - - 0 1" = Some p /\
    isCoordinateToken "f7g7" = true /\
    move_obj p "f7" "g7" None = Some (mc, pc) /\
    move_san p "Qg7#" = Some (mt, pt) /\
    sameMove mc mt /\
    toSanSequence "7k/5Q2/7K/8/8/8/8/8 w - - 0 1" ["f7g7"] = Js.Ok [san mt] /\
    toSanSequence "7k/5Q2/7K/8/8/8/8/8 w - - 0 1" ["Qg7#"] = Js.Ok [san mt].
Proof.
  evar (p : Position). evar (mc : Move). evar (pc : Position).
  evar (mt : Move). evar (pt : Position).
  assert (L : load "7k/5Q2/7K/8/8/8/8/8 w - - 0 1" = Some p) by computed.
  assert (C : isCoordinateToken "f7g7" = true) by reflexivity.
  assert (Mo : move_obj p (substring 0 2 "f7g7") (substring 2 2 "f7g7") (String.get 4 "f7g7")
               = Some (mc, pc)) by computed.
  assert (Ms : move_san p "Qg7#" = Some (mt, pt)) by computed.
  assert (Same : sameMove mc mt) by (repeat split).
  exists p, mc, pc, mt, pt.
  split; [exact L|]. split; [exact C|]. split; [exact Mo|]. split; [exact Ms|].
  split; [exact Same|].
  exact (proj1 coordinate_and_canonical_agree engine ReaderFacts.reader _ p "f7g7" "Qg7#"
           mc mt pc pt L C Mo Ms Same).
Defined.

Lemma playExpectedMove_as_submitMove_witness :
  exists p mv p' h,
    solved demoSession = false /\
    load (fen demoSession) = Some p /\
    nth_error ["Qg7#"] (ply demoSession) = Some "Qg7#" /\
    move_san p "Qg7#" = Some (mv, p') /\
    move_obj p "f7" "g7" (Some "q"%char) = Some (mv, p') /\
    sameMove mv mv /\
    clean (san mv) = clean "Qg7#" /\
    submitMove ["Qg7#"] demoSession "f7" "g7" = Js.Ok (h, true) /\
    fen (playExpectedMove ["Qg7#"] demoSession demoSession) = fen h /\
    coach (playExpectedMove ["Qg7#"] demoSession demoSession) = coach h.
Proof.
  evar (p : Position). evar (mv : Move). evar (p' : Position).
  assert (S0 : solved demoSession = false) by reflexivity.
  assert (L : load (fen demoSession) = Some p) by computed.
  assert (Ne : nth_error ["Qg7#"] (ply demoSession) = Some "Qg7#") by reflexivity.
  assert (Ms : move_san p "Qg7#" = Some (mv, p')) by computed.
  assert (Mo : move_obj p "f7" "g7" (Some "q"%char) = Some (mv, p')) by computed.
  assert (Same : sameMove mv mv) by (repeat split).
  assert (C : clean (san mv) = clean "Qg7#") by computed.
  destruct (proj1 (proj2 (proj2 (proj2 (proj2
              (playExpectedMove_as_submitMove ["Qg7#"] demoSession)))))
              "f7" "g7" p "Qg7#" mv p' mv p' ReaderFacts.reader S0 L Ne Ms Mo Same C)
    as (h & R0 & R).
  cbn zeta in R. destruct R as (R1 & _ & R3 & _).
  exists p, mv, p', h. repeat (split; [assumption|]). exact R3.
Defined.

(** C8, refuted as stated.  In the under-promotion puzzle, unsolved and
    just mounted, the coach button plays [f8=N+]: the ply index becomes 1 and
    the puzzle is solved.  The drop of the squares of that move, f7 on f8, is
    played as a promotion to a queen: it is answered [false], raises [wrong]
    and leaves the ply index at 0. *)
Lemma coach_plays_what_no_drop_can :
  let es := ["f8=N+"] in
  let s := initialState underPromotionPuzzle in
  Reachable underPromotionPuzzle s /\
  expectedSequence s = Js.Ok es /\
  solved s = false /\
  (fen (playExpectedMove es s s), ply (playExpectedMove es s s),
   solved (playExpectedMove es s s), coach (playExpectedMove es s s))
  = ("5N2/7k/8/8/8/8/8/K7 b - - 0 1", 1, true, [mkCoachItem true "f8=N+"]) /\
  submitMove es s "f7" "f8" = Js.Ok (setTimeout (setWrong true s), false) /\
  (fen (handle es s (PieceDrop "f7" "f8")), ply (handle es s (PieceDrop "f7" "f8")),
   solved (handle es s (PieceDrop "f7" "f8")), coach (handle es s (PieceDrop "f7" "f8")))
  = ("8/5P1k/8/8/8/8/8/K7 w - - 0 1", 0, false, []).
Proof.
  intros es s.
  split; [apply Reachable_initial|].
  split; [computed|]. split; [reflexivity|]. split; [computed|]. split; computed.
Qed.

(** C9, refuted as stated.  Clicking the solution button of the demo
    session while the text area is empty gives a reachable state whose
    expected line has length 0: the ply index equals that length, yet
    [solved] is not raised. *)
Lemma empty_line_is_not_solved :
  let s := handle ["Qg7#"] demoSession (ClickLoadSolution "") in
  Reachable DEFAULT_PUZZLE s /\
  expectedSequence s = Js.Ok [] /\
  ply s = List.length (@nil string) /\
  solved s = false /\
  ~ (solved s = true <-> ply s = List.length (@nil string)).
Proof.
  intros s.
  split; [|split; [computed|split; [reflexivity|split; [reflexivity|]]]].
  - apply Reachable_event with (s := demoSession) (ev := ClickLoadSolution "").
    + apply Reachable_initial.
    + computed.
  - intros [_ H]. specialize (H eq_refl). vm_compute in H. discriminate H.
Qed.

Lemma session_invariant_witness :
  let es := ["Qg7#"] in
  let s := handle es demoSession (PieceDrop "f7" "g7") in
  expectedSequence s = Js.Ok es /\
  Reachable DEFAULT_PUZZLE s /\
  load (PuzzleConfig.fen DEFAULT_PUZZLE) <> None /\
  ReachableOnBoard DEFAULT_PUZZLE s /\
  ply s = List.length (coach s) /\
  (solved s = true <-> ply s = List.length es /\ 0 < List.length es) /\
  Follows es (PuzzleConfig.fen (puzzle s)) (ply s) (fen s).
Proof.
  intros es s.
  assert (He : expectedSequence s = Js.Ok es) by computed.
  assert (D : dispatch demoSession (PieceDrop "f7" "g7") = Some s) by computed.
  assert (R : Reachable DEFAULT_PUZZLE s).
  { exact (Reachable_event _ _ _ _ (Reachable_initial _) D). }
  assert (Demo : load (PuzzleConfig.fen DEFAULT_PUZZLE) <> None).
  { vm_compute. discriminate. }
  assert (Rb : ReachableOnBoard DEFAULT_PUZZLE s).
  { apply ReachableOnBoard_event with (s := demoSession) (ev := PieceDrop "f7" "g7");
      [apply ReachableOnBoard_initial | exact I | exact D]. }
  destruct (session_invariant DEFAULT_PUZZLE s es He) as [C F].
  destruct (C R) as (C1 & _ & _ & C4).
  split; [exact He|]. split; [exact R|]. split; [exact Demo|]. split; [exact Rb|].
  split; [exact C1|]. split; [exact C4|]. exact (F Demo Rb).
Defined.

Lemma underpromotion_only_by_coach_witness :
  let es := ["f8=N+"] in
  let s := initialState underPromotionPuzzle in
  exists p mv p',
    expectedSequence s = Js.Ok es /\
    nth_error es (ply s) = Some "f8=N+" /\
    isUnderPromotion "f8=N+" = true /\
    solved s = false /\
    load (fen s) = Some p /\
    move_san p "f8=N+" = Some (mv, p') /\
    (forall q', onDrop es s s "f7" "f8" <> Js.Ok (q', true)) /\
    ply (handle es s (PieceDrop "f7" "f8")) = 0 /\
    ply (handle es s ClickPlayCoach) = 1.
Proof.
  intros es s.
  evar (p : Position). evar (mv : Move). evar (p' : Position).
  assert (He : expectedSequence s = Js.Ok es) by computed.
  assert (Ne : nth_error es (ply s) = Some "f8=N+") by reflexivity.
  assert (U : isUnderPromotion "f8=N+" = true) by reflexivity.
  assert (S0 : solved s = false) by reflexivity.
  assert (L : load (fen s) = Some p) by computed.
  assert (M : move_san p "f8=N+" = Some (mv, p')) by computed.
  destruct (underpromotion_only_by_coach es s "f8=N+" Ne U) as (D & _ & _ & P).
  destruct (D s "f7" "f8") as (D1 & _ & _ & D2 & _).
  exists p, mv, p'.
  repeat (split; [assumption|]). exact (P p mv p' S0 L M).
Defined.

(** The test of [solved] on the board is what keeps a solved puzzle quiet:
    [onDrop] itself, called with a legal move in a solved session, raises
    [wrong]. *)
Remark onDrop_when_solved_raises_wrong :
  let es := ["f8=N+"] in
  let s := handle es (initialState underPromotionPuzzle) ClickPlayCoach in
  solved s = true /\
  onDrop es s s "h7" "g7" = Js.Ok (setTimeout (setWrong true s), false) /\
  submitMove es s "h7" "g7" = Js.Ok (s, false).
Proof. intros es s. split; [computed|split; computed]. Qed.

(** [onLoadSolution] does not put the board back on the start position:
    after the mating move in the demo session, loading the same solution
    again resets ply index, log and [solved] and leaves the queen on g7. *)
Remark solution_load_leaves_the_board :
  option_map (fun t => (fen t, PuzzleConfig.fen (puzzle t), ply t, solved t, coach t))
    (run demoSession [PieceDrop "f7" "g7"; ClickLoadSolution "1. Qg7#"])
  = Some ("7k/6Q1/7K/8/8/8/8/8 b - - 1 1", "7k/5Q2/7K/8/8/8/8/8 w - - 0 1", 0, false, []).
Proof. computed. Qed.

(** [loadDemo] checks the demo solution against the start position of the
    render it was created in, not against the demo position it has just
    queued: from a session on the start position with an empty line, the
    demo position is loaded and its solution is refused. *)
Remark loadDemo_checks_the_previous_position :
  let r := run demoSession [ClickLoadSolution ""; ClickLoadFen startFen] in
  option_map (fun t => snd (loadDemo t t)) r
  = Some ["Invalid solution list (use SAN like Qg7# or UCI like f7g7)"] /\
  option_map (fun t => (PuzzleConfig.fen (puzzle (fst (loadDemo t t))),
                        PuzzleConfig.solution (puzzle (fst (loadDemo t t))))) r
  = Some ("7k/5Q2/7K/8/8/8/8/8 w - - 0 1", []).
Proof. split; computed. Qed.

End Sessions.

(** * The rest of the component *)

(** ** The text of the solution box *)

Lemma append_nil_r (s : string) : s ++ "" = s.
Proof. induction s as [|a s IH]; cbn; [reflexivity | now rewrite IH]. Qed.

Lemma allChars_append f a b : allChars f (a ++ b) = allChars f a && allChars f b.
Proof. induction a as [|x a IH]; cbn; [reflexivity | now rewrite IH, andb_assoc]. Qed.

(** *** White space of more than one byte *)

Lemma wideSpaces_bytes (w : string) :
  In w Js.wideSpaces -> allChars nonAscii w = true /\ Js.truthy w = true.
Proof.
  assert (H : forallb (fun w => allChars nonAscii w && Js.truthy w) Js.wideSpaces = true)
    by (vm_compute; reflexivity).
  intros Hin. rewrite forallb_forall in H. specialize (H w Hin). now apply andb_prop in H.
Qed.

Lemma isSpace_ascii (a : ascii) : Js.isSpace a = true -> nonAscii a = false.
Proof.
  destruct a as [[] [] [] [] [] [] [] []]; vm_compute; intros H;
    first [discriminate H | reflexivity].
Qed.

Lemma separator_ascii (c : ascii) : isSeparator c = true -> nonAscii c = false.
Proof.
  destruct c as [[] [] [] [] [] [] [] []]; vm_compute; intros H;
    first [discriminate H | reflexivity].
Qed.

Lemma nonAscii_differs (a c : ascii) :
  nonAscii a = true -> nonAscii c = false -> Ascii.eqb a c = false.
Proof. intros A C. destruct (Ascii.eqb_spec a c); [subst; congruence | reflexivity]. Qed.

Lemma find_none_existsb {A : Type} (f : A -> bool) (l : list A) :
  find f l = None <-> existsb f l = false.
Proof.
  induction l as [|x l IH]; cbn; [tauto|].
  destruct (f x); cbn; [split; discriminate | exact IH].
Qed.

Lemma find_ext_in {A : Type} (f g : A -> bool) (l : list A) :
  (forall x, In x l -> f x = g x) -> find f l = find g l.
Proof.
  induction l as [|x l IH]; intros H; [reflexivity|].
  cbn. rewrite (H x (or_introl eq_refl)). destruct (g x); [reflexivity|].
  apply IH. intros y Hy. apply H. now right.
Qed.

Lemma startsWith_length (w s : string) :
  Js.startsWith w s = true -> String.length w <= String.length s.
Proof.
  revert s. induction w as [|a w IH]; intros s; cbn; [lia|].
  destruct s as [|b s]; [discriminate|]. intros H. apply andb_prop in H.
  destruct H as [_ H]. apply IH in H. cbn. lia.
Qed.

Lemma startsWith_trans (w h r : string) :
  Js.startsWith w h = true -> Js.startsWith h r = true -> Js.startsWith w r = true.
Proof.
  revert h r. induction w as [|a w IH]; intros h r; [reflexivity|].
  cbn [Js.startsWith]. destruct h as [|b h]; [discriminate|].
  intros H1 H2. cbn [Js.startsWith] in H2. destruct r as [|c r]; [discriminate|].
  apply andb_prop in H1. apply andb_prop in H2. destruct H1 as [A1 B1], H2 as [A2 B2].
  apply Ascii.eqb_eq in A1. apply Ascii.eqb_eq in A2. subst.
  now rewrite Ascii.eqb_refl, (IH h r B1 B2).
Qed.

(** A byte of ASCII ends every attempt to read a character of more than
    one byte. *)
Lemma startsWith_boundary (w : string) (c : ascii) (y : string) :
  allChars nonAscii w = true -> nonAscii c = false ->
  forall u, Js.startsWith w (u ++ String c y) = Js.startsWith w u.
Proof.
  intros W C. induction w as [|l cs IH]; intros u; [reflexivity|].
  cbn [allChars] in W. apply andb_prop in W. destruct W as [Wl Wcs].
  destruct u as [|a u]; cbn [append Js.startsWith].
  - now rewrite (nonAscii_differs l c Wl C).
  - now rewrite (IH Wcs u).
Qed.

Lemma spaceLen_zero (a : ascii) (r : string) :
  Js.spaceLen (String a r) = 0 -> Js.isSpace a = false /\ wideAt (String a r) = false.
Proof.
  unfold Js.spaceLen, wideAt. destruct (Js.isSpace a); [discriminate|].
  destruct (find _ Js.wideSpaces) as [w|] eqn:F.
  - apply find_some in F. destruct F as [Hin _].
    destruct (wideSpaces_bytes w Hin) as [_ T]. destruct w; [discriminate T | discriminate].
  - intros _. split; [reflexivity|]. now apply find_none_existsb.
Qed.

Lemma spaceLen_narrow (a : ascii) (r : string) :
  wideAt (String a r) = false ->
  Js.spaceLen (String a r) = if Js.isSpace a then 1 else 0.
Proof.
  unfold Js.spaceLen, wideAt. intros H. apply find_none_existsb in H. now rewrite H.
Qed.

Lemma spaceLen_space (a : ascii) (r : string) :
  Js.isSpace a = true -> Js.spaceLen (String a r) = 1.
Proof. unfold Js.spaceLen. now intros ->. Qed.

Lemma spaceLen_le (s : string) : Js.spaceLen s <= String.length s.
Proof.
  destruct s as [|a r]; [apply le_n|]. unfold Js.spaceLen.
  destruct (Js.isSpace a); [cbn; lia|].
  destruct (find _ Js.wideSpaces) as [w|] eqn:F; [|lia].
  apply find_some in F. destruct F as [_ F]. now apply startsWith_length.
Qed.

Lemma spaceLen_boundary (a : ascii) (u : string) (c : ascii) (y : string) :
  nonAscii c = false ->
  Js.spaceLen (String a u ++ String c y) = Js.spaceLen (String a u).
Proof.
  intros C. cbn [append]. unfold Js.spaceLen. destruct (Js.isSpace a); [reflexivity|].
  rewrite (find_ext_in (fun w => Js.startsWith w (String a (u ++ String c y)))
             (fun w => Js.startsWith w (String a u))); [reflexivity|].
  intros w Hin. destruct (wideSpaces_bytes w Hin) as [W _].
  exact (startsWith_boundary w c y W C (String a u)).
Qed.

Lemma wideAt_head (a : ascii) (x r : string) :
  (forall cs, allChars nonAscii cs = true ->
              Js.startsWith cs x = true -> Js.startsWith cs r = true) ->
  wideAt (String a r) = false -> wideAt (String a x) = false.
Proof.
  intros Head H. unfold wideAt in *.
  destruct (existsb (fun w => Js.startsWith w (String a x)) Js.wideSpaces) eqn:X;
    [|reflexivity].
  apply existsb_exists in X. destruct X as (w & Hin & S).
  destruct (wideSpaces_bytes w Hin) as [W _].
  assert (Y : existsb (fun w => Js.startsWith w (String a r)) Js.wideSpaces = true).
  { apply existsb_exists. exists w. split; [exact Hin|].
    destruct w as [|l cs]; [reflexivity|].
    cbn [Js.startsWith allChars] in *. apply andb_prop in S. apply andb_prop in W.
    destruct S as [S1 S2], W as [_ W2]. now rewrite S1, (Head cs W2 S2). }
  congruence.
Qed.

Lemma wideAt_blank (x : string) : wideAt (String " " x) = false.
Proof. vm_compute. reflexivity. Qed.

Lemma sepLen_comma (r : string) : sepLen (String "," r) = 1.
Proof. reflexivity. Qed.

Lemma sepLen_other (a : ascii) (r : string) :
  Ascii.eqb a "," = false -> sepLen (String a r) = Js.spaceLen (String a r).
Proof. unfold sepLen. now intros ->. Qed.

Lemma sepLen_separator (a : ascii) (r : string) :
  isSeparator a = true -> sepLen (String a r) = 1.
Proof.
  unfold isSeparator, sepLen. intros H.
  destruct (Ascii.eqb a ","); [reflexivity|]. rewrite orb_false_r in H.
  now apply spaceLen_space.
Qed.

Lemma sepLen_zero (a : ascii) (r : string) :
  sepLen (String a r) = 0 ->
  isSeparator a = false /\ Js.isSpace a = false /\ wideAt (String a r) = false.
Proof.
  unfold sepLen, isSeparator. destruct (Ascii.eqb a ","); [discriminate|].
  intros H. destruct (spaceLen_zero a r H) as [-> W]. now repeat split.
Qed.

Lemma sepLen_le (s : string) : sepLen s <= String.length s.
Proof.
  destruct s as [|a r]; [apply le_n|]. unfold sepLen.
  destruct (Ascii.eqb a ","); [cbn; lia | apply spaceLen_le].
Qed.

Lemma sepLen_boundary (a : ascii) (u : string) (c : ascii) (y : string) :
  nonAscii c = false ->
  sepLen (String a u ++ String c y) = sepLen (String a u).
Proof.
  intros C. unfold sepLen. cbn [append]. destruct (Ascii.eqb a ","); [reflexivity|].
  exact (spaceLen_boundary a u c y C).
Qed.

(** *** Collapsing and trimming *)

Lemma collapse_head (cs : string) :
  allChars nonAscii cs = true ->
  forall r, Js.startsWith cs (Js.collapseSpaces 0 false r) = true -> Js.startsWith cs r = true.
Proof.
  induction cs as [|c cs IH]; intros W r; [reflexivity|].
  cbn [allChars] in W. apply andb_prop in W. destruct W as [Wc Wcs].
  destruct r as [|x r]; [discriminate|].
  cbn [Js.collapseSpaces]. destruct (Js.spaceLen (String x r)) as [|j]; cbn [Js.startsWith].
  - intros H. apply andb_prop in H. destruct H as [H1 H2]. now rewrite H1, (IH Wcs r H2).
  - now rewrite (nonAscii_differs c " " Wc eq_refl).
Qed.

Lemma collapse_narrow (s : string) :
  forall k b, narrow (Js.collapseSpaces k b s) = true.
Proof.
  induction s as [|a r IH]; intros k b; [reflexivity|].
  cbn [Js.collapseSpaces]. destruct k as [|k]; [|apply IH].
  destruct (Js.spaceLen (String a r)) as [|j] eqn:SL.
  - cbn [narrow]. rewrite IH, andb_true_r.
    destruct (spaceLen_zero a r SL) as [_ W].
    rewrite (wideAt_head a (Js.collapseSpaces 0 false r) r); [reflexivity | | exact W].
    intros cs Hcs. now apply collapse_head.
  - destruct b; [apply IH|]. cbn [narrow]. now rewrite wideAt_blank, IH.
Qed.

Lemma collapse_onlyBlanks (s : string) :
  forall k b, allChars onlyBlanks (Js.collapseSpaces k b s) = true.
Proof.
  induction s as [|a r IH]; intros k b; [reflexivity|].
  cbn [Js.collapseSpaces]. destruct k as [|k]; [|apply IH].
  destruct (Js.spaceLen (String a r)) as [|j] eqn:SL.
  - destruct (spaceLen_zero a r SL) as [Sp _].
    cbn [allChars]. unfold onlyBlanks at 1. now rewrite Sp, IH.
  - destruct b; [apply IH|]. cbn [allChars]. now rewrite IH.
Qed.

Lemma narrow_tail (a : ascii) (r : string) : narrow (String a r) = true -> narrow r = true.
Proof. cbn [narrow]. intros H. now apply andb_prop in H. Qed.

Lemma narrow_spaceLen (a : ascii) (r : string) :
  narrow (String a r) = true ->
  Js.spaceLen (String a r) = if Js.isSpace a then 1 else 0.
Proof.
  cbn [narrow]. intros H. apply andb_prop in H. destruct H as [H _].
  apply negb_true_iff in H. now apply spaceLen_narrow.
Qed.

Lemma trimStart_narrow (s : string) :
  narrow s = true ->
  exists w, allChars Js.isSpace w = true /\ s = w ++ Js.trimStart 0 s /\
            narrow (Js.trimStart 0 s) = true.
Proof.
  induction s as [|a r IH]; intros N; [now exists ""|].
  cbn [Js.trimStart]. rewrite (narrow_spaceLen a r N).
  destruct (Js.isSpace a) eqn:Sp.
  - destruct (IH (narrow_tail a r N)) as (w & Hw & Hs & Hn).
    exists (String a w). cbn [allChars append]. rewrite Sp, Hw.
    split; [reflexivity|]. split; [now rewrite <- Hs | exact Hn].
  - now exists "".
Qed.

Lemma onlySpaces_narrow (s : string) :
  narrow s = true -> Js.onlySpaces 0 s = allChars Js.isSpace s.
Proof.
  induction s as [|a r IH]; intros N; [reflexivity|].
  cbn [Js.onlySpaces allChars]. rewrite (narrow_spaceLen a r N).
  destruct (Js.isSpace a); [apply IH; now apply narrow_tail in N | reflexivity].
Qed.

Lemma trimEnd_narrow (s : string) :
  narrow s = true ->
  exists w, allChars Js.isSpace w = true /\ s = Js.trimEnd s ++ w.
Proof.
  induction s as [|a r IH]; intros N; [now exists ""|].
  cbn [Js.trimEnd]. rewrite (onlySpaces_narrow _ N).
  destruct (allChars Js.isSpace (String a r)) eqn:A.
  - now exists (String a r).
  - destruct (IH (narrow_tail a r N)) as (w & Hw & Hs).
    exists w. split; [exact Hw|]. cbn [append]. now rewrite <- Hs.
Qed.

Lemma trim_split (s : string) :
  narrow s = true ->
  exists w1 w2, allChars Js.isSpace w1 = true /\ allChars Js.isSpace w2 = true /\
                s = w1 ++ Js.trim s ++ w2.
Proof.
  intros N. unfold Js.trim.
  destruct (trimStart_narrow s N) as (w1 & H1 & E1 & N1).
  destruct (trimEnd_narrow _ N1) as (w2 & H2 & E2).
  exists w1, w2. split; [exact H1|]. split; [exact H2|]. now rewrite <- E2.
Qed.

(** *** Splitting *)

Lemma splitAny_splitBy seps s : Js.splitAny seps s = splitBy (fun a => Js.mem a seps) s.
Proof.
  induction s as [|a s IH]; [reflexivity|]. cbn [Js.splitAny splitBy]. now rewrite IH.
Qed.

Lemma splitBy_cons f s : exists h t, splitBy f s = h :: t.
Proof.
  destruct s as [|a s]; cbn [splitBy]; [now eexists; eexists|].
  destruct (f a); [now eexists; eexists|].
  destruct (splitBy f s); now eexists; eexists.
Qed.

Lemma pieces_cons s : forall k, exists h t, pieces k s = h :: t.
Proof.
  induction s as [|a s IH]; intros k; [now exists "", []|].
  cbn [pieces]. destruct k as [|k]; [|apply IH].
  destruct (sepLen (String a s)); [|now eexists; eexists].
  destruct (IH 0) as (h & t & ->). now eexists; eexists.
Qed.

Lemma splitBy_lead f w t :
  allChars f w = true -> splitBy f (w ++ t) = (repeat "" (String.length w) ++ splitBy f t)%list.
Proof.
  induction w as [|a w IH]; [reflexivity|].
  cbn [allChars append splitBy String.length repeat]. intros H.
  apply andb_prop in H. destruct H as [-> H]. now rewrite (IH H).
Qed.

Lemma splitBy_trail f w :
  allChars f w = true ->
  forall t, splitBy f (t ++ w) = (splitBy f t ++ repeat "" (String.length w))%list.
Proof.
  intros H t. induction t as [|a t IH].
  - cbn [append]. rewrite <- (append_nil_r w) at 1. rewrite (splitBy_lead f w "" H).
    cbn [splitBy]. generalize (String.length w). intros n.
    induction n as [|n IHn]; [reflexivity|]. cbn [repeat]. cbn. cbn in IHn. now rewrite IHn.
  - cbn [append splitBy]. rewrite IH. destruct (f a); [reflexivity|].
    destruct (splitBy_cons f t) as (h & tl & ->). reflexivity.
Qed.

Lemma filter_truthy_blanks n : filter Js.truthy (repeat "" n) = [].
Proof. induction n; cbn; auto. Qed.

Lemma sameWords_filter (l1 l2 : list string) :
  l1 <> [] -> l2 <> [] -> sameWords l1 l2 -> filter Js.truthy l1 = filter Js.truthy l2.
Proof.
  destruct l1 as [|h1 t1]; [contradiction|]. destruct l2 as [|h2 t2]; [contradiction|].
  intros _ _ [H1 H2]. cbn in *. subst. now rewrite H2.
Qed.

Lemma collapse_pieces_filter (s : string) (k : nat) :
  sameWords (splitBy blankOrComma (Js.collapseSpaces k false s)) (pieces k s) ->
  filter Js.truthy (splitBy blankOrComma (Js.collapseSpaces k false s))
  = filter Js.truthy (pieces k s).
Proof.
  destruct (splitBy_cons blankOrComma (Js.collapseSpaces k false s)) as (h1 & t1 & E1).
  destruct (pieces_cons s k) as (h2 & t2 & E2).
  rewrite E1, E2. apply sameWords_filter; discriminate.
Qed.

Lemma collapse_words (s : string) :
  forall k,
    sameWords (splitBy blankOrComma (Js.collapseSpaces k false s)) (pieces k s) /\
    filter Js.truthy (splitBy blankOrComma (Js.collapseSpaces k true s))
    = filter Js.truthy (pieces k s).
Proof.
  induction s as [|a s IH]; intros k; [split; [split|]; reflexivity|].
  cbn [Js.collapseSpaces pieces]. destruct k as [|k]; [|apply IH].
  destruct (Ascii.eqb a ",") eqn:Comma.
  - apply Ascii.eqb_eq in Comma. subst a.
    change (Js.spaceLen (String "," s)) with 0. rewrite sepLen_comma.
    cbn [splitBy]. change (blankOrComma ",") with true. cbv iota.
    pose proof (collapse_pieces_filter s 0 (proj1 (IH 0))) as F.
    split; [split; [reflexivity | exact F]|].
    cbn [filter Js.truthy]. exact F.
  - rewrite (sepLen_other a s Comma).
    destruct (Js.spaceLen (String a s)) as [|j] eqn:SL.
    + destruct (spaceLen_zero a s SL) as [Sp _].
      assert (Bc : blankOrComma a = false).
      { unfold blankOrComma. cbn [Js.mem]. rewrite Comma, !orb_false_r.
        destruct (Ascii.eqb_spec a " "); [subst; discriminate Sp | reflexivity]. }
      cbn [splitBy]. rewrite Bc.
      destruct (splitBy_cons blankOrComma (Js.collapseSpaces 0 false s)) as (h1 & t1 & E1).
      destruct (pieces_cons s 0) as (h2 & t2 & E2).
      destruct (IH 0) as [[H1 H2] _]. rewrite E1, E2 in *. cbn in H1, H2. subst h2.
      split; [split; [reflexivity | exact H2]|].
      cbn [filter Js.truthy]. now rewrite H2.
    + destruct (IH j) as [_ IHt].
      cbn [splitBy]. change (blankOrComma " ") with true. cbv iota. split.
      * split; [reflexivity | exact IHt].
      * exact IHt.
Qed.

Lemma blanks_are_separators w :
  allChars onlyBlanks w = true -> allChars Js.isSpace w = true -> allChars blankOrComma w = true.
Proof.
  induction w as [|a w IH]; [reflexivity|]. cbn [allChars].
  intros H1 H2. apply andb_prop in H1. apply andb_prop in H2.
  destruct H1 as [A1 B1], H2 as [A2 B2]. rewrite (IH B1 B2), andb_true_r.
  unfold onlyBlanks in A1. rewrite A2 in A1. cbn in A1.
  apply Ascii.eqb_eq in A1. now subst.
Qed.

(** The tail of [parseMoves]: split at blanks and commas after collapsing
    and trimming is the same as taking the words. *)
Lemma pipeline_words t :
  filter Js.truthy (Js.splitAny " ," (Js.trim (Js.collapseSpaces 0 false t))) = words t.
Proof.
  set (c := Js.collapseSpaces 0 false t).
  destruct (trim_split c (collapse_narrow t 0 false)) as (w1 & w2 & H1 & H2 & E).
  pose proof (collapse_onlyBlanks t 0 false) as P. fold c in P.
  rewrite E, !allChars_append in P.
  apply andb_prop in P. destruct P as [P1 P]. apply andb_prop in P. destruct P as [_ P2].
  pose proof (blanks_are_separators _ P1 H1) as B1.
  pose proof (blanks_are_separators _ P2 H2) as B2.
  rewrite splitAny_splitBy. fold blankOrComma.
  transitivity (filter Js.truthy (splitBy blankOrComma c)).
  - rewrite E at 2. rewrite (splitBy_lead _ _ _ B1), (splitBy_trail _ _ B2).
    now rewrite !filter_app, !filter_truthy_blanks, app_nil_r.
  - unfold words. apply collapse_pieces_filter. apply collapse_words.
Qed.

(** *** Words *)

Lemma pieces_head (s : string) :
  forall h t, pieces 0 s = h :: t -> Js.startsWith h s = true.
Proof.
  induction s as [|a s IH]; intros h t.
  - cbn. intros H. injection H as <- _. reflexivity.
  - cbn [pieces]. destruct (sepLen (String a s)).
    + destruct (pieces_cons s 0) as (h' & t' & E). rewrite E.
      intros H. injection H as <- _. cbn [Js.startsWith].
      now rewrite Ascii.eqb_refl, (IH h' t' E).
    + intros H. injection H as <- _. reflexivity.
Qed.

Lemma pieces_free (s : string) :
  forall k, Forall (fun t => separatorFree t = true) (pieces k s).
Proof.
  induction s as [|a s IH]; intros k; [now repeat constructor|].
  cbn [pieces]. destruct k as [|k]; [|apply IH].
  destruct (sepLen (String a s)) as [|j] eqn:SL; [|constructor; [reflexivity | apply IH]].
  destruct (pieces_cons s 0) as (h & t & E). specialize (IH 0). rewrite E in *.
  inversion IH as [|x l Hh Ht]; subst. constructor; [|exact Ht].
  cbn [separatorFree]. rewrite Hh, andb_true_r. apply Nat.eqb_eq.
  destruct (sepLen_zero a s SL) as (Se & Sp & W).
  unfold isSeparator in Se. rewrite Sp in Se. cbn [orb] in Se.
  rewrite (sepLen_other a h Se).
  rewrite spaceLen_narrow, Sp; [reflexivity|].
  apply (wideAt_head a h s); [|exact W].
  intros cs _ Hcs. apply startsWith_trans with (h := h); [exact Hcs|].
  now apply pieces_head with (t := t).
Qed.

Lemma separatorFree_bytes (t : string) :
  separatorFree t = true -> allChars (fun a => negb (isSeparator a)) t = true.
Proof.
  induction t as [|a t IH]; [reflexivity|]. cbn [separatorFree allChars].
  intros H. apply andb_prop in H. destruct H as [A B]. apply Nat.eqb_eq in A.
  destruct (sepLen_zero a t A) as (-> & _). now rewrite (IH B).
Qed.

Lemma words_are_words s : Forall (fun t => isWord t = true) (words s).
Proof.
  unfold words. apply Forall_forall. intros t Ht.
  apply filter_In in Ht. destruct Ht as [Hin Ht].
  pose proof (pieces_free s 0) as P.
  rewrite Forall_forall in P. unfold isWord. now rewrite Ht, (P t Hin).
Qed.

Lemma words_blank s : allChars isSeparator s = true -> words s = [].
Proof.
  unfold words. induction s as [|a s IH]; [reflexivity|].
  cbn [allChars pieces]. intros H. apply andb_prop in H. destruct H as [A B].
  rewrite (sepLen_separator a s A). cbn [filter Js.truthy]. now apply IH.
Qed.

Lemma pieces_sep (c : ascii) (y : string) :
  isSeparator c = true ->
  forall x k, k <= String.length x ->
              pieces k (x ++ String c y) = (pieces k x ++ pieces 0 y)%list.
Proof.
  intros Hc. pose proof (separator_ascii c Hc) as Ac.
  induction x as [|a x IH]; intros k Hk.
  - cbn [String.length] in Hk. replace k with 0 by lia.
    cbn [append pieces]. now rewrite (sepLen_separator c y Hc).
  - cbn [String.length] in Hk. destruct k as [|k].
    + change (pieces 0 (String a x ++ String c y))
        with (match sepLen (String a x ++ String c y) with
              | S j => "" :: pieces j (x ++ String c y)
              | 0 => match pieces 0 (x ++ String c y) with
                     | h :: t => String a h :: t
                     | [] => [String a ""]
                     end
              end).
      rewrite (sepLen_boundary a x c y Ac). cbn [pieces].
      pose proof (sepLen_le (String a x)) as Le. cbn [String.length] in Le.
      destruct (sepLen (String a x)) as [|j].
      * rewrite (IH 0) by lia. destruct (pieces_cons x 0) as (h & t & ->). reflexivity.
      * rewrite (IH j) by lia. reflexivity.
    + cbn [append pieces]. apply IH. lia.
Qed.

Lemma words_sep x c y : isSeparator c = true -> words (x ++ String c y) = (words x ++ words y)%list.
Proof.
  intros H. unfold words. rewrite (pieces_sep c y H x 0) by lia. now rewrite filter_app.
Qed.

Lemma pieces_word x : separatorFree x = true -> pieces 0 x = [x].
Proof.
  induction x as [|a x IH]; [reflexivity|]. cbn [separatorFree pieces]. intros H.
  apply andb_prop in H. destruct H as [A B]. apply Nat.eqb_eq in A.
  now rewrite A, (IH B).
Qed.

Lemma words_word x : isWord x = true -> words x = [x].
Proof.
  unfold isWord, words. intros H. apply andb_prop in H. destruct H as [T A].
  rewrite (pieces_word _ A). cbn. now rewrite T.
Qed.

Lemma words_concat tokens :
  Forall (fun t => isWord t = true) tokens -> words (String.concat " " tokens) = tokens.
Proof.
  induction 1 as [|x l Hx Hl IH]; [reflexivity|].
  destruct l as [|y l]; [now apply words_word|].
  change (String.concat " " (x :: y :: l)) with (x ++ String " " (String.concat " " (y :: l))).
  rewrite words_sep by reflexivity. now rewrite IH, (words_word _ Hx).
Qed.

(** *** Move numbers *)

Lemma dropMoveNumbers_no_dot s :
  allChars notDot s = true -> forall pending, dropMoveNumbers pending s = pending ++ s.
Proof.
  induction s as [|c r IH]; intros H pending; [now rewrite append_nil_r|].
  cbn [allChars] in H. apply andb_prop in H. destruct H as [Hc Hr].
  unfold notDot in Hc. apply negb_true_iff in Hc.
  cbn [dropMoveNumbers]. rewrite Hc. cbn [andb].
  destruct (Js.isDigit c).
  - rewrite (IH Hr). now rewrite append_assoc.
  - now rewrite (IH Hr "").
Qed.

Lemma dropMoveNumbers_digits num :
  allChars Js.isDigit num = true ->
  forall pending s, dropMoveNumbers pending (num ++ s) = dropMoveNumbers (pending ++ num) s.
Proof.
  induction num as [|c r IH]; intros H pending s; [now rewrite append_nil_r|].
  cbn [allChars] in H. apply andb_prop in H. destruct H as [Hc Hr].
  cbn [append dropMoveNumbers]. rewrite Hc, (IH Hr). now rewrite append_assoc.
Qed.

Lemma separator_plain c : isSeparator c = true -> Js.isDigit c = false /\ Ascii.eqb c "." = false.
Proof. destruct c as [[] [] [] [] [] [] [] []]; vm_compute; intros H; first [discriminate H | now split]. Qed.

Lemma dropMoveNumbers_sep c b :
  isSeparator c = true ->
  forall n a, String.length a <= n ->
    forall pending,
      dropMoveNumbers pending (a ++ String c b)
      = dropMoveNumbers pending a ++ String c (dropMoveNumbers "" b).
Proof.
  intros Hc. destruct (separator_plain c Hc) as [Dc Pc].
  assert (Base : forall pending,
             dropMoveNumbers pending (String c b) = pending ++ String c (dropMoveNumbers "" b)).
  { intros pending. cbn [dropMoveNumbers]. now rewrite Dc, Pc. }
  induction n as [|n IH]; intros a Ha pending.
  - destruct a; [|cbn in Ha; lia]. cbn [append]. rewrite Base. reflexivity.
  - destruct a as [|x r]; [cbn [append]; now rewrite Base|].
    cbn [String.length] in Ha.
    assert (Hr : String.length r <= n) by lia.
    cbn [append dropMoveNumbers].
    destruct (Js.isDigit x); [now apply IH|].
    destruct (Ascii.eqb x "." && Js.truthy pending).
    + cbn [append]. f_equal.
      destruct r as [|c1 [|c2 r2]].
      * cbn [append]. destruct b; rewrite ?Pc; cbn [andb]; now rewrite (Base "").
      * cbn [append]. rewrite Pc, andb_false_r.
        exact (IH (String c1 "") Hr "").
      * cbn [append]. destruct (Ascii.eqb c1 "." && Ascii.eqb c2 ".").
        -- apply IH. cbn [String.length] in Hr. lia.
        -- exact (IH (String c1 (String c2 r2)) Hr "").
    + rewrite (IH r Hr ""). now rewrite append_assoc.
Qed.

(** X1.  [parseMoves] returns the words of the text once move numbers have
    been replaced by a blank: collapsing white space, trimming and dropping
    the empty pieces of the split add nothing to taking the maximal runs of
    characters other than commas and white space, of one byte or more. *)
Theorem parseMoves_takes_words (s : string) :
  parseMoves s = words (dropMoveNumbers "" s).
Proof. unfold parseMoves. apply pipeline_words. Qed.

(** X2.  No token of [parseMoves] is empty, and none contains white space
    or a comma: no separator of one byte, and no white-space character of
    more. *)
Theorem parseMoves_tokens (s : string) :
  Forall (fun t => t <> "" /\ allChars (fun a => negb (isSeparator a)) t = true /\
                   separatorFree t = true)
    (parseMoves s).
Proof.
  unfold parseMoves. rewrite pipeline_words.
  eapply Forall_impl; [|apply words_are_words].
  intros t H. unfold isWord in H. apply andb_prop in H. destruct H as [T A].
  split; [intros ->; discriminate T|]. split; [now apply separatorFree_bytes | exact A].
Qed.

Lemma separators_no_dot (s : string) :
  allChars isSeparator s = true -> allChars notDot s = true.
Proof.
  induction s as [|a s IH]; [reflexivity|]. cbn [allChars]. intros H.
  apply andb_prop in H. destruct H as [A B].
  destruct (separator_plain a A) as [_ D]. unfold notDot at 1. now rewrite D, (IH B).
Qed.

Lemma parseMoves_blank (s : string) : allChars isSeparator s = true -> parseMoves s = [].
Proof.
  intros H. unfold parseMoves. rewrite pipeline_words.
  rewrite (dropMoveNumbers_no_dot s (separators_no_dot s H) "").
  now apply words_blank.
Qed.

Lemma concat_no_dot (tokens : list string) :
  Forall (fun t => isPlainWord t = true) tokens ->
  allChars notDot (String.concat " " tokens) = true /\
  Forall (fun t => isWord t = true) tokens.
Proof.
  induction 1 as [|x l Hx Hl [IH1 IH2]]; [now split|].
  unfold isPlainWord in Hx. apply andb_prop in Hx. destruct Hx as [W D].
  split; [|now constructor].
  destruct l as [|y l]; [exact D|].
  change (String.concat " " (x :: y :: l)) with (x ++ String " " (String.concat " " (y :: l))).
  rewrite allChars_append, D. cbn [allChars andb]. exact IH1.
Qed.

(** X4.  Round trip: words without a period, joined by single blanks, are
    given back as they are.  A word is a text that is not empty and holds no
    comma and no white-space character, of one byte or more. *)
Theorem parseMoves_round_trip (tokens : list string) :
  Forall (fun t => isPlainWord t = true) tokens ->
  parseMoves (String.concat " " tokens) = tokens.
Proof.
  intros H. destruct (concat_no_dot tokens H) as [D W].
  unfold parseMoves. rewrite pipeline_words.
  rewrite (dropMoveNumbers_no_dot _ D ""). now apply words_concat.
Qed.

Lemma words_after_blank (s : string) : words (String " " s) = words s.
Proof. reflexivity. Qed.

(** X5.  A move number at the head of the text is dropped: digits followed
    by three periods always, digits followed by one period when the text
    does not go on with two more. *)
Theorem parseMoves_drops_move_numbers (num rest : string) :
  num <> "" ->
  allChars Js.isDigit num = true ->
  parseMoves (num ++ "..." ++ rest) = parseMoves rest /\
  (prefix ".." rest = false -> parseMoves (num ++ "." ++ rest) = parseMoves rest).
Proof.
  intros Hn Hd.
  assert (T : Js.truthy num = true) by (destruct num; [contradiction | reflexivity]).
  assert (Dot : forall r,
             dropMoveNumbers "" (num ++ String "." r)
             = String " "
                 (match r with
                  | String c1 (String c2 r2) =>
                      if Ascii.eqb c1 "." && Ascii.eqb c2 "."
                      then dropMoveNumbers "" r2
                      else dropMoveNumbers "" r
                  | _ => dropMoveNumbers "" r
                  end)).
  { intros r. rewrite (dropMoveNumbers_digits num Hd "" _). cbn [append dropMoveNumbers].
    change (Js.isDigit ".") with false. change (Ascii.eqb "." ".") with true.
    now rewrite T. }
  unfold parseMoves. rewrite !pipeline_words. split.
  - change (num ++ "..." ++ rest) with (num ++ String "." (String "." (String "." rest))).
    rewrite Dot. cbn [Ascii.eqb andb]. change (Ascii.eqb "." ".") with true. cbn [andb].
    apply words_after_blank.
  - intros P. change (num ++ "." ++ rest) with (num ++ String "." rest).
    rewrite Dot, words_after_blank.
    destruct rest as [|c1 [|c2 r2]]; try reflexivity.
    destruct (Ascii.eqb_spec c1 "."); [|reflexivity].
    destruct (Ascii.eqb_spec c2 "."); [|reflexivity].
    subst.
    assert (X : prefix ".." (String "." (String "." r2)) = true)
      by (apply prefix_correct; destruct r2; reflexivity).
    congruence.
Qed.

(** X6.  A separator of one byte cuts the text in two independent halves:
    the tokens of the whole are the tokens of the part before it followed by
    the tokens of the part after it. *)
Theorem parseMoves_splits_at_separators (a : string) (c : ascii) (b : string) :
  isSeparator c = true ->
  parseMoves (a ++ String c b) = (parseMoves a ++ parseMoves b)%list.
Proof.
  intros H. unfold parseMoves. rewrite !pipeline_words.
  rewrite (dropMoveNumbers_sep c b H (String.length a) a (le_n _) "").
  now apply words_sep.
Qed.

(** ** The session *)

Section RestOfComponent.
Context `{E : RulesEngine}.

Lemma advanced_frame (es : list string) (s q : State) (f played : string) :
  orientation (advanced es s q f played) = orientation q.
Proof. unfold advanced. now destruct (Nat.eqb _ _). Qed.

Lemma handle_labels (es : list string) (s : State) (ev : Event) :
  labels (puzzle (handle es s ev)) = labels (puzzle s) /\
  orientation (handle es s ev) = orientation s.
Proof.
  destruct ev as [a b| | | | |text|moves| |]; cbn [handle].
  - destruct (drop_cases es s a b) as [-> | [-> | (p & e & mv & p' & _ & _ & _ & _ & ->)]];
      [now split | now split |].
    destruct (advanced_cells es s s (fen_of p') (san mv)) as (Hp & _).
    cbn zeta in Hp. split.
    + change (puzzle (setArrows [] (advanced es s s (fen_of p') (san mv))))
        with (puzzle (advanced es s s (fen_of p') (san mv))). now rewrite Hp.
    + change (orientation (setArrows [] (advanced es s s (fen_of p') (san mv))))
        with (orientation (advanced es s s (fen_of p') (san mv))). apply advanced_frame.
  - destruct (showHint_cases es s s) as [-> | [ar ->]]; now split.
  - now rewrite undo_unchanged.
  - now split.
  - destruct (solved s); [now split|].
    destruct (playExpectedMove_cases es s s) as [-> | (p & e & mv & p' & _ & _ & _ & ->)];
      [now split|].
    destruct (advanced_cells es s s (fen_of p') (san mv)) as (Hp & _).
    cbn zeta in Hp. rewrite Hp. split; [reflexivity | apply advanced_frame].
  - destruct (Js.truthy text); [|now split].
    unfold onLoad. destruct (newChess text); now split.
  - unfold onLoadSolution. destruct (toSanSequence _ _); now split.
  - unfold loadDemo, onLoad, onLoadSolution. cbn [fst].
    destruct (newChess _); destruct (toSanSequence _ _); now split.
  - unfold timerFires. destruct (timers s); now split.
Qed.

Lemma reachable_labels (cfg : PuzzleConfig.t) (s : State) :
  Reachable cfg s ->
  labels (puzzle s) = labels cfg /\ orientation s = orientation (initialState cfg).
Proof.
  induction 1 as [|s ev s' R [IH1 IH2] D]; [now split|].
  destruct (dispatch_inv _ _ _ D) as (es & p & _ & _ & ->).
  destruct (handle_labels es s ev) as [H1 H2]. split; congruence.
Qed.

(** X9.  No event changes the title, the subtitle, the configured
    orientation or the coach notes of the puzzle, nor the orientation of
    the board: a loaded position or solution keeps the labels and notes of
    the puzzle the component was mounted with. *)
Theorem labels_never_change (cfg : PuzzleConfig.t) (s : State) :
  Reachable cfg s ->
  PuzzleConfig.title (puzzle s) = PuzzleConfig.title cfg /\
  PuzzleConfig.subtitle (puzzle s) = PuzzleConfig.subtitle cfg /\
  PuzzleConfig.orientation (puzzle s) = PuzzleConfig.orientation cfg /\
  PuzzleConfig.coachNotes (puzzle s) = PuzzleConfig.coachNotes cfg /\
  orientation s = orientation (initialState cfg).
Proof.
  intros R. destruct (reachable_labels cfg s R) as [H1 H2].
  unfold labels in H1. injection H1 as -> -> -> ->. repeat split. exact H2.
Qed.

(** X8.  In a reachable state, reset puts the board on the start position
    of the active puzzle with ply 0 and an empty log, lowers [wrong] and
    [solved], removes the arrows and keeps puzzle, orientation and pending
    timers.  Resetting twice is resetting once, and with the mounted puzzle
    still active and no timer pending the result is the initial state. *)
Theorem reset_returns_to_start (cfg : PuzzleConfig.t) (s : State) :
  Reachable cfg s ->
  reset s s
  = mkState (puzzle s) (PuzzleConfig.fen (puzzle s)) (orientation (initialState cfg))
      0 false [] false [] (timers s) /\
  reset (reset s s) (reset s s) = reset s s /\
  (puzzle s = cfg -> timers s = 0 -> reset s s = initialState cfg).
Proof.
  intros R. destruct (reachable_labels cfg s R) as [_ Ho].
  assert (X : reset s s
              = mkState (puzzle s) (PuzzleConfig.fen (puzzle s))
                  (orientation (initialState cfg)) 0 false [] false [] (timers s)).
  { rewrite <- Ho. reflexivity. }
  split; [exact X|]. split; [reflexivity|].
  intros Hp Ht. rewrite X, Hp, Ht. reflexivity.
Qed.

(** *** The wrong flag and its timers *)

Lemma handle_wrong_pending (es : list string) (s : State) (ev : Event) :
  (wrong s = true -> 0 < timers s) ->
  wrong (handle es s ev) = true -> 0 < timers (handle es s ev).
Proof.
  intros I. destruct ev as [a b| | | | |text|moves| |]; cbn [handle].
  - destruct (drop_cases es s a b) as [-> | [-> | (p & e & mv & p' & _ & _ & _ & _ & ->)]];
      [exact I | cbn; lia |].
    destruct (advanced_cells es s s (fen_of p') (san mv)) as (_ & _ & _ & _ & _ & Hw & Ht & _).
    cbn zeta in Hw, Ht. cbn [wrong timers setArrows]. now rewrite Hw, Ht.
  - destruct (showHint_cases es s s) as [-> | [ar ->]]; exact I.
  - now rewrite undo_unchanged.
  - cbn. discriminate.
  - destruct (solved s); [exact I|].
    destruct (playExpectedMove_cases es s s) as [-> | (p & e & mv & p' & _ & _ & _ & ->)];
      [exact I|].
    destruct (advanced_cells es s s (fen_of p') (san mv)) as (_ & _ & _ & _ & _ & Hw & Ht & _).
    cbn zeta in Hw, Ht. now rewrite Hw, Ht.
  - destruct (Js.truthy text); [|exact I].
    unfold onLoad. destruct (newChess text); [cbn; discriminate | exact I].
  - unfold onLoadSolution. destruct (toSanSequence _ _); [cbn; discriminate | exact I].
  - unfold loadDemo, onLoad, onLoadSolution. cbn [fst].
    destruct (newChess _); destruct (toSanSequence _ _); cbn [fst]; try (cbn; discriminate).
    exact I.
  - unfold timerFires. destruct (timers s) eqn:K; [|cbn; discriminate].
    first [exact I | rewrite K; exact I | rewrite K in I; exact I].
Qed.

Lemma reachable_wrong_pending (cfg : PuzzleConfig.t) (s : State) :
  Reachable cfg s -> wrong s = true -> 0 < timers s.
Proof.
  induction 1 as [|s ev s' R IH D]; [discriminate|].
  destruct (dispatch_inv _ _ _ D) as (es & p & _ & _ & ->).
  now apply handle_wrong_pending.
Qed.

Lemma timers_fire (n : nat) :
  forall s, n <= timers s ->
    timers (Nat.iter n timerFires s) = timers s - n /\
    (0 < n -> wrong (Nat.iter n timerFires s) = false) /\
    puzzle (Nat.iter n timerFires s) = puzzle s /\ fen (Nat.iter n timerFires s) = fen s /\
    ply (Nat.iter n timerFires s) = ply s /\ solved (Nat.iter n timerFires s) = solved s /\
    coach (Nat.iter n timerFires s) = coach s /\ arrows (Nat.iter n timerFires s) = arrows s /\
    orientation (Nat.iter n timerFires s) = orientation s.
Proof.
  induction n as [|n IH]; intros s Hn.
  - cbn. repeat split; try reflexivity; intros; lia.
  - rewrite !Nat.iter_succ.
    destruct (IH s) as (Ht & _ & Hp & Hf & Hy & Hs & Hc & Ha & Ho); [lia|].
    remember (Nat.iter n timerFires s) as x eqn:X. clear X.
    unfold timerFires. destruct (timers x) as [|k] eqn:K; [lia|].
    cbn [timers wrong puzzle fen ply solved coach arrows orientation].
    repeat split; intros; try assumption; try reflexivity; lia.
Qed.

(** X10.  In a reachable state a raised [wrong] always has a clearing
    timer pending; once the pending timers have fired, [wrong] is down, no
    timer is left, and every other cell is as before. *)
Theorem wrong_is_transient (cfg : PuzzleConfig.t) (s : State) :
  Reachable cfg s ->
  (wrong s = true -> 0 < timers s) /\
  wrong (fireAll s) = false /\ timers (fireAll s) = 0 /\
  puzzle (fireAll s) = puzzle s /\ fen (fireAll s) = fen s /\ ply (fireAll s) = ply s /\
  solved (fireAll s) = solved s /\ coach (fireAll s) = coach s /\
  arrows (fireAll s) = arrows s /\ orientation (fireAll s) = orientation s.
Proof.
  intros R. pose proof (reachable_wrong_pending cfg s R) as I.
  destruct (timers_fire (timers s) s (le_n _)) as (Ht & Hw & Hp & Hf & Hy & Hs & Hc & Ha & Ho).
  unfold fireAll. split; [exact I|]. split; [|repeat split; try assumption; lia].
  destruct (timers s) as [|k] eqn:K.
  - cbn. destruct (wrong s); [specialize (I eq_refl); lia | reflexivity].
  - apply Hw. lia.
Qed.

(** X11.  A raised [wrong] is lowered only by its timer, by reset and by
    the loaders: a move accepted in the meantime, a coach move, a hint or
    undo leave it up. *)
Theorem only_timer_reset_load_clear_wrong (es : list string) (s : State) (ev : Event) :
  wrong s = true ->
  wrong (handle es s ev) = false ->
  ev = TimerFires \/ restartsLine ev = true.
Proof.
  intros W. destruct ev as [a b| | | | |text|moves| |]; cbn [handle restartsLine]; auto.
  - destruct (drop_cases es s a b) as [-> | [-> | (p & e & mv & p' & _ & _ & _ & _ & ->)]];
      [congruence | cbn; discriminate |].
    destruct (advanced_cells es s s (fen_of p') (san mv)) as (_ & _ & _ & _ & _ & Hw & _).
    cbn zeta in Hw. cbn [wrong setArrows]. rewrite Hw. congruence.
  - destruct (showHint_cases es s s) as [-> | [ar ->]]; cbn [wrong setArrows]; congruence.
  - rewrite undo_unchanged. congruence.
  - destruct (solved s); [congruence|].
    destruct (playExpectedMove_cases es s s) as [-> | (p & e & mv & p' & _ & _ & _ & ->)];
      [congruence|].
    destruct (advanced_cells es s s (fen_of p') (san mv)) as (_ & _ & _ & _ & _ & Hw & _).
    cbn zeta in Hw. rewrite Hw. congruence.
Qed.

(** *** Hints *)

Lemma showHint_uniform (es : list string) (s : State) :
  (forall q, showHint es s q = q) \/
  (exists p e mv p',
      load (fen s) = Some p /\ nth_error es (ply s) = Some e /\
      move_san p e = Some (mv, p') /\
      forall q, showHint es s q = setArrows [(from mv, to mv)] q).
Proof.
  unfold showHint, newChess.
  destruct (load (fen s)) as [p|]; [|now left].
  destruct (nth_error es (ply s)) as [e|]; [|now left].
  unfold moveSan, pushMove. cbn [current].
  destruct (move_san p e) as [[mv p']|] eqn:M; [|now left].
  right. exists p, e, mv, p'. now repeat split.
Qed.

(** X12.  The hint changes nothing but the arrows, which it leaves alone
    or replaces by a single arrow; at the end of the line it does nothing,
    and asking twice is asking once. *)
Theorem showHint_is_read_only (es : list string) (s q : State) :
  (puzzle (showHint es s q) = puzzle q /\ fen (showHint es s q) = fen q /\
   orientation (showHint es s q) = orientation q /\ ply (showHint es s q) = ply q /\
   wrong (showHint es s q) = wrong q /\ solved (showHint es s q) = solved q /\
   coach (showHint es s q) = coach q /\ timers (showHint es s q) = timers q) /\
  (arrows (showHint es s q) = arrows q \/ List.length (arrows (showHint es s q)) = 1) /\
  (List.length es <= ply s -> showHint es s q = q) /\
  handle es (handle es s ClickHint) ClickHint = handle es s ClickHint.
Proof.
  split; [|split; [|split]].
  - destruct (showHint_uniform es s) as [H | (p & e & mv & p' & _ & _ & _ & H)];
      rewrite H; repeat split.
  - destruct (showHint_uniform es s) as [H | (p & e & mv & p' & _ & _ & _ & H)];
      rewrite H; [now left | now right].
  - intros Hl. apply nth_error_None in Hl.
    destruct (showHint_uniform es s) as [H | (p & e & mv & p' & _ & Ne & _ & _)];
      [apply H | congruence].
  - cbn [handle].
    assert (Snap : forall s1 s2 q0, fen s1 = fen s2 -> ply s1 = ply s2 ->
                                    showHint es s1 q0 = showHint es s2 q0).
    { intros s1 s2 q0 Hf Hp. unfold showHint. now rewrite Hf, Hp. }
    destruct (showHint_uniform es s) as [H | (p & e & mv & p' & _ & _ & _ & H)].
    + now rewrite !H.
    + rewrite (Snap (showHint es s s) s); [|now rewrite H|now rewrite H].
      now rewrite !H.
Qed.

Lemma handle_arrows (es : list string) (s : State) (ev : Event) :
  List.length (arrows s) <= 1 -> List.length (arrows (handle es s ev)) <= 1.
Proof.
  intros I. destruct ev as [a b| | | | |text|moves| |]; cbn [handle].
  - destruct (drop_cases es s a b) as [-> | [-> | (p & e & mv & p' & _ & _ & _ & _ & ->)]];
      [exact I | exact I | cbn; lia].
  - destruct (showHint_uniform es s) as [H | (p & e & mv & p' & _ & _ & _ & H)];
      rewrite H; [exact I | cbn; lia].
  - now rewrite undo_unchanged.
  - cbn. lia.
  - destruct (solved s); [exact I|].
    destruct (playExpectedMove_cases es s s) as [-> | (p & e & mv & p' & _ & _ & _ & ->)];
      [exact I|].
    destruct (advanced_cells es s s (fen_of p') (san mv)) as (_ & _ & _ & _ & _ & _ & _ & Ha).
    cbn zeta in Ha. now rewrite Ha.
  - destruct (Js.truthy text); [|exact I].
    unfold onLoad. destruct (newChess text); exact I.
  - unfold onLoadSolution. destruct (toSanSequence _ _); [cbn; lia | exact I].
  - unfold loadDemo, onLoad, onLoadSolution. cbn [fst].
    destruct (newChess _); destruct (toSanSequence _ _); cbn [fst]; try (cbn; lia); exact I.
  - unfold timerFires. destruct (timers s); exact I.
Qed.

(** X13.  A reachable state never holds more than one arrow. *)
Theorem at_most_one_arrow (cfg : PuzzleConfig.t) (s : State) :
  Reachable cfg s -> List.length (arrows s) <= 1.
Proof.
  induction 1 as [|s ev s' R IH D]; [cbn; lia|].
  destruct (dispatch_inv _ _ _ D) as (es & p & _ & _ & ->).
  now apply handle_arrows.
Qed.

(** *** At the end of the line *)

(** X14.  When the ply index has reached the length of the expected line,
    as it has from the start with an empty line, no event but reset and the
    loaders changes puzzle, board, ply, log or [solved].  [onDrop] accepts no
    move there: a legal one is answered [false] and raises [wrong], any other
    makes it throw.  In a reachable solved state the hint, undo and the coach
    button leave the whole state as it is. *)
Theorem end_of_line_is_frozen (es : list string) (s : State) (ev : Event) :
  List.length es <= ply s ->
  restartsLine ev = false ->
  (puzzle (handle es s ev) = puzzle s /\ fen (handle es s ev) = fen s /\
   ply (handle es s ev) = ply s /\ coach (handle es s ev) = coach s /\
   solved (handle es s ev) = solved s) /\
  (forall q a b,
      (exists e, onDrop es s q a b = Js.Throw e) \/
      onDrop es s q a b = Js.Ok (setTimeout (setWrong true q), false)) /\
  (forall q a b p mv p',
      load (fen s) = Some p -> move_obj p a b (Some "q"%char) = Some (mv, p') ->
      onDrop es s q a b = Js.Ok (setTimeout (setWrong true q), false)) /\
  (forall cfg, Reachable cfg s -> expectedSequence s = Js.Ok es -> solved s = true ->
               handle es s ClickHint = s /\ handle es s ClickUndo = s /\
               handle es s ClickPlayCoach = s).
Proof.
  intros End NR.
  assert (None_ : nth_error es (ply s) = None) by now apply nth_error_None.
  assert (Drop : forall q a b,
             (exists e, onDrop es s q a b = Js.Throw e) \/
             onDrop es s q a b = Js.Ok (setTimeout (setWrong true q), false)).
  { intros q a b.
    destruct (onDrop_cases es s q a b)
      as [H | [(p & mv & p' & _ & _ & H) | (p & e & mv & p' & _ & Ne & _)]];
      [now left | now right | congruence]. }
  assert (Hint : forall q, showHint es s q = q).
  { intros q. destruct (showHint_uniform es s) as [H | (p & e & mv & p' & _ & Ne & _)];
      [apply H | congruence]. }
  split; [|split; [|split]].
  - destruct ev as [a b| | | | |text|moves| |]; cbn [handle]; try discriminate NR.
    + destruct (drop_cases es s a b) as [-> | [-> | (p & e & mv & p' & _ & Ne & _)]];
        [now repeat split | now repeat split | congruence].
    + rewrite Hint. now repeat split.
    + rewrite undo_unchanged. now repeat split.
    + destruct (solved s) eqn:Hs; [repeat split; exact Hs|].
      rewrite (playExpectedMove_finished es s s End). repeat split; exact Hs.
    + unfold timerFires. destruct (timers s); now repeat split.
  - exact Drop.
  - intros q a b p mv p' L M. rewrite (onDrop_legal es s q a b p mv p' L M).
    now rewrite None_.
  - intros cfg R He Hs. cbn [handle]. split; [apply Hint|].
    split; [apply undo_unchanged | now rewrite Hs].
Qed.

(** *** Prefixes and extensions of a solution list *)

Lemma mapTokens_extend (a b : list string) :
  forall (clone : Chess) (e : Js.exn),
    mapTokens clone a = Js.Throw e -> mapTokens clone (a ++ b)%list = Js.Throw e.
Proof.
  induction a as [|t a IH]; intros clone e; [discriminate|].
  cbn [mapTokens app]. destruct (sanOfToken clone t) as [r|e0]; cbn [Js.bind]; [|auto].
  destruct (mapTokens (snd r) a) as [out|e1] eqn:M; cbn [Js.bind]; [discriminate|].
  intros H. injection H as <-. now rewrite (IH _ _ M).
Qed.

Lemma mapTokens_prefix (a b : list string) :
  forall (clone : Chess) (out : list string),
    mapTokens clone (a ++ b)%list = Js.Ok out ->
    mapTokens clone a = Js.Ok (firstn (List.length a) out).
Proof.
  induction a as [|t a IH]; intros clone out; [reflexivity|].
  cbn [mapTokens app List.length]. destruct (sanOfToken clone t) as [r|e0]; cbn [Js.bind];
    [|discriminate].
  destruct (mapTokens (snd r) (a ++ b)%list) as [out'|e1] eqn:M; cbn [Js.bind]; [|discriminate].
  intros H. injection H as <-. now rewrite (IH _ _ M).
Qed.

(** X7.  A solution list that normalizes does so on every prefix, with
    the corresponding prefix of the output; a list that fails keeps failing
    with the same error however it is extended. *)
Theorem toSanSequence_prefixes (initialFen : string) (a b : list string) :
  (forall out, toSanSequence initialFen (a ++ b)%list = Js.Ok out ->
               toSanSequence initialFen a = Js.Ok (firstn (List.length a) out)) /\
  (forall e, toSanSequence initialFen a = Js.Throw e ->
             toSanSequence initialFen (a ++ b)%list = Js.Throw e).
Proof.
  unfold toSanSequence. destruct (newChess initialFen) as [clone|].
  - split; intros x; [apply mapTokens_prefix | apply mapTokens_extend].
  - split; [discriminate | auto].
Qed.

(** *** The loaders and the next render *)

(** X15.  Load Demo always installs the demo position and restarts the
    line, but it checks the demo solution against the start position of the
    puzzle of the render it was clicked in: when the solution normalizes
    from there it is installed without alert, otherwise the previous
    solution stays beside the demo position and the solution alert is
    raised. *)
Theorem loadDemo_checks_the_render (s q : State) (pd : Position) :
  load (PuzzleConfig.fen DEFAULT_PUZZLE) = Some pd ->
  (forall out,
      toSanSequence (PuzzleConfig.fen (puzzle s)) (PuzzleConfig.solution DEFAULT_PUZZLE)
      = Js.Ok out ->
      snd (loadDemo s q) = [] /\
      puzzle (fst (loadDemo s q))
      = PuzzleConfig.withSolution (PuzzleConfig.solution DEFAULT_PUZZLE)
          (PuzzleConfig.withFen (PuzzleConfig.fen DEFAULT_PUZZLE) (puzzle q)) /\
      fen (fst (loadDemo s q)) = PuzzleConfig.fen DEFAULT_PUZZLE /\
      ply (fst (loadDemo s q)) = 0 /\ solved (fst (loadDemo s q)) = false /\
      coach (fst (loadDemo s q)) = []) /\
  (forall e,
      toSanSequence (PuzzleConfig.fen (puzzle s)) (PuzzleConfig.solution DEFAULT_PUZZLE)
      = Js.Throw e ->
      snd (loadDemo s q) = ["Invalid solution list (use SAN like Qg7# or UCI like f7g7)"] /\
      puzzle (fst (loadDemo s q))
      = PuzzleConfig.withFen (PuzzleConfig.fen DEFAULT_PUZZLE) (puzzle q) /\
      PuzzleConfig.solution (puzzle (fst (loadDemo s q))) = PuzzleConfig.solution (puzzle q) /\
      fen (fst (loadDemo s q)) = PuzzleConfig.fen DEFAULT_PUZZLE /\
      ply (fst (loadDemo s q)) = 0 /\ solved (fst (loadDemo s q)) = false /\
      coach (fst (loadDemo s q)) = []).
Proof.
  intros L. unfold loadDemo, onLoad, onLoadSolution, newChess. rewrite L. cbn [fst snd].
  split; intros x T; rewrite T; cbn; repeat split.
Qed.

(** X16.  After Load FEN with a position the engine reads, the puzzle has
    the new start position and its old solution, and the component renders
    again exactly when that solution normalizes from the new position; when
    it does not, no later event is handled. *)
Theorem loadFen_survives_iff (es : list string) (s : State) (fenText : string) (p : Position) :
  Js.truthy fenText = true ->
  load fenText = Some p ->
  puzzle (handle es s (ClickLoadFen fenText)) = PuzzleConfig.withFen fenText (puzzle s) /\
  rendered (handle es s (ClickLoadFen fenText))
  = match toSanSequence fenText (PuzzleConfig.solution (puzzle s)) with
    | Js.Ok es' => Some es'
    | Js.Throw _ => None
    end /\
  (forall e ev evs,
      toSanSequence fenText (PuzzleConfig.solution (puzzle s)) = Js.Throw e ->
      run (handle es s (ClickLoadFen fenText)) (ev :: evs) = None).
Proof.
  intros T L. cbn [handle]. rewrite T. unfold onLoad, newChess. rewrite L. cbn [fst].
  assert (R : forall q, puzzle q = PuzzleConfig.withFen fenText (puzzle s) -> fen q = fenText ->
                        rendered q
                        = match toSanSequence fenText (PuzzleConfig.solution (puzzle s)) with
                          | Js.Ok es' => Some es'
                          | Js.Throw _ => None
                          end).
  { intros q Hp Hf. unfold rendered, expectedSequence, newChess. rewrite Hp, Hf, L. cbn.
    now destruct (toSanSequence fenText _). }
  split; [reflexivity|]. split; [now apply R|].
  intros e ev evs H. cbn [run]. unfold dispatch. rewrite R by reflexivity. now rewrite H.
Qed.

Lemma rendered_inv (s : State) (es : list string) :
  rendered s = Some es ->
  expectedSequence s = Js.Ok es /\ exists p0 p1,
    load (PuzzleConfig.fen (puzzle s)) = Some p0 /\ load (fen s) = Some p1.
Proof.
  unfold rendered, expectedSequence, toSanSequence, newChess.
  destruct (load (PuzzleConfig.fen (puzzle s))) as [p0|] eqn:L0; [|discriminate].
  destruct (mapTokens _ _) as [out|]; [|discriminate].
  destruct (load (fen s)) as [p1|]; [|discriminate].
  intros H. injection H as <-. split; [reflexivity|]. now exists p0, p1.
Qed.

(** X17.  From any rendered state a new puzzle is loaded by three clicks:
    Load Solution on an empty box, Load FEN on the new position, Load
    Solution on the new moves.  The component renders after each, and the
    final session is the fresh session of the new puzzle. *)
Theorem load_in_three_steps (s : State) (es : list string) (fenText moves : string)
    (p : Position) (es' : list string) :
  rendered s = Some es ->
  Js.truthy fenText = true ->
  load fenText = Some p ->
  toSanSequence fenText (parseMoves moves) = Js.Ok es' ->
  exists s',
    run s [ClickLoadSolution ""; ClickLoadFen fenText; ClickLoadSolution moves] = Some s' /\
    puzzle s' = PuzzleConfig.withSolution (parseMoves moves)
                  (PuzzleConfig.withFen fenText (puzzle s)) /\
    fen s' = fenText /\ ply s' = 0 /\ solved s' = false /\ wrong s' = false /\
    coach s' = [] /\ arrows s' = [] /\
    rendered s' = Some es'.
Proof.
  intros R T L N.
  destruct (rendered_inv s es R) as (He & p0 & p1 & L0 & L1).
  assert (Empty : forall f q, load f = Some q -> toSanSequence f [] = Js.Ok []).
  { intros f q Hq. unfold toSanSequence, newChess. now rewrite Hq. }
  cbn [run]. unfold dispatch at 1. rewrite R.
  (* first click: the empty list always normalizes *)
  cbn [handle]. change (parseMoves "") with (@nil string).
  unfold onLoadSolution at 1. rewrite (Empty _ _ L0). cbn [fst].
  set (s1 := setArrows [] (setCoach (fun _ => []) (setWrong false (setSolved false
               (setPly 0 (setPuzzle (PuzzleConfig.withSolution []) s)))))).
  assert (R1 : rendered s1 = Some []).
  { unfold rendered, expectedSequence, newChess. cbn. rewrite (Empty _ _ L0), L1. reflexivity. }
  unfold dispatch at 1. rewrite R1.
  (* second click *)
  cbn [handle]. rewrite T. unfold onLoad at 1. unfold newChess at 1. rewrite L. cbn [fst].
  set (s2 := setCoach (fun _ => []) (setWrong false (setSolved false (setPly 0
               (setFen fenText (setPuzzle (PuzzleConfig.withFen fenText) s1)))))).
  assert (R2 : rendered s2 = Some []).
  { unfold rendered, expectedSequence, newChess. cbn. rewrite (Empty _ _ L), L. reflexivity. }
  unfold dispatch at 1. rewrite R2.
  (* third click *)
  cbn [handle]. unfold onLoadSolution at 1.
  change (PuzzleConfig.fen (puzzle s2)) with fenText. rewrite N. cbn [fst].
  eexists. split; [reflexivity|].
  cbn. repeat split.
  unfold rendered, expectedSequence, newChess. cbn. now rewrite N, L.
Qed.

(** X3.  A solution box that holds only white space and commas yields no
    token, and Load Solution accepts it without alert in every rendered
    state: the puzzle keeps its start position with an empty line, the
    session restarts with the board where it was, and the component renders
    with an expected sequence of length 0. *)
Theorem blank_solution_is_accepted (es : list string) (s : State) (moves : string) :
  rendered s = Some es ->
  allChars isSeparator moves = true ->
  parseMoves moves = [] /\
  snd (onLoadSolution s s (parseMoves moves)) = None /\
  puzzle (handle es s (ClickLoadSolution moves)) = PuzzleConfig.withSolution [] (puzzle s) /\
  fen (handle es s (ClickLoadSolution moves)) = fen s /\
  ply (handle es s (ClickLoadSolution moves)) = 0 /\
  solved (handle es s (ClickLoadSolution moves)) = false /\
  coach (handle es s (ClickLoadSolution moves)) = [] /\
  rendered (handle es s (ClickLoadSolution moves)) = Some [].
Proof.
  intros R B. destruct (rendered_inv s es R) as (_ & p0 & p1 & L0 & L1).
  assert (Empty : toSanSequence (PuzzleConfig.fen (puzzle s)) [] = Js.Ok []).
  { unfold toSanSequence, newChess. now rewrite L0. }
  split; [now apply parseMoves_blank|].
  cbn [handle]. rewrite (parseMoves_blank moves B).
  unfold onLoadSolution. rewrite Empty. cbn [fst snd].
  repeat split. unfold rendered, expectedSequence, newChess. cbn.
  now rewrite Empty, L1.
Qed.

Lemma coachText_visible (p : PuzzleConfig.t) (i : nat) (fallback : string) :
  fallback <> "" -> coachText p i fallback <> "".
Proof.
  intros H. unfold coachText.
  destruct (PuzzleConfig.coachNotes p) as [notes|]; [|exact H].
  destruct (nth_error notes i) as [note|]; [|exact H].
  destruct note; [exact H | discriminate].
Qed.

Lemma handle_texts (es : list string) (s : State) (ev : Event) :
  MovesHaveText E ->
  Forall (fun c => text c <> "") (coach s) ->
  Forall (fun c => text c <> "") (coach (handle es s ev)).
Proof.
  intros [Hs Ho] I.
  assert (Adv : forall f mv, san mv <> "" ->
                  Forall (fun c => text c <> "") (coach (advanced es s s f (san mv)))).
  { intros f mv Hm.
    destruct (advanced_cells es s s f (san mv)) as (_ & _ & _ & Hc & _).
    cbn zeta in Hc. rewrite Hc. apply Forall_app. split; [exact I|].
    constructor; [|constructor]. cbn. now apply coachText_visible. }
  destruct ev as [a b| | | | |t|moves| |]; cbn [handle].
  - destruct (drop_cases es s a b) as [-> | [-> | (p & e & mv & p' & _ & _ & M & _ & ->)]];
      [exact I | exact I |].
    apply (Adv (fen_of p') mv). exact (Ho _ _ _ _ _ _ M).
  - destruct (showHint_cases es s s) as [-> | [ar ->]]; exact I.
  - now rewrite undo_unchanged.
  - constructor.
  - destruct (solved s); [exact I|].
    destruct (playExpectedMove_cases es s s) as [-> | (p & e & mv & p' & _ & _ & M & ->)];
      [exact I|].
    apply Adv. exact (Hs _ _ _ _ M).
  - destruct (Js.truthy t); [|exact I].
    unfold onLoad. destruct (newChess t); [constructor | exact I].
  - unfold onLoadSolution. destruct (toSanSequence _ _); [constructor | exact I].
  - unfold loadDemo, onLoad, onLoadSolution. cbn [fst].
    destruct (newChess _); destruct (toSanSequence _ _); cbn [fst]; try constructor; exact I.
  - unfold timerFires. destruct (timers s); exact I.
Qed.

(** X18.  When every move of the engine has a text, no entry of the move
    log of a reachable state has an empty text: a missing or empty coach
    note is replaced by the text of the move. *)
Theorem log_entries_have_text (cfg : PuzzleConfig.t) (s : State) :
  MovesHaveText E ->
  Reachable cfg s ->
  Forall (fun c => text c <> "") (coach s).
Proof.
  intros V. induction 1 as [|s ev s' R IH D]; [constructor|].
  destruct (dispatch_inv _ _ _ D) as (es & p & _ & _ & ->).
  now apply handle_texts.
Qed.

End RestOfComponent.

(** ** The matching of move texts *)

Lemma clean_no_decoration (s : string) :
  allChars (fun a => negb (isDecoration a)) (clean s) = true.
Proof.
  unfold clean. induction s as [|a s IH]; [reflexivity|].
  cbn [Js.remove_all]. destruct (Js.mem a "+#!?") eqn:M; [exact IH|].
  cbn [allChars]. unfold isDecoration at 1. now rewrite M, IH.
Qed.

Lemma clean_decorations (d : string) : allChars isDecoration d = true -> clean d = "".
Proof.
  unfold clean. induction d as [|a d IH]; [reflexivity|].
  cbn [allChars Js.remove_all]. intros H. apply andb_prop in H. destruct H as [A B].
  unfold isDecoration in A. now rewrite A, (IH B).
Qed.

Lemma clean_fixed (s : string) :
  allChars (fun a => negb (isDecoration a)) s = true -> clean s = s.
Proof.
  unfold clean. induction s as [|a s IH]; [reflexivity|].
  cbn [allChars Js.remove_all]. intros H. apply andb_prop in H. destruct H as [A B].
  apply negb_true_iff in A. unfold isDecoration in A. now rewrite A, (IH B).
Qed.

(** X19.  [clean] removes every [+], [#], [!] and [?] and nothing else: it
    is idempotent, leaves a text without decorations alone, commutes with
    concatenation, and does not see a run of decorations wherever it
    stands. *)
Theorem clean_ignores_decorations :
  (forall s, clean (clean s) = clean s) /\
  (forall s, allChars (fun a => negb (isDecoration a)) (clean s) = true) /\
  (forall s, allChars (fun a => negb (isDecoration a)) s = true -> clean s = s) /\
  (forall a d b, allChars isDecoration d = true -> clean (a ++ d ++ b) = clean (a ++ b)) /\
  (forall a b, clean (a ++ b) = clean a ++ clean b).
Proof.
  split; [exact clean_idempotent|]. split; [exact clean_no_decoration|].
  split; [exact clean_fixed|]. split; [|exact clean_append].
  intros a d b H. now rewrite !clean_append, (clean_decorations d H).
Qed.

(** ** Examples on the reference engine *)

Module MoreSessions.
Import ChessRules ChessRulesFacts.

Lemma moveSan_found (p : Pos) (token : string) (mv : Move) (p' : Pos) :
  ChessRules.moveSan p token = Some (mv, p') ->
  exists m, san mv = moveToSan p (legalMoves p) m.
Proof.
  unfold ChessRules.moveSan.
  destruct (find _ (legalMoves p)) as [m|].
  - intros H. injection H as <- _. now exists m.
  - destruct (parseSloppy _) as [[[[pc f] t] pr]|]; [|discriminate].
    destruct (find _ (legalMoves p)) as [m|]; [|discriminate].
    cbn. intros H. injection H as <- _. now exists m.
Qed.

Lemma moves_have_text : MovesHaveText engine.
Proof.
  split; cbn.
  - intros p token mv p' H. destruct (moveSan_found _ _ _ _ H) as (m & Hm).
    intros Z. apply (moveToSan_visible p (legalMoves p) m). rewrite <- Hm, Z. reflexivity.
  - intros p a b pr mv p' H. destruct (moveObj_found _ _ _ _ _ _ H) as (m & _ & Hm).
    intros Z. apply (moveToSan_visible p (legalMoves p) m). rewrite <- Hm, Z. reflexivity.
Qed.

Lemma afterMate_reachable : Reachable DEFAULT_PUZZLE afterMate.
Proof.
  apply Reachable_event with (s := demoSession) (ev := PieceDrop "f7" "g7");
    [apply Reachable_initial | computed].
Qed.

Lemma afterWrong_reachable : Reachable DEFAULT_PUZZLE afterWrong.
Proof.
  apply Reachable_event with (s := demoSession) (ev := PieceDrop "f7" "f6");
    [apply Reachable_initial | computed].
Qed.

Lemma afterHint_reachable : Reachable DEFAULT_PUZZLE afterHint.
Proof.
  apply Reachable_event with (s := demoSession) (ev := ClickHint);
    [apply Reachable_initial | computed].
Qed.

Lemma afterLoads_reachable : Reachable DEFAULT_PUZZLE afterLoads.
Proof.
  apply Reachable_event
    with (s := handle ["Qg7#"] demoSession (ClickLoadSolution "")) (ev := ClickLoadFen startFen).
  - apply Reachable_event with (s := demoSession) (ev := ClickLoadSolution "");
      [apply Reachable_initial | computed].
  - computed.
Qed.

Lemma blank_solution_is_accepted_witness :
  rendered demoSession = Some ["Qg7#"] /\
  allChars isSeparator " , " = true /\
  parseMoves " , " = [] /\
  rendered (handle ["Qg7#"] demoSession (ClickLoadSolution " , ")) = Some [].
Proof.
  assert (R : rendered demoSession = Some ["Qg7#"]) by computed.
  assert (B : allChars isSeparator " , " = true) by reflexivity.
  destruct (blank_solution_is_accepted ["Qg7#"] demoSession " , " R B)
    as (H1 & _ & _ & _ & _ & _ & _ & H7).
  split; [exact R|]. split; [exact B|]. split; [exact H1 | exact H7].
Defined.

(** White space of two and three bytes separates tokens as a blank does:
    U+00A0 and U+3000 between moves, U+FEFF and U+2028 around them. *)
Remark parseMoves_reads_wide_spaces :
  parseMoves (Js.utf8 65279 ++ "1. e4" ++ Js.utf8 160 ++ "e5" ++ Js.utf8 12288 ++ "2. Nf3"
              ++ Js.utf8 8232)
  = ["e4"; "e5"; "Nf3"] /\
  isWord ("e4" ++ Js.utf8 160 ++ "e5") = false /\
  Js.trim (Js.utf8 8232 ++ " a" ++ Js.utf8 160 ++ "b " ++ Js.utf8 65279)
  = "a" ++ Js.utf8 160 ++ "b".
Proof. split; [computed|split; computed]. Qed.

Lemma parseMoves_round_trip_witness :
  Forall (fun t => isPlainWord t = true) ["e4"; "e5"; "Nf3"; "O-O"; "Qg7#"] /\
  parseMoves "e4 e5 Nf3 O-O Qg7#" = ["e4"; "e5"; "Nf3"; "O-O"; "Qg7#"].
Proof.
  assert (H : Forall (fun t => isPlainWord t = true) ["e4"; "e5"; "Nf3"; "O-O"; "Qg7#"])
    by (repeat constructor).
  split; [exact H|].
  exact (parseMoves_round_trip ["e4"; "e5"; "Nf3"; "O-O"; "Qg7#"] H).
Defined.

Lemma parseMoves_drops_move_numbers_witness :
  "12" <> "" /\ allChars Js.isDigit "12" = true /\ prefix ".." " e4 e5" = false /\
  parseMoves "12... e4 e5" = parseMoves " e4 e5" /\
  parseMoves "12. e4 e5" = parseMoves " e4 e5".
Proof.
  assert (N : "12" <> "") by discriminate.
  assert (D : allChars Js.isDigit "12" = true) by reflexivity.
  assert (P : prefix ".." " e4 e5" = false) by reflexivity.
  destruct (parseMoves_drops_move_numbers "12" " e4 e5" N D) as [H1 H2].
  split; [exact N|]. split; [exact D|]. split; [exact P|].
  split; [exact H1 | exact (H2 P)].
Defined.

Lemma parseMoves_splits_at_separators_witness :
  isSeparator "," = true /\
  parseMoves "1. e4,e5 2. Nf3" = (parseMoves "1. e4" ++ parseMoves "e5 2. Nf3")%list.
Proof.
  assert (S : isSeparator "," = true) by reflexivity.
  split; [exact S|].
  exact (parseMoves_splits_at_separators "1. e4" "," "e5 2. Nf3" S).
Defined.

Lemma toSanSequence_prefixes_witness :
  toSanSequence startFen (["e4"; "e5"] ++ ["g1f3"])%list = Js.Ok ["e4"; "e5"; "Nf3"] /\
  toSanSequence startFen ["e4"; "e5"] = Js.Ok ["e4"; "e5"] /\
  toSanSequence startFen ["e4"; "e4"] = Js.Throw (Js.Error "Invalid solution move: e4") /\
  toSanSequence startFen (["e4"; "e4"] ++ ["e5"])%list
  = Js.Throw (Js.Error "Invalid solution move: e4").
Proof.
  assert (A : toSanSequence startFen (["e4"; "e5"] ++ ["g1f3"])%list
              = Js.Ok ["e4"; "e5"; "Nf3"]) by computed.
  assert (B : toSanSequence startFen ["e4"; "e4"]
              = Js.Throw (Js.Error "Invalid solution move: e4")) by computed.
  split; [exact A|].
  split; [exact (proj1 (toSanSequence_prefixes startFen ["e4"; "e5"] ["g1f3"]) _ A)|].
  split; [exact B|].
  exact (proj2 (toSanSequence_prefixes startFen ["e4"; "e4"] ["e5"]) _ B).
Defined.

Lemma reset_returns_to_start_witness :
  Reachable DEFAULT_PUZZLE afterMate /\
  puzzle afterMate = DEFAULT_PUZZLE /\ timers afterMate = 0 /\
  solved afterMate = true /\
  reset afterMate afterMate = initialState DEFAULT_PUZZLE.
Proof.
  assert (P : puzzle afterMate = DEFAULT_PUZZLE) by computed.
  assert (T : timers afterMate = 0) by computed.
  split; [exact afterMate_reachable|]. split; [exact P|]. split; [exact T|].
  split; [computed|].
  exact (proj2 (proj2 (reset_returns_to_start DEFAULT_PUZZLE afterMate afterMate_reachable)) P T).
Defined.

Lemma labels_never_change_witness :
  Reachable DEFAULT_PUZZLE afterLoads /\
  PuzzleConfig.fen (puzzle afterLoads) = startFen /\
  PuzzleConfig.solution (puzzle afterLoads) = [] /\
  PuzzleConfig.coachNotes (puzzle afterLoads) = PuzzleConfig.coachNotes DEFAULT_PUZZLE /\
  orientation afterLoads = orientation (initialState DEFAULT_PUZZLE).
Proof.
  destruct (labels_never_change DEFAULT_PUZZLE afterLoads afterLoads_reachable)
    as (_ & _ & _ & H4 & H5).
  split; [exact afterLoads_reachable|]. split; [computed|]. split; [computed|].
  split; [exact H4 | exact H5].
Defined.

Lemma wrong_is_transient_witness :
  Reachable DEFAULT_PUZZLE afterWrong /\ wrong afterWrong = true /\
  0 < timers afterWrong /\ wrong (fireAll afterWrong) = false.
Proof.
  assert (W : wrong afterWrong = true) by computed.
  pose proof (wrong_is_transient DEFAULT_PUZZLE afterWrong afterWrong_reachable) as H.
  split; [exact afterWrong_reachable|]. split; [exact W|].
  split; [exact (proj1 H W) | exact (proj1 (proj2 H))].
Defined.

Lemma only_timer_reset_load_clear_wrong_witness :
  wrong afterWrong = true /\
  wrong (handle ["Qg7#"] afterWrong TimerFires) = false /\
  (TimerFires = TimerFires \/ restartsLine TimerFires = true).
Proof.
  assert (W : wrong afterWrong = true) by computed.
  assert (C : wrong (handle ["Qg7#"] afterWrong TimerFires) = false) by computed.
  split; [exact W|]. split; [exact C|].
  exact (only_timer_reset_load_clear_wrong ["Qg7#"] afterWrong TimerFires W C).
Defined.

Lemma showHint_is_read_only_witness :
  List.length ["Qg7#"] <= ply afterMate /\
  showHint ["Qg7#"] afterMate afterMate = afterMate /\
  fen (showHint ["Qg7#"] demoSession demoSession) = fen demoSession /\
  arrows afterHint = [("f7", "g7")].
Proof.
  assert (L : List.length ["Qg7#"] <= ply afterMate) by (vm_compute; apply le_n).
  split; [exact L|].
  split; [exact (proj1 (proj2 (proj2 (showHint_is_read_only ["Qg7#"] afterMate afterMate))) L)|].
  split; [|computed].
  destruct (showHint_is_read_only ["Qg7#"] demoSession demoSession) as ((_ & H & _) & _).
  exact H.
Defined.

Lemma at_most_one_arrow_witness :
  Reachable DEFAULT_PUZZLE afterHint /\ List.length (arrows afterHint) <= 1.
Proof.
  split; [exact afterHint_reachable|].
  exact (at_most_one_arrow DEFAULT_PUZZLE afterHint afterHint_reachable).
Defined.

Lemma end_of_line_is_frozen_witness :
  exists p mv p',
    List.length (@nil string) <= ply emptyLineSession /\
    restartsLine (PieceDrop "e2" "e4") = false /\
    load (fen emptyLineSession) = Some p /\
    move_obj p "e2" "e4" (Some "q"%char) = Some (mv, p') /\
    onDrop [] emptyLineSession emptyLineSession "e2" "e4"
    = Js.Ok (setTimeout (setWrong true emptyLineSession), false) /\
    ply (handle [] emptyLineSession (PieceDrop "e2" "e4")) = ply emptyLineSession /\
    List.length ["Qg7#"] <= ply afterMate /\
    Reachable DEFAULT_PUZZLE afterMate /\
    expectedSequence afterMate = Js.Ok ["Qg7#"] /\
    solved afterMate = true /\
    handle ["Qg7#"] afterMate ClickPlayCoach = afterMate.
Proof.
  evar (p : Position). evar (mv : Move). evar (p' : Position).
  assert (L0 : List.length (@nil string) <= ply emptyLineSession) by apply le_n.
  assert (N : restartsLine (PieceDrop "e2" "e4") = false) by reflexivity.
  assert (L : load (fen emptyLineSession) = Some p) by computed.
  assert (M : move_obj p "e2" "e4" (Some "q"%char) = Some (mv, p')) by computed.
  assert (L1 : List.length ["Qg7#"] <= ply afterMate) by (vm_compute; apply le_n).
  assert (N1 : restartsLine ClickHint = false) by reflexivity.
  assert (He : expectedSequence afterMate = Js.Ok ["Qg7#"]) by computed.
  assert (Hs : solved afterMate = true) by computed.
  destruct (end_of_line_is_frozen [] emptyLineSession (PieceDrop "e2" "e4") L0 N)
    as ((_ & _ & P & _) & _ & D & _).
  destruct (end_of_line_is_frozen ["Qg7#"] afterMate ClickHint L1 N1) as (_ & _ & _ & F).
  exists p, mv, p'.
  split; [exact L0|]. split; [exact N|]. split; [exact L|]. split; [exact M|].
  split; [exact (D emptyLineSession "e2" "e4" p mv p' L M)|]. split; [exact P|].
  split; [exact L1|]. split; [exact afterMate_reachable|]. split; [exact He|].
  split; [exact Hs|].
  exact (proj2 (proj2 (F DEFAULT_PUZZLE afterMate_reachable He Hs))).
Defined.

Lemma loadDemo_checks_the_render_witness :
  exists pd,
    load (PuzzleConfig.fen DEFAULT_PUZZLE) = Some pd /\
    toSanSequence (PuzzleConfig.fen (puzzle emptyLineSession))
      (PuzzleConfig.solution DEFAULT_PUZZLE)
    = Js.Throw (Js.Error "Invalid solution move: Qg7#") /\
    snd (loadDemo emptyLineSession emptyLineSession)
    = ["Invalid solution list (use SAN like Qg7# or UCI like f7g7)"] /\
    PuzzleConfig.fen (puzzle (fst (loadDemo emptyLineSession emptyLineSession)))
    = PuzzleConfig.fen DEFAULT_PUZZLE /\
    PuzzleConfig.solution (puzzle (fst (loadDemo emptyLineSession emptyLineSession))) = [].
Proof.
  evar (pd : Position).
  assert (L : load (PuzzleConfig.fen DEFAULT_PUZZLE) = Some pd) by computed.
  assert (T : toSanSequence (PuzzleConfig.fen (puzzle emptyLineSession))
                (PuzzleConfig.solution DEFAULT_PUZZLE)
              = Js.Throw (Js.Error "Invalid solution move: Qg7#")) by computed.
  destruct (proj2 (loadDemo_checks_the_render emptyLineSession emptyLineSession pd L) _ T)
    as (H1 & H2 & H3 & _).
  exists pd. split; [exact L|]. split; [exact T|]. split; [exact H1|].
  split; [now rewrite H2 | exact H3].
Defined.

Lemma loadFen_survives_iff_witness :
  exists p,
    Js.truthy startFen = true /\
    load startFen = Some p /\
    toSanSequence startFen (PuzzleConfig.solution (puzzle demoSession))
    = Js.Throw (Js.Error "Invalid solution move: Qg7#") /\
    rendered (handle ["Qg7#"] demoSession (ClickLoadFen startFen)) = None /\
    run (handle ["Qg7#"] demoSession (ClickLoadFen startFen)) [ClickReset] = None.
Proof.
  evar (p : Position).
  assert (T : Js.truthy startFen = true) by reflexivity.
  assert (L : load startFen = Some p) by computed.
  assert (X : toSanSequence startFen (PuzzleConfig.solution (puzzle demoSession))
              = Js.Throw (Js.Error "Invalid solution move: Qg7#")) by computed.
  destruct (loadFen_survives_iff ["Qg7#"] demoSession startFen p T L) as (_ & R & C).
  exists p. split; [exact T|]. split; [exact L|]. split; [exact X|].
  split; [now rewrite R, X | exact (C _ ClickReset [] X)].
Defined.

Lemma load_in_three_steps_witness :
  exists p s',
    rendered demoSession = Some ["Qg7#"] /\
    Js.truthy startFen = true /\
    load startFen = Some p /\
    toSanSequence startFen (parseMoves "1. e4 e5 2. g1f3") = Js.Ok ["e4"; "e5"; "Nf3"] /\
    run demoSession [ClickLoadSolution ""; ClickLoadFen startFen;
                     ClickLoadSolution "1. e4 e5 2. g1f3"] = Some s' /\
    fen s' = startFen /\ rendered s' = Some ["e4"; "e5"; "Nf3"].
Proof.
  evar (p : Position).
  assert (R : rendered demoSession = Some ["Qg7#"]) by computed.
  assert (T : Js.truthy startFen = true) by reflexivity.
  assert (L : load startFen = Some p) by computed.
  assert (N : toSanSequence startFen (parseMoves "1. e4 e5 2. g1f3")
              = Js.Ok ["e4"; "e5"; "Nf3"]) by computed.
  destruct (load_in_three_steps demoSession _ startFen "1. e4 e5 2. g1f3" p _ R T L N)
    as (s' & H1 & _ & H3 & _ & _ & _ & _ & _ & H9).
  exists p, s'. repeat (split; [assumption|]). assumption.
Defined.

Lemma log_entries_have_text_witness :
  MovesHaveText engine /\
  Reachable DEFAULT_PUZZLE afterMate /\
  coach afterMate = [mkCoachItem true "Qg7#"] /\
  Forall (fun c => text c <> "") (coach afterMate).
Proof.
  split; [exact moves_have_text|]. split; [exact afterMate_reachable|].
  split; [computed|].
  exact (log_entries_have_text DEFAULT_PUZZLE afterMate moves_have_text afterMate_reachable).
Defined.

Lemma clean_ignores_decorations_witness :
  allChars isDecoration "!?" = true /\
  clean ("Q" ++ "!?" ++ "g7#") = clean ("Q" ++ "g7#") /\
  allChars (fun a => negb (isDecoration a)) "Qxg7" = true /\
  clean "Qxg7" = "Qxg7".
Proof.
  assert (D : allChars isDecoration "!?" = true) by reflexivity.
  assert (N : allChars (fun a => negb (isDecoration a)) "Qxg7" = true) by reflexivity.
  destruct clean_ignores_decorations as (_ & _ & F & M & _).
  split; [exact D|]. split; [exact (M "Q" "!?" "g7#" D)|].
  split; [exact N | exact (F "Qxg7" N)].
Defined.

End MoreSessions.
